(** * DataRefineAI: missing-value repair, verified against [src/DataRefineAI.py]

    A shallow embedding of the class [DataRefineAI]: the interpolation engine
    ([calculate_interpolation], [interpolate_numeric]), the categorical filler
    ([fill_categorical]), the coordinator ([handle_missing_values]), the
    report renderer ([generate_report], [_format_interpolation_details]) and
    the rest of the pipeline ([remove_duplicates], [normalize_text],
    [normalize_data_types], [clean_data]).

    Modelling conventions.
    - A pandas [Series] is the list of its cells under the default
      [RangeIndex], so a label is a position.  A cell is [NaN] (absent), a
      number or a string.  Tables are the ones [load_data] ([pd.read_csv])
      produces: a column is either float64 (numbers and [NaN]) or an object
      column of strings and [NaN], and column names are pairwise distinct.
      A column of booleans is outside the model.
    - A number is an IEEE 754 binary64 value in the Standard Library's
      specification of floating-point arithmetic ([SpecFloat]): operations
      round to nearest, ties to even, and overflow to the infinities.  The
      float nan is the absent cell [NaN].  An int64 column is held as the
      float64 column of the same numbers.
    - Python exceptions are the [Raise] results of an error monad.
    - [str] of a float is a parameter of the development ([str_float]); so
      are [str.lower], the parsing of a numeric literal by [pd.to_numeric],
      [pd.read_csv] and [DataFrame.to_csv] in the pipeline ([str_lower],
      [parse_float], [load_data], [to_csv]).
    - [Series.interpolate] leaves an object column as it is (pandas up to
      2.x) and fills a float64 column with numpy's [interp], evaluated
      without fused multiply-add; the [.str] accessor raises
      [AttributeError] on a column that is not an object column.
    - A table after [drop_duplicates] is kept by position: the index labels
      of the surviving rows are not modelled, nor is the partly updated
      [validation_report] that a raising [clean_data] leaves behind. *)

From Stdlib Require Import List Bool Arith ZArith Lia Sorted.
From Stdlib Require Import SpecFloat.
From Stdlib Require Import String Ascii DecimalString OrderedTypeEx.
Import ListNotations.

Local Open Scope string_scope.
Local Open Scope list_scope.
Local Open Scope nat_scope.

(** ** Exceptions *)

Inductive exn := TypeError | ZeroDivisionError | KeyError | IndexError.

Inductive result (A : Type) : Type :=
| Ok (a : A)
| Raise (e : exn).

Arguments Ok {A} a.
Arguments Raise {A} e.

Definition bind {A B : Type} (m : result A) (k : A -> result B) : result B :=
  match m with
  | Ok a => k a
  | Raise e => Raise e
  end.

Notation "x <- m ;; k" := (bind m (fun x => k))
  (at level 61, m at next level, right associativity).

(** ** float64 *)

(** A float64 is an IEEE 754 binary64 value, as the Standard Library
    specifies IEEE arithmetic ([SpecFloat]): the two zeros, the two
    infinities, nan, and the finite values [(-1)^s * m * 2^e].  Every
    operation rounds to nearest, ties to even, and overflows to an
    infinity. *)
Definition prec : Z := 53.
Definition emax : Z := 1024.

Definition float64 := spec_float.

Definition fadd : float64 -> float64 -> float64 := SFadd prec emax.
Definition fsub : float64 -> float64 -> float64 := SFsub prec emax.
Definition fmul : float64 -> float64 -> float64 := SFmul prec emax.
Definition fdiv : float64 -> float64 -> float64 := SFdiv prec emax.

(** The float64 nearest to an integer: [float(z)], and the conversion numpy
    applies to an int64 operand of a true division. *)
Definition float_of_int (z : Z) : float64 := binary_normalize prec emax z 0 false.

(** The float64 the decimal literal [m / 10^k] denotes, for [|m| < 2^53] and
    [k <= 22]: numerator and denominator are exact and the quotient is
    rounded once. *)
Definition decimal (m : Z) (k : nat) : float64 :=
  fdiv (float_of_int m) (float_of_int (10 ^ Z.of_nat k)).

Definition is_nan (x : float64) : bool :=
  match x with S754_nan => true | _ => false end.

Definition is_finite (x : float64) : bool :=
  match x with S754_zero _ | S754_finite _ _ _ => true | _ => false end.

(** C's [rint]: the nearest integer, ties to even, with the sign of the
    argument.  A finite value with a non-negative exponent is an integer
    already. *)
Definition rint (x : float64) : float64 :=
  match x with
  | S754_finite s m (Zneg p) =>
      let mrs := iter_pos shr_1 p (shr_record_of_loc (Zpos m) loc_Exact) in
      let z := round_nearest_even (shr_m mrs) (loc_of_shr_record mrs) in
      binary_normalize prec emax (cond_Zopp s z) 0 s
  | _ => x
  end.

(** [round(x, 2)] on a [numpy.float64]: numpy multiplies by [10**2], calls
    [rint] and divides by [10**2], each step in float64. *)
Definition round2 (x : float64) : float64 :=
  fdiv (rint (fmul x (float_of_int 100))) (float_of_int 100).

(** Equality of two floats as pandas' hash tables see it ([x == y], or both
    nan), and the order [numpy.sort] puts on them (nan last). *)
Definition float_eqb (x y : float64) : bool :=
  SFeqb x y || (is_nan x && is_nan y).

Definition float_leb (x y : float64) : bool :=
  match SFcompare x y with
  | Some Gt => false
  | Some _ => true
  | None => is_nan y
  end.

(** The distance between two positions of a column, as np.interp has it in
    float64.  Positions are below [2^53] (no column has that many cells),
    where the conversion of a position and the difference of two converted
    positions are exact; the model converts the integer difference, read as
    at most [2^53 - 1] in absolute value. *)
Definition max_exact : Z := 2 ^ 53 - 1.

Definition position_diff (a b : nat) : float64 :=
  float_of_int (Z.max (- max_exact) (Z.min (Z.of_nat a - Z.of_nat b) max_exact)).

(** ** Cells and series *)

(** A cell is absent ([NaN], the float nan of pandas), a float64 that is not
    nan, or a string. *)
Inductive scalar :=
| NaN
| Num (x : float64)
| Str (s : string).

(** The cell holding the result of a float64 operation. *)
Definition cell (x : float64) : scalar := if is_nan x then NaN else Num x.

Definition Series := list scalar.

Definition isnull (c : scalar) : bool :=
  match c with NaN => true | _ => false end.

Definition notnull (c : scalar) : bool := negb (isnull c).

Definition is_str (c : scalar) : bool :=
  match c with Str _ => true | _ => false end.

(** dtype of a column read by [read_csv]: object as soon as one cell is a
    string, float64 otherwise. *)
Definition is_object_dtype (series : Series) : bool := existsb is_str series.

(** A boolean series keeps the labels of the series it was computed from, also
    after slicing. *)
Definition Mask := list (nat * bool).

Definition labelled {A : Type} (l : list A) : list (nat * A) :=
  combine (seq 0 (List.length l)) l.

(** [series.notna()] and [series.isna()]. *)
Definition notna (series : Series) : Mask := labelled (map notnull series).
Definition isna (series : Series) : Mask := labelled (map isnull series).

(** [mask.any()]. *)
Definition any (m : Mask) : bool := existsb snd m.

(** [mask.index[mask]]: the labels at which the mask holds. *)
Definition index_where (m : Mask) : list nat := map fst (filter snd m).

(** [idx[-1]] and [idx[0]] on an index. *)
Definition index_last (idx : list nat) : result nat :=
  match rev idx with
  | [] => Raise IndexError
  | x :: _ => Ok x
  end.

Definition index_first (idx : list nat) : result nat :=
  match idx with
  | [] => Raise IndexError
  | x :: _ => Ok x
  end.

(** [series[label]]. *)
Definition getitem (series : Series) (label : nat) : result scalar :=
  match nth_error series label with
  | Some c => Ok c
  | None => Raise KeyError
  end.

(** ** Python arithmetic on cells *)

Definition py_sub (a b : scalar) : result scalar :=
  match a, b with
  | Num x, Num y => Ok (cell (fsub x y))
  | Str _, _ | _, Str _ => Raise TypeError
  | _, _ => Ok NaN
  end.

Definition py_add (a b : scalar) : result scalar :=
  match a, b with
  | Num x, Num y => Ok (cell (fadd x y))
  | Str _, _ | _, Str _ => Raise TypeError
  | _, _ => Ok NaN
  end.

(** A cell times a float. *)
Definition py_mul (a : scalar) (r : float64) : result scalar :=
  match a with
  | Num x => Ok (cell (fmul x r))
  | Str _ => Raise TypeError
  | NaN => Ok NaN
  end.

(** [a / b] on integers (true division): both are converted to float64 and
    divided there.  A zero divisor is the failure the model records as
    [ZeroDivisionError]. *)
Definition py_truediv (a b : Z) : result float64 :=
  if (b =? 0)%Z then Raise ZeroDivisionError
  else Ok (fdiv (float_of_int a) (float_of_int b)).

(** [round(a, 2)]. *)
Definition py_round2 (a : scalar) : result scalar :=
  match a with
  | Num x => Ok (cell (round2 x))
  | NaN => Ok NaN
  | Str _ => Raise TypeError
  end.

Definition str_int (n : nat) : string := NilEmpty.string_of_uint (Nat.to_uint n).

Definition str_bool (b : bool) : string := if b then "True" else "False".

(** ** fill_categorical *)

Definition scalar_eqb (a b : scalar) : bool :=
  match a, b with
  | NaN, NaN => true
  | Num x, Num y => float_eqb x y
  | Str s, Str t => String.eqb s t
  | _, _ => false
  end.

(** The order [numpy.sort] puts on the values of one column: numeric order on
    numbers, code-point order on strings.  A column never mixes the two; the
    order between a number and a string is a convention of the model. *)
Definition scalar_leb (a b : scalar) : bool :=
  match a, b with
  | NaN, _ => true
  | _, NaN => false
  | Num x, Num y => float_leb x y
  | Num _, Str _ => true
  | Str _, Num _ => false
  | Str s, Str t => String.leb s t
  end.

Definition dropna (series : Series) : list scalar := filter notnull series.

Definition value_count (v : scalar) (vals : list scalar) : nat :=
  List.length (filter (scalar_eqb v) vals).

(** Distinct values, in order of first occurrence. *)
Fixpoint unique (vals : list scalar) : list scalar :=
  match vals with
  | [] => []
  | v :: rest => v :: filter (fun w => negb (scalar_eqb v w)) (unique rest)
  end.

Definition max_count (vals : list scalar) : nat :=
  fold_right (fun v m => Nat.max (value_count v vals) m) 0 vals.

Fixpoint insert_sorted (v : scalar) (l : list scalar) : list scalar :=
  match l with
  | [] => [v]
  | w :: l' => if scalar_leb v w then v :: l else w :: insert_sorted v l'
  end.

Definition sort_values (l : list scalar) : list scalar :=
  fold_right insert_sorted [] l.

(** pandas [Series.mode()]: the most frequent non-null values, sorted. *)
Definition Series_mode (series : Series) : list scalar :=
  let vals := dropna series in
  sort_values (filter (fun v => value_count v vals =? max_count vals) (unique vals)).

(** [series.fillna(value)]. *)
Definition fillna (value : scalar) (series : Series) : Series :=
  map (fun c => if isnull c then value else c) series.

Definition fill_categorical (series : Series) : Series :=
  let mode := Series_mode series in
  match mode with
  | m :: _ => fillna m series
  | [] => fillna (Str "Unknown") series
  end.

Section DataRefineAI.

(** [str(x)] of a float64. *)
Variable str_float : float64 -> string.

Definition str_scalar (c : scalar) : string :=
  match c with
  | NaN => "nan"
  | Num x => str_float x
  | Str s => s
  end.

(** ** calculate_interpolation *)

Record InterpolationRecord := mkInterpolationRecord {
  missing_index : nat;
  left_value : scalar;
  right_value : scalar;
  left_index : nat;
  right_index : nat;
  interpolated_value : scalar;
  calculation : string
}.

Definition calculation_text (left_val right_val : scalar)
    (index left_idx right_idx : nat) : string :=
  "Value_" ++ str_scalar left_val ++ " + (" ++ str_scalar right_val ++ " - "
    ++ str_scalar left_val ++ ") × (" ++ str_int index ++ " - "
    ++ str_int left_idx ++ ")/(" ++ str_int right_idx ++ " - "
    ++ str_int left_idx ++ ")".

Definition calculate_interpolation (series : Series) (index : nat)
    : result (option InterpolationRecord) :=
  let before_mask := firstn index (notna series) in
  let after_mask := skipn index (notna series) in
  if any before_mask && any after_mask then
    left_idx <- index_last (index_where before_mask) ;;
    right_idx <- index_first (index_where after_mask) ;;
    left_val <- getitem series left_idx ;;
    right_val <- getitem series right_idx ;;
    position_ratio <- py_truediv (Z.of_nat index - Z.of_nat left_idx)
                                 (Z.of_nat right_idx - Z.of_nat left_idx) ;;
    diff <- py_sub right_val left_val ;;
    scaled <- py_mul diff position_ratio ;;
    interpolated_value <- py_add left_val scaled ;;
    rounded <- py_round2 interpolated_value ;;
    Ok (Some {| missing_index := index;
                left_value := left_val;
                right_value := right_val;
                left_index := left_idx;
                right_index := right_idx;
                interpolated_value := rounded;
                calculation :=
                  calculation_text left_val right_val index left_idx right_idx |})
  else Ok None.

(** ** interpolate_numeric *)

(** The loop over [missing_indices]: a record is appended when
    [calculate_interpolation] returns one. *)
Fixpoint interpolation_loop (series : Series) (missing_indices : list nat)
    (interpolation_details : list InterpolationRecord)
    : result (list InterpolationRecord) :=
  match missing_indices with
  | [] => Ok interpolation_details
  | idx :: rest =>
      details <- calculate_interpolation series idx ;;
      interpolation_loop series rest
        (match details with
         | Some d => interpolation_details ++ [d]
         | None => interpolation_details
         end)
  end.

(** Nearest non-absent cell strictly before position [i], and nearest one at
    or after it, with their positions. *)
Definition valid_before (series : Series) (i : nat) : option (nat * scalar) :=
  hd_error (rev (filter (fun p => notnull (snd p)) (firstn i (labelled series)))).

Definition valid_after (series : Series) (i : nat) : option (nat * scalar) :=
  hd_error (filter (fun p => notnull (snd p)) (skipn i (labelled series))).

(** numpy's [interp] at position [i] between the points [(l, yl)] and
    [(r, yr)], in float64: [slope * (x - x_l) + y_l]; when that is nan, the
    same from the right end, and [yl] when this is nan too and both ends are
    equal. *)
Definition np_interp (l r i : nat) (yl yr : float64) : float64 :=
  let slope := fdiv (fsub yr yl) (position_diff r l) in
  let res := fadd (fmul slope (position_diff i l)) yl in
  if is_nan res then
    let res' := fadd (fmul slope (position_diff i r)) yr in
    if is_nan res' && SFeqb yl yr then yl else res'
  else res.

(** pandas [Series.interpolate(method='linear')] with its defaults
    ([limit_direction='forward'], no [limit]): values are treated as equally
    spaced; a [NaN] between two valid cells gets numpy's [interp] value;
    trailing [NaN]s take the last valid value; leading [NaN]s are
    preserved. *)
Definition interp_cell (series : Series) (i : nat) (c : scalar) : scalar :=
  match c with
  | NaN =>
      match valid_before series i with
      | Some (l, Num yl) =>
          match valid_after series i with
          | Some (r, Num yr) => cell (np_interp l r i yl yr)
          | _ => Num yl
          end
      | _ => NaN
      end
  | _ => c
  end.

(** On an object column pandas (up to 2.x) leaves the data as it is. *)
Definition Series_interpolate (series : Series) : Series :=
  if is_object_dtype series then series
  else map (fun p => interp_cell series (fst p) (snd p)) (labelled series).

Definition interpolate_numeric (series : Series)
    : result (Series * list InterpolationRecord) :=
  let missing_indices := index_where (isna series) in
  interpolation_details <- interpolation_loop series missing_indices [] ;;
  let interpolated_series := Series_interpolate series in
  Ok (interpolated_series, interpolation_details).

(** ** handle_missing_values *)

Definition DataFrame := list (string * Series).

(** [df.columns]. *)
Definition columns (df : DataFrame) : list string := map fst df.

(** [df[column]]. *)
Fixpoint df_get (df : DataFrame) (column : string) : result Series :=
  match df with
  | [] => Raise KeyError
  | (c, s) :: rest => if (c =? column)%string then Ok s else df_get rest column
  end.

(** [df[column] = series]. *)
Fixpoint df_set (df : DataFrame) (column : string) (series : Series) : DataFrame :=
  match df with
  | [] => [(column, series)]
  | (c, s) :: rest =>
      if (c =? column)%string then (c, series) :: rest
      else (c, s) :: df_set rest column series
  end.

Inductive ColumnKind := Numeric | Categorical | Identifier.

Definition classify (column : string) : ColumnKind :=
  if (column =? "age")%string then Numeric
  else if (column =? "name")%string then Categorical
  else Identifier.

(** The dict built by [detect_data_types], in insertion order. *)
Definition detect_data_types (df : DataFrame) : list (string * ColumnKind) :=
  map (fun column => (column, classify column)) (columns df).

Fixpoint dict_get (d : list (string * ColumnKind)) (key : string) : result ColumnKind :=
  match d with
  | [] => Raise KeyError
  | (k, v) :: rest => if (k =? key)%string then Ok v else dict_get rest key
  end.

(** One entry of [interpolation_details] in the report: the record tagged
    with its column. *)
Record Detail := mkDetail {
  column : string;
  detail : InterpolationRecord
}.

Record MissingReport := mkMissingReport {
  numeric_fields_missing : nat;
  categorical_fields_missing : nat;
  columns_with_missing : list string;
  interpolation_details : list Detail
}.

(** [series.isna().sum()]. *)
Definition isna_sum (series : Series) : nat :=
  List.length (filter isnull series).

(** The body of the loop over [df.columns]. *)
Definition handle_column (data_types : list (string * ColumnKind))
    (state : DataFrame * MissingReport) (col : string)
    : result (DataFrame * MissingReport) :=
  let (df, missing_report) := state in
  series <- df_get df col ;;
  let missing_count := isna_sum series in
  if 0 <? missing_count then
    let cols := columns_with_missing missing_report ++ [col] in
    kind <- dict_get data_types col ;;
    match kind with
    | Numeric =>
        r <- interpolate_numeric series ;;
        Ok (df_set df col (fst r),
            {| numeric_fields_missing :=
                 numeric_fields_missing missing_report + missing_count;
               categorical_fields_missing :=
                 categorical_fields_missing missing_report;
               columns_with_missing := cols;
               interpolation_details :=
                 interpolation_details missing_report
                   ++ map (mkDetail col) (snd r) |})
    | Categorical =>
        Ok (df_set df col (fill_categorical series),
            {| numeric_fields_missing := numeric_fields_missing missing_report;
               categorical_fields_missing :=
                 categorical_fields_missing missing_report + missing_count;
               columns_with_missing := cols;
               interpolation_details := interpolation_details missing_report |})
    | Identifier =>
        Ok (df,
            {| numeric_fields_missing := numeric_fields_missing missing_report;
               categorical_fields_missing :=
                 categorical_fields_missing missing_report;
               columns_with_missing := cols;
               interpolation_details := interpolation_details missing_report |})
    end
  else Ok (df, missing_report).

Fixpoint for_columns (data_types : list (string * ColumnKind))
    (cols : list string) (state : DataFrame * MissingReport)
    : result (DataFrame * MissingReport) :=
  match cols with
  | [] => Ok state
  | col :: rest =>
      state' <- handle_column data_types state col ;;
      for_columns data_types rest state'
  end.

Definition empty_missing_report : MissingReport :=
  {| numeric_fields_missing := 0;
     categorical_fields_missing := 0;
     columns_with_missing := [];
     interpolation_details := [] |}.

Definition handle_missing_values (df : DataFrame)
    : result (DataFrame * MissingReport) :=
  let data_types := detect_data_types df in
  for_columns data_types (columns df) (df, empty_missing_report).

(** ** generate_report *)

Record DataOverview := { total_rows : nat; total_columns : nat }.
Record DuplicateRecords := { total_duplicates : nat; conflicting_records : nat }.
Record Normalization := { text_fields : bool; numeric_fields : bool }.
Record FinalStatus := { rows_after_cleaning : nat; columns_after_cleaning : nat }.

(** [self.validation_report]. *)
Record ValidationReport := {
  data_overview : DataOverview;
  missing_data : MissingReport;
  duplicate_records : DuplicateRecords;
  normalization : Normalization;
  final_status : FinalStatus
}.

Definition nl : string := String (ascii_of_nat 10) EmptyString.

Definition no_interpolation_line : string := "   No interpolation performed".

(** The f-string of one entry of [interpolation_details]. *)
Definition format_detail (item : Detail) : string :=
  let r := detail item in
  "   Column: " ++ column item ++ nl
  ++ "   - Missing at index: " ++ str_int (missing_index r) ++ nl
  ++ "   - Left value (index " ++ str_int (left_index r) ++ "): "
  ++ str_scalar (left_value r) ++ nl
  ++ "   - Right value (index " ++ str_int (right_index r) ++ "): "
  ++ str_scalar (right_value r) ++ nl
  ++ "   - Interpolation calculation: " ++ calculation r ++ nl
  ++ "   - Interpolated value: " ++ str_scalar (interpolated_value r) ++ nl.

Definition _format_interpolation_details (report : ValidationReport) : string :=
  match interpolation_details (missing_data report) with
  | [] => no_interpolation_line
  | items => String.concat nl (map format_detail items)
  end.

(** The template up to the [{interpolation_details}] field, filled in. *)
Definition report_head (report : ValidationReport) : string :=
  nl ++ "Summary Report" ++ nl
  ++ nl
  ++ "1. Data Overview:" ++ nl
  ++ "   - Total Rows: " ++ str_int (total_rows (data_overview report)) ++ nl
  ++ "   - Total Columns: " ++ str_int (total_columns (data_overview report)) ++ nl
  ++ nl
  ++ "2. Missing Data Handling:" ++ nl
  ++ "   - Numeric Fields missing: "
  ++ str_int (numeric_fields_missing (missing_data report)) ++ nl
  ++ "   - Categorical Fields missing: "
  ++ str_int (categorical_fields_missing (missing_data report)) ++ nl
  ++ "   - Columns with Missing Data: "
  ++ String.concat ", " (columns_with_missing (missing_data report)) ++ nl
  ++ nl
  ++ "   Interpolation Details:" ++ nl.

(** The template after the [{interpolation_details}] field, filled in. *)
Definition report_tail (report : ValidationReport) : string :=
  nl
  ++ nl
  ++ "3. Duplicate Records:" ++ nl
  ++ "   - Total Duplicates Removed: "
  ++ str_int (total_duplicates (duplicate_records report)) ++ nl
  ++ "   - Conflicting Records: "
  ++ str_int (conflicting_records (duplicate_records report)) ++ nl
  ++ nl
  ++ "4. Data Normalization:" ++ nl
  ++ "   - Text Fields Normalization: "
  ++ str_bool (text_fields (normalization report)) ++ nl
  ++ "   - Numeric Fields Normalization: "
  ++ str_bool (numeric_fields (normalization report)) ++ nl
  ++ nl
  ++ "5. Final Dataset Status:" ++ nl
  ++ "   - Number of Rows After Cleaning: "
  ++ str_int (rows_after_cleaning (final_status report)) ++ nl
  ++ "   - Number of Columns After Cleaning: "
  ++ str_int (columns_after_cleaning (final_status report)) ++ nl.

Definition generate_report (report : ValidationReport) : string :=
  report_head report ++ _format_interpolation_details report ++ report_tail report.

(** ** Notions the proofs are written with *)

(** The arithmetic of the branch, once the neighbours are known. *)
Definition interpolation_branch (index left_idx right_idx : nat)
    (left_val right_val : scalar) : result (option InterpolationRecord) :=
  position_ratio <- py_truediv (Z.of_nat index - Z.of_nat left_idx)
                               (Z.of_nat right_idx - Z.of_nat left_idx) ;;
  diff <- py_sub right_val left_val ;;
  scaled <- py_mul diff position_ratio ;;
  interpolated_value <- py_add left_val scaled ;;
  rounded <- py_round2 interpolated_value ;;
  Ok (Some {| missing_index := index;
              left_value := left_val;
              right_value := right_val;
              left_index := left_idx;
              right_index := right_idx;
              interpolated_value := rounded;
              calculation :=
                calculation_text left_val right_val
                  index left_idx right_idx |}).

(** The records position [i] adds to the list: the one
    [calculate_interpolation] returns, if any. *)
Definition record_at (series : Series) (i : nat) : list InterpolationRecord :=
  match calculate_interpolation series i with
  | Ok (Some r) => [r]
  | _ => []
  end.

(** The report of two runs of the loop body, one after the other. *)
Definition merge_reports (a b : MissingReport) : MissingReport :=
  {| numeric_fields_missing := numeric_fields_missing a + numeric_fields_missing b;
     categorical_fields_missing :=
       categorical_fields_missing a + categorical_fields_missing b;
     columns_with_missing := columns_with_missing a ++ columns_with_missing b;
     interpolation_details := interpolation_details a ++ interpolation_details b |}.

(** The table without the column named [c]. *)
Definition drop_column (c : string) (df : DataFrame) : DataFrame :=
  filter (fun p => negb (fst p =? c)%string) df.

Definition kind_eqb (a b : ColumnKind) : bool :=
  match a, b with
  | Numeric, Numeric | Categorical, Categorical | Identifier, Identifier => true
  | _, _ => false
  end.

(** Absent entries of the columns of one kind, summed over the table. *)
Definition gaps_of_kind (k : ColumnKind) (df : DataFrame) : nat :=
  list_sum (map (fun p => if kind_eqb (classify (fst p)) k
                          then isna_sum (snd p) else 0) df).

(** What one iteration does to its column, and what it adds to the report. *)
Definition repair_column (col : string) (series : Series)
    : result (Series * MissingReport) :=
  let missing_count := isna_sum series in
  if 0 <? missing_count then
    match classify col with
    | Numeric =>
        r <- interpolate_numeric series ;;
        Ok (fst r,
            {| numeric_fields_missing := missing_count;
               categorical_fields_missing := 0;
               columns_with_missing := [col];
               interpolation_details := map (mkDetail col) (snd r) |})
    | Categorical =>
        Ok (fill_categorical series,
            {| numeric_fields_missing := 0;
               categorical_fields_missing := missing_count;
               columns_with_missing := [col];
               interpolation_details := [] |})
    | Identifier =>
        Ok (series,
            {| numeric_fields_missing := 0;
               categorical_fields_missing := 0;
               columns_with_missing := [col];
               interpolation_details := [] |})
    end
  else Ok (series, empty_missing_report).

Fixpoint repair_columns (df : DataFrame) : result (DataFrame * MissingReport) :=
  match df with
  | [] => Ok ([], empty_missing_report)
  | (c, s) :: rest =>
      r <- repair_column c s ;;
      rs <- repair_columns rest ;;
      Ok ((c, fst r) :: fst rs, merge_reports (snd r) (snd rs))
  end.

End DataRefineAI.

(** ** Notions the statements are written with *)

(** [needle] occurs in [text]. *)
Definition substring_of (needle text : string) : Prop :=
  exists pre post : string, text = (pre ++ needle ++ post)%string.

(** The cell at a position is absent. *)
Definition gap_at (series : Series) (i : nat) : Prop :=
  nth_error series i = Some NaN.

(** Position [L] holds the nearest non-absent value before position [i]. *)
Definition nearest_left (series : Series) (i L : nat) (v : scalar) : Prop :=
  L < i /\ nth_error series L = Some v /\ v <> NaN /\
  forall j, L < j < i -> nth_error series j = Some NaN.

(** Position [R] holds the nearest non-absent value after position [i]. *)
Definition nearest_right (series : Series) (i R : nat) (v : scalar) : Prop :=
  i < R /\ nth_error series R = Some v /\ v <> NaN /\
  forall j, i < j < R -> nth_error series j = Some NaN.

(** No non-absent value before, respectively after, position [i]. *)
Definition none_before (series : Series) (i : nat) : Prop :=
  forall j, j < i -> nth_error series j = Some NaN.

Definition none_after (series : Series) (i : nat) : Prop :=
  forall j c, i < j -> nth_error series j = Some c -> c = NaN.

(** A gap with a non-absent value strictly before and strictly after it. *)
Definition interior_gap (series : Series) (i : nat) : bool :=
  match nth_error series i with
  | Some NaN => existsb notnull (firstn i series) && existsb notnull (skipn (S i) series)
  | _ => false
  end.

(** A float64 column: no cell is a string. *)
Definition numeric_column (series : Series) : Prop :=
  is_object_dtype series = false.

(** Every number of the column is finite: neither an infinity nor nan. *)
Definition finite_cell (c : scalar) : bool :=
  match c with
  | Num x => is_finite x
  | _ => true
  end.

Definition finite_column (series : Series) : Prop :=
  forallb finite_cell series = true.

(** The value the record of a gap at [i] between [(L, vL)] and [(R, vR)]
    holds: the formula of [calculate_interpolation], operation by operation
    in float64, then [round(..., 2)]. *)
Definition recorded_value (vL vR : float64) (i L R : nat) : float64 :=
  round2 (fadd vL (fmul (fsub vR vL)
                        (fdiv (float_of_int (Z.of_nat i - Z.of_nat L))
                              (float_of_int (Z.of_nat R - Z.of_nat L))))).

(** A position holds an absent cell. *)
Definition is_gap (series : Series) (j : nat) : bool :=
  match nth_error series j with
  | Some c => isnull c
  | None => false
  end.

(** The head of the sorted list is a least element. *)
Definition head_least (l : list scalar) : Prop :=
  match l with
  | [] => True
  | m :: _ => forall x, In x l -> scalar_leb m x = true
  end.

(** The tie-break the specification describes: among the most frequent
    non-absent values, the one met first in the column. *)
Definition first_encountered_mode (series : Series) : option scalar :=
  let vals := dropna series in
  hd_error (filter (fun v => value_count v vals =? max_count vals) (unique vals)).

Definition fill_first_encountered (series : Series) : Series :=
  match first_encountered_mode series with
  | Some m => fillna m series
  | None => fillna (Str "Unknown") series
  end.

(** An instance of the parameter [str_float], to run the model on examples:
    the integer part and one decimal of a non-negative finite value. *)
Definition str_float_sample (x : float64) : string :=
  match x with
  | S754_finite false m e =>
      let scale := (2 ^ (- e))%Z in
      let whole := if (0 <=? e)%Z then (Zpos m * 2 ^ e)%Z else (Zpos m / scale)%Z in
      let tenth := if (0 <=? e)%Z then 0%Z else ((Zpos m mod scale) * 10 / scale)%Z in
      str_int (Z.to_nat whole) ++ "." ++ str_int (Z.to_nat tenth)
  | S754_zero _ => "0.0"
  | _ => "?"
  end.

(** Tables and columns the statements are run on. *)
Definition column_10_40 : Series :=
  [Num (float_of_int 10); NaN; NaN; Num (float_of_int 40)].

Definition column_edges : Series :=
  [NaN; Num (float_of_int 5); NaN; Num (float_of_int 10); NaN].

Definition table_sample : DataFrame :=
  [("age", [Num (float_of_int 1); NaN; Num (float_of_int 4); NaN]);
   ("name", [Str "x"; NaN; Str "x"; Str "y"]);
   ("city", [NaN; Str "k"; Str "k"; NaN]);
   ("zip", [Str "a"; Str "b"; Str "c"; Str "d"])].

Definition record_sample : InterpolationRecord :=
  {| missing_index := 1;
     left_value := Num (float_of_int 1);
     right_value := Num (float_of_int 4);
     left_index := 0;
     right_index := 2;
     interpolated_value := Num (decimal 25 1);
     calculation :=
       calculation_text str_float_sample
         (Num (float_of_int 1)) (Num (float_of_int 4)) 1 0 2 |}.

Definition report_sample : ValidationReport :=
  {| data_overview := {| total_rows := 4; total_columns := 4 |};
     missing_data :=
       {| numeric_fields_missing := 2;
          categorical_fields_missing := 1;
          columns_with_missing := ["age"; "name"; "city"];
          interpolation_details := [mkDetail "age" record_sample] |};
     duplicate_records := {| total_duplicates := 0; conflicting_records := 0 |};
     normalization := {| text_fields := true; numeric_fields := true |};
     final_status := {| rows_after_cleaning := 4; columns_after_cleaning := 4 |} |}.

(** ** remove_duplicates *)

(** [len(df)]: the number of rows, read off the first column. *)
Definition nrows (df : DataFrame) : nat :=
  match df with
  | [] => 0
  | (_, s) :: _ => List.length s
  end.

(** The cells of row [i], column by column. *)
Definition row (df : DataFrame) (i : nat) : list scalar :=
  map (fun p => nth i (snd p) NaN) df.

(** Two rows hold equal cells; as in pandas, absent cells count as equal. *)
Fixpoint cells_eqb (r1 r2 : list scalar) : bool :=
  match r1, r2 with
  | [], [] => true
  | a :: r1', b :: r2' => scalar_eqb a b && cells_eqb r1' r2'
  | _, _ => false
  end.

(** [df.duplicated()] at row [i]: an earlier row holds the same cells. *)
Definition duplicated (df : DataFrame) (i : nat) : bool :=
  existsb (fun j => cells_eqb (row df j) (row df i)) (seq 0 i).

(** The positions of the rows [drop_duplicates] keeps. *)
Definition kept_rows (df : DataFrame) : list nat :=
  filter (fun i => negb (duplicated df i)) (seq 0 (nrows df)).

(** The cells of a column at the given positions. *)
Definition take_rows (idxs : list nat) (series : Series) : Series :=
  map (fun i => nth i series NaN) idxs.

(** [df.drop_duplicates()]: the first row of every group of equal rows, in
    order.  The index labels pandas keeps on these rows are not modelled;
    nothing downstream reads them. *)
Definition drop_duplicates (df : DataFrame) : DataFrame :=
  map (fun p => (fst p, take_rows (kept_rows df) (snd p))) df.

Definition remove_duplicates (df : DataFrame) : DataFrame * DuplicateRecords :=
  let initial_rows := nrows df in
  let df_no_duplicates := drop_duplicates df in
  (df_no_duplicates,
   {| total_duplicates := initial_rows - nrows df_no_duplicates;
      conflicting_records := 0 |}).

(** Every column has as many cells as the table has rows. *)
Definition rectangular (df : DataFrame) : Prop :=
  forall c s, In (c, s) df -> List.length s = nrows df.

(** A table holds a column of the given kind. *)
Definition has_kind (k : ColumnKind) (df : DataFrame) : bool :=
  existsb (fun p => kind_eqb (classify (fst p)) k) df.

(** ** normalize_text, normalize_data_types, clean_data *)

(** The exceptions of the whole run: those of the repair, the
    [AttributeError] of the [.str] accessor, and whatever [pd.read_csv]
    raises. *)
Inductive exception :=
| Builtin (e : exn)
| AttributeError
| ReadError.

Inductive outcome (A : Type) : Type :=
| Returns (a : A)
| Raises (e : exception).

Arguments Returns {A} a.
Arguments Raises {A} e.

Definition and_then {A B : Type} (m : outcome A) (k : A -> outcome B) : outcome B :=
  match m with
  | Returns a => k a
  | Raises e => Raises e
  end.

Definition lift {A : Type} (m : result A) : outcome A :=
  match m with
  | Ok a => Returns a
  | Raise e => Raises (Builtin e)
  end.

Notation "x <~ m ;; k" := (and_then m (fun x => k))
  (at level 61, m at next level, right associativity).

Section Pipeline.

(** [str(x)] of a float64, [s.lower()] of a string, the float a string
    denotes for [pd.to_numeric], [pd.read_csv] and [DataFrame.to_csv]. *)
Variable str_float : float64 -> string.
Variable str_lower : string -> string.
Variable parse_float : string -> option float64.
Variable load_data : string -> outcome DataFrame.
Variable to_csv : DataFrame -> string.

(** [series.str.lower()]: the accessor exists on an object column and
    raises [AttributeError] on a float64 column; a cell that is not a string
    becomes absent.  A column that holds a cell shows its dtype.  An empty
    column does not: [empty_is_object] tells whether it is an object column,
    as the empty columns [pd.read_csv] yields are, or a float64 column. *)
Definition str_lower_cell (c : scalar) : scalar :=
  match c with
  | Str s => Str (str_lower s)
  | _ => NaN
  end.

Definition normalize_text (empty_is_object : bool) (series : Series)
    : outcome Series :=
  match series with
  | [] => if empty_is_object then Returns [] else Raises AttributeError
  | _ => if is_object_dtype series then Returns (map str_lower_cell series)
         else Raises AttributeError
  end.

(** [pd.to_numeric(series, errors='coerce')]. *)
Definition to_numeric_cell (c : scalar) : scalar :=
  match c with
  | Str s => match parse_float s with
             | Some x => cell x
             | None => NaN
             end
  | _ => c
  end.

Definition to_numeric (series : Series) : Series := map to_numeric_cell series.

(** The body of the loop over [data_types.items()]. *)
Definition normalize_column (empty_is_object : bool)
    (state : DataFrame * Normalization)
    (item : string * ColumnKind) : outcome (DataFrame * Normalization) :=
  let (df, normalization_report) := state in
  let (col, dtype) := item in
  match dtype with
  | Categorical =>
      series <~ lift (df_get df col) ;;
      lowered <~ normalize_text empty_is_object series ;;
      Returns (df_set df col lowered,
               {| text_fields := true;
                  numeric_fields := numeric_fields normalization_report |})
  | Numeric =>
      series <~ lift (df_get df col) ;;
      Returns (df_set df col (to_numeric series),
               {| text_fields := text_fields normalization_report;
                  numeric_fields := true |})
  | Identifier => Returns (df, normalization_report)
  end.

Fixpoint normalize_loop (empty_is_object : bool)
    (items : list (string * ColumnKind))
    (state : DataFrame * Normalization) : outcome (DataFrame * Normalization) :=
  match items with
  | [] => Returns state
  | item :: rest =>
      state' <~ normalize_column empty_is_object state item ;;
      normalize_loop empty_is_object rest state'
  end.

Definition normalize_data_types (empty_is_object : bool) (df : DataFrame)
    : outcome (DataFrame * Normalization) :=
  let data_types := detect_data_types df in
  normalize_loop empty_is_object data_types
    (df, {| text_fields := false; numeric_fields := false |}).

(** What the loop does to one column. *)
Definition normalize_one (empty_is_object : bool) (c : string) (s : Series)
    : outcome Series :=
  match classify c with
  | Categorical => normalize_text empty_is_object s
  | Numeric => Returns (to_numeric s)
  | Identifier => Returns s
  end.

Fixpoint normalize_all (empty_is_object : bool) (df : DataFrame)
    : outcome DataFrame :=
  match df with
  | [] => Returns []
  | (c, s) :: rest =>
      s' <~ normalize_one empty_is_object c s ;;
      rest' <~ normalize_all empty_is_object rest ;;
      Returns ((c, s') :: rest')
  end.

(** [clean_data]: every key of [self.validation_report] is overwritten, so
    the report returned does not depend on the one held before.  The table
    comes from [pd.read_csv], whose empty columns are object columns; the
    repair and [drop_duplicates] keep the dtype of an empty column. *)
Definition clean_data (data : string) : outcome (string * ValidationReport) :=
  df <~ load_data data ;;
  let overview := {| total_rows := nrows df;
                     total_columns := List.length (columns df) |} in
  repaired <~ lift (handle_missing_values str_float df) ;;
  let deduplicated := remove_duplicates (fst repaired) in
  normalized <~ normalize_data_types true (fst deduplicated) ;;
  let df' := fst normalized in
  Returns (to_csv df',
           {| data_overview := overview;
              missing_data := snd repaired;
              duplicate_records := snd deduplicated;
              normalization := snd normalized;
              final_status :=
                {| rows_after_cleaning := nrows df';
                   columns_after_cleaning := List.length (columns df') |} |}).

End Pipeline.

(** Instances of the parameters, to run the model on examples: lower case on
    the letters A to Z, and no string denoting a float. *)
Definition ascii_lower (c : ascii) : ascii :=
  let n := nat_of_ascii c in
  if (65 <=? n) && (n <=? 90) then ascii_of_nat (n + 32) else c.

Fixpoint str_lower_sample (s : string) : string :=
  match s with
  | EmptyString => EmptyString
  | String c rest => String (ascii_lower c) (str_lower_sample rest)
  end.

Definition parse_float_sample (s : string) : option float64 := None.

Definition table_duplicates : DataFrame :=
  [("age", [Num (float_of_int 1); Num (float_of_int 2);
            Num (float_of_int 1); Num (float_of_int 2)]);
   ("name", [Str "Ann"; Str "Bob"; Str "Ann"; Str "BOB"])].

Definition table_string_age : DataFrame :=
  [("age", [Str "a"; NaN; Str "b"]); ("x", [NaN; NaN; NaN])].

Definition table_numeric_name : DataFrame :=
  [("name", [Num (float_of_int 1); Num (float_of_int 2)]);
   ("city", [Str "k"; Str "l"])].

(** Instances of [load_data] and [to_csv] for the examples: a loader that
    yields a given table, and a writer that gives the header line. *)
Definition load_table (df : DataFrame) (data : string) : outcome DataFrame :=
  Returns df.

Definition to_csv_header (df : DataFrame) : string :=
  String.concat "," (columns df).

(** * Proofs *)

(** ** Scanning a list for the first and the last element with a property *)

Section Scan.

Context {A : Type} (p : A -> bool).

Lemma first_filter_intro (l : list A) (k : nat) (x : A) :
  nth_error l k = Some x -> p x = true ->
  (forall j y, j < k -> nth_error l j = Some y -> p y = false) ->
  hd_error (filter p l) = Some x.
Proof.
  revert k. induction l as [|a l IH]; intros k Hk Hp Hbefore.
  - destruct k; discriminate.
  - destruct k as [|k]; simpl in *.
    + injection Hk as ->. now rewrite Hp.
    + rewrite (Hbefore 0 a) by (reflexivity || lia).
      apply (IH k); auto.
      intros j y Hj Hy. apply (Hbefore (S j) y); [lia | exact Hy].
Qed.

Lemma first_filter_elim (l : list A) (x : A) :
  hd_error (filter p l) = Some x ->
  exists k, nth_error l k = Some x /\ p x = true /\
    forall j y, j < k -> nth_error l j = Some y -> p y = false.
Proof.
  induction l as [|a l IH]; simpl; intros H; [discriminate|].
  destruct (p a) eqn:Ha.
  - injection H as <-. exists 0. repeat split; auto. intros j y Hj. lia.
  - destruct (IH H) as (k & Hk & Hp & Hbefore).
    exists (S k). repeat split; auto.
    intros [|j] y Hj Hy; simpl in Hy.
    + now injection Hy as <-.
    + apply (Hbefore j); [lia | exact Hy].
Qed.

Lemma first_filter_none (l : list A) :
  hd_error (filter p l) = None <-> existsb p l = false.
Proof.
  induction l as [|a l IH]; simpl; [tauto|].
  destruct (p a); simpl; [split; discriminate | exact IH].
Qed.

Lemma last_filter_intro (l : list A) (k : nat) (x : A) :
  nth_error l k = Some x -> p x = true ->
  (forall j y, k < j -> nth_error l j = Some y -> p y = false) ->
  hd_error (rev (filter p l)) = Some x.
Proof.
  revert k. induction l as [|a l IH] using rev_ind; intros k Hk Hp Hafter.
  - destruct k; discriminate.
  - rewrite filter_app, rev_app_distr. simpl.
    destruct (Nat.eq_dec k (List.length l)) as [->|Hne].
    + rewrite nth_error_app2, Nat.sub_diag in Hk by lia.
      injection Hk as ->. now rewrite Hp.
    + assert (Hlt : k < List.length l).
      { assert (k < List.length (l ++ [a])) by (apply nth_error_Some; congruence).
        rewrite length_app in H. simpl in H. lia. }
      rewrite (Hafter (List.length l) a); [| exact Hlt |].
      * simpl. apply (IH k); auto.
        -- now rewrite nth_error_app1 in Hk.
        -- intros j y Hj Hy. apply (Hafter j y Hj).
           rewrite nth_error_app1; [exact Hy|].
           apply nth_error_Some. congruence.
      * now rewrite nth_error_app2, Nat.sub_diag by lia.
Qed.

Lemma last_filter_elim (l : list A) (x : A) :
  hd_error (rev (filter p l)) = Some x ->
  exists k, nth_error l k = Some x /\ p x = true /\
    forall j y, k < j -> nth_error l j = Some y -> p y = false.
Proof.
  induction l as [|a l IH] using rev_ind; simpl; intros H; [discriminate|].
  rewrite filter_app, rev_app_distr in H. simpl in H.
  destruct (p a) eqn:Ha; simpl in H.
  - injection H as <-. exists (List.length l). repeat split; auto.
    + now rewrite nth_error_app2, Nat.sub_diag by lia.
    + intros j y Hj Hy.
      assert (j < List.length (l ++ [a])) by (apply nth_error_Some; congruence).
      rewrite length_app in H. simpl in H. lia.
  - destruct (IH H) as (k & Hk & Hp & Hafter).
    assert (Hlt : k < List.length l) by (apply nth_error_Some; congruence).
    exists k. repeat split; auto.
    + now rewrite nth_error_app1.
    + intros j y Hj Hy.
      destruct (Nat.lt_ge_cases j (List.length l)) as [Hjl|Hjl].
      * rewrite nth_error_app1 in Hy by exact Hjl. now apply (Hafter j).
      * rewrite nth_error_app2 in Hy by exact Hjl.
        destruct (j - List.length l) as [|[|n]]; simpl in Hy; try discriminate.
        now injection Hy as <-.
Qed.

Lemma last_filter_none (l : list A) :
  hd_error (rev (filter p l)) = None <-> existsb p l = false.
Proof.
  rewrite <- first_filter_none.
  destruct (filter p l) as [|a f] using rev_ind; simpl; [tauto|].
  rewrite rev_app_distr. simpl. split; [discriminate|].
  destruct f; discriminate.
Qed.

End Scan.

(** ** Masks and the neighbours [calculate_interpolation] selects *)

Lemma nth_error_combine_seq {A : Type} (l : list A) (a j : nat) :
  nth_error (combine (seq a (List.length l)) l) j
  = option_map (pair (a + j)) (nth_error l j).
Proof.
  revert a j. induction l as [|x l IH]; intros a [|j]; simpl; auto.
  - now rewrite Nat.add_0_r.
  - rewrite IH. now replace (S a + j) with (a + S j) by lia.
Qed.

Lemma nth_error_labelled {A : Type} (l : list A) (j : nat) :
  nth_error (labelled l) j = option_map (pair j) (nth_error l j).
Proof. unfold labelled. now rewrite nth_error_combine_seq. Qed.

Lemma nth_error_notna (series : Series) (j : nat) :
  nth_error (notna series) j
  = option_map (fun c => (j, notnull c)) (nth_error series j).
Proof.
  unfold notna. rewrite nth_error_labelled, nth_error_map.
  now destruct (nth_error series j).
Qed.

Lemma nth_error_isna (series : Series) (j : nat) :
  nth_error (isna series) j
  = option_map (fun c => (j, isnull c)) (nth_error series j).
Proof.
  unfold isna. rewrite nth_error_labelled, nth_error_map.
  now destruct (nth_error series j).
Qed.

Lemma before_mask_nth (series : Series) (i j : nat) (e : nat * bool) :
  nth_error (firstn i (notna series)) j = Some e <->
  j < i /\ exists c, nth_error series j = Some c /\ e = (j, notnull c).
Proof.
  rewrite nth_error_firstn, nth_error_notna.
  destruct (Nat.ltb_spec j i) as [Hlt|Hge].
  - destruct (nth_error series j) as [c|]; simpl; split.
    + intros [= <-]. eauto.
    + intros (_ & c' & [= <-] & ->). reflexivity.
    + discriminate.
    + intros (_ & c' & Hc & _). discriminate.
  - split; [discriminate | intros (Hlt & _); lia].
Qed.

Lemma after_mask_nth (series : Series) (i k : nat) (e : nat * bool) :
  nth_error (skipn i (notna series)) k = Some e <->
  exists c, nth_error series (i + k) = Some c /\ e = (i + k, notnull c).
Proof.
  rewrite nth_error_skipn, nth_error_notna.
  destruct (nth_error series (i + k)) as [c|]; simpl; split.
  - intros [= <-]. eauto.
  - intros (c' & [= <-] & ->). reflexivity.
  - discriminate.
  - intros (c' & Hc & _). discriminate.
Qed.

Lemma index_first_where (m : Mask) (r : nat) :
  index_first (index_where m) = Ok r <->
  exists b, hd_error (filter snd m) = Some (r, b).
Proof.
  unfold index_first, index_where.
  destruct (filter snd m) as [|[r' b] f]; simpl; split.
  - discriminate.
  - intros (b & H). discriminate.
  - intros [= <-]. eauto.
  - intros (b' & [= <- _]). reflexivity.
Qed.

Lemma index_last_where (m : Mask) (r : nat) :
  index_last (index_where m) = Ok r <->
  exists b, hd_error (rev (filter snd m)) = Some (r, b).
Proof.
  unfold index_last, index_where. rewrite <- map_rev.
  destruct (rev (filter snd m)) as [|[r' b] f]; simpl; split.
  - discriminate.
  - intros (b & H). discriminate.
  - intros [= <-]. eauto.
  - intros (b' & [= <- _]). reflexivity.
Qed.

Lemma any_index_first (m : Mask) :
  any m = true -> exists r, index_first (index_where m) = Ok r.
Proof.
  intros H. destruct (hd_error (filter snd m)) as [[r b]|] eqn:E.
  - exists r. apply index_first_where. eauto.
  - apply first_filter_none in E. unfold any in H. congruence.
Qed.

Lemma any_index_last (m : Mask) :
  any m = true -> exists r, index_last (index_where m) = Ok r.
Proof.
  intros H. destruct (hd_error (rev (filter snd m))) as [[r b]|] eqn:E.
  - exists r. apply index_last_where. eauto.
  - apply last_filter_none in E. unfold any in H. congruence.
Qed.

Lemma any_nth (m : Mask) :
  any m = true <-> exists k r, nth_error m k = Some (r, true).
Proof.
  unfold any. rewrite existsb_exists. split.
  - intros ([r b] & Hin & Hb). simpl in Hb. subst b.
    destruct (In_nth_error _ _ Hin) as (k & Hk). eauto.
  - intros (k & r & Hk). exists (r, true). split; [|reflexivity].
    eapply nth_error_In; eauto.
Qed.

(** The left neighbour is the last non-absent position before [index]. *)
Lemma left_idx_intro (series : Series) (i L : nat) (c : scalar) :
  L < i -> nth_error series L = Some c -> notnull c = true ->
  (forall j c', L < j < i -> nth_error series j = Some c' -> notnull c' = false) ->
  index_last (index_where (firstn i (notna series))) = Ok L.
Proof.
  intros HL Hc Hn Hgap. apply index_last_where. exists true.
  apply (last_filter_intro snd _ L).
  - apply before_mask_nth. split; [exact HL|]. exists c. now rewrite Hn.
  - reflexivity.
  - intros j [r b] Hj Hy. apply before_mask_nth in Hy.
    destruct Hy as (Hji & c' & Hc' & [= -> ->]). simpl.
    apply (Hgap j); [lia | exact Hc'].
Qed.

Lemma left_idx_elim (series : Series) (i L : nat) :
  index_last (index_where (firstn i (notna series))) = Ok L ->
  L < i /\ exists c, nth_error series L = Some c /\ notnull c = true /\
    forall j c', L < j < i -> nth_error series j = Some c' -> notnull c' = false.
Proof.
  intros H. apply index_last_where in H. destruct H as (b & H).
  apply last_filter_elim in H. destruct H as (k & Hk & Hb & Hafter).
  simpl in Hb. subst b.
  apply before_mask_nth in Hk. destruct Hk as (Hki & c & Hc & [= -> Hn]).
  split; [exact Hki|]. exists c. repeat split; auto.
  intros j c' Hj Hc'.
  apply (Hafter j (j, notnull c')); [lia|].
  apply before_mask_nth. split; [lia|]. eauto.
Qed.

(** The right neighbour is the first non-absent position from [index] on. *)
Lemma right_idx_intro (series : Series) (i R : nat) (c : scalar) :
  i <= R -> nth_error series R = Some c -> notnull c = true ->
  (forall j c', i <= j < R -> nth_error series j = Some c' -> notnull c' = false) ->
  index_first (index_where (skipn i (notna series))) = Ok R.
Proof.
  intros HR Hc Hn Hgap. apply index_first_where. exists true.
  apply (first_filter_intro snd _ (R - i)).
  - apply after_mask_nth. replace (i + (R - i)) with R by lia.
    exists c. now rewrite Hn.
  - reflexivity.
  - intros j [r b] Hj Hy. apply after_mask_nth in Hy.
    destruct Hy as (c' & Hc' & [= -> ->]). simpl.
    apply (Hgap (i + j)); [lia | exact Hc'].
Qed.

Lemma right_idx_elim (series : Series) (i R : nat) :
  index_first (index_where (skipn i (notna series))) = Ok R ->
  i <= R /\ exists c, nth_error series R = Some c /\ notnull c = true /\
    forall j c', i <= j < R -> nth_error series j = Some c' -> notnull c' = false.
Proof.
  intros H. apply index_first_where in H. destruct H as (b & H).
  apply first_filter_elim in H. destruct H as (k & Hk & Hb & Hbefore).
  simpl in Hb. subst b.
  apply after_mask_nth in Hk. destruct Hk as (c & Hc & [= -> Hn]).
  split; [lia|]. exists c. repeat split; auto.
  intros j c' Hj Hc'.
  apply (Hbefore (j - i) (j, notnull c')); [lia|].
  apply after_mask_nth. replace (i + (j - i)) with j by lia. eauto.
Qed.

Lemma any_before_iff (series : Series) (i : nat) :
  any (firstn i (notna series)) = true <->
  exists j c, j < i /\ nth_error series j = Some c /\ notnull c = true.
Proof.
  rewrite any_nth. split.
  - intros (k & r & Hk). apply before_mask_nth in Hk.
    destruct Hk as (Hki & c & Hc & [= -> Hn]). exists k, c. auto.
  - intros (j & c & Hj & Hc & Hn). exists j, j.
    apply before_mask_nth. split; [exact Hj|]. exists c. now rewrite Hn.
Qed.

Lemma any_after_iff (series : Series) (i : nat) :
  any (skipn i (notna series)) = true <->
  exists j c, i <= j /\ nth_error series j = Some c /\ notnull c = true.
Proof.
  rewrite any_nth. split.
  - intros (k & r & Hk). apply after_mask_nth in Hk.
    destruct Hk as (c & Hc & [= -> Hn]). exists (i + k), c.
    repeat split; auto. lia.
  - intros (j & c & Hj & Hc & Hn). exists (j - i), j.
    apply after_mask_nth. replace (i + (j - i)) with j by lia.
    exists c. now rewrite Hn.
Qed.

(** ** float64 arithmetic never invents a nan from finite operands *)

Lemma shr_1_nonneg (mrs : shr_record) :
  (0 <= shr_m mrs)%Z -> (0 <= shr_m (shr_1 mrs))%Z.
Proof.
  destruct mrs as [m r s]. destruct m as [|p|p]; simpl; intros H; try lia;
    destruct p; simpl; lia.
Qed.

Lemma iter_shr_1_nonneg (p : positive) (mrs : shr_record) :
  (0 <= shr_m mrs)%Z -> (0 <= shr_m (iter_pos shr_1 p mrs))%Z.
Proof.
  revert mrs. induction p as [p IH|p IH|]; intros mrs H; simpl.
  - apply IH, IH, shr_1_nonneg, H.
  - apply IH, IH, H.
  - apply shr_1_nonneg, H.
Qed.

Lemma shr_fexp_nonneg (m e : Z) (l : location) :
  (0 <= m)%Z -> (0 <= shr_m (fst (shr_fexp prec emax m e l)))%Z.
Proof.
  intros H. unfold shr_fexp, shr.
  assert (H0 : (0 <= shr_m (shr_record_of_loc m l))%Z)
    by (destruct l as [|[]]; exact H).
  destruct (fexp prec emax (Zdigits2 m + e) - e)%Z; simpl; auto.
  now apply iter_shr_1_nonneg.
Qed.

Lemma round_nearest_even_nonneg (m : Z) (l : location) :
  (0 <= m)%Z -> (0 <= round_nearest_even m l)%Z.
Proof.
  intros H. destruct l as [|[]]; simpl; try lia. destruct (Z.even m); lia.
Qed.

Lemma binary_round_aux_not_nan (s : bool) (m e : Z) (l : location) :
  (0 <= m)%Z -> is_nan (binary_round_aux prec emax s m e l) = false.
Proof.
  intros H. unfold binary_round_aux.
  pose proof (shr_fexp_nonneg m e l H) as H1.
  destruct (shr_fexp prec emax m e l) as [mrs' e']. simpl in H1.
  pose proof (shr_fexp_nonneg _ e' loc_Exact
                (round_nearest_even_nonneg _ (loc_of_shr_record mrs') H1)) as H2.
  destruct (shr_fexp prec emax _ e' loc_Exact) as [mrs'' e'']. simpl in H2.
  destruct (shr_m mrs'') as [|p|p]; [reflexivity | | lia].
  now destruct (e'' <=? emax - prec)%Z.
Qed.

Lemma binary_normalize_not_nan (m e : Z) (s : bool) :
  is_nan (binary_normalize prec emax m e s) = false.
Proof.
  destruct m as [|p|p]; simpl; [reflexivity| |];
    unfold binary_round; destruct (shl_align _ _ _) as [mz ez];
    apply binary_round_aux_not_nan; lia.
Qed.

Lemma fadd_not_nan (x y : float64) :
  is_nan x = false -> is_finite y = true -> is_nan (fadd x y) = false.
Proof.
  destruct x as [sx|sx| |sx mx ex], y as [sy|sy| |sy my ey]; simpl;
    try discriminate; intros _ _; try reflexivity.
  - now destruct sx, sy.
  - apply binary_normalize_not_nan.
Qed.

Lemma fsub_not_nan (x y : float64) :
  is_finite x = true -> is_finite y = true -> is_nan (fsub x y) = false.
Proof.
  destruct x as [sx|sx| |sx mx ex], y as [sy|sy| |sy my ey]; simpl;
    try discriminate; intros _ _; try reflexivity.
  - now destruct sx, sy.
  - apply binary_normalize_not_nan.
Qed.

Lemma fmul_not_nan (x : float64) (s : bool) (m : positive) (e : Z) :
  is_nan x = false -> is_nan (fmul x (S754_finite s m e)) = false.
Proof.
  destruct x as [sx|sx| |sx mx ex]; simpl; try discriminate; intros _;
    try reflexivity.
  apply binary_round_aux_not_nan. lia.
Qed.

Lemma fdiv_not_nan (x : float64) (s : bool) (m : positive) (e : Z) :
  is_nan x = false -> is_nan (fdiv x (S754_finite s m e)) = false.
Proof.
  destruct x as [sx|sx| |sx mx ex]; simpl; try discriminate; intros _;
    try reflexivity.
  unfold fdiv, SFdiv.
  destruct (SFdiv_core_binary prec emax (Z.pos mx) ex (Z.pos m) e) as [[mz ez] lz] eqn:E.
  apply binary_round_aux_not_nan.
  unfold SFdiv_core_binary in E.
  set (m' := match (ex - e - _)%Z with Z.pos _ => _ | Z0 => _ | Z.neg _ => _ end) in E.
  assert (Hm' : (0 <= m')%Z).
  { subst m'. destruct (ex - e - _)%Z; try lia. apply Z.shiftl_nonneg. lia. }
  pose proof (Z_div_mod m' (Z.pos m) eq_refl) as Hd.
  destruct (Z.div_eucl m' (Z.pos m)) as [q r]. injection E as <- _ _.
  nia.
Qed.

(** The conversion of a positive integer below [2^53] is a finite float. *)
Lemma digits2_pos_iter_xO (p : positive) (n : positive) :
  digits2_pos (Pos.iter xO p n) = (digits2_pos p + n)%positive.
Proof.
  induction n as [|n IH] using Pos.peano_ind.
  - simpl. lia.
  - rewrite Pos.iter_succ. simpl. rewrite IH. lia.
Qed.

Lemma digits2_pos_bound (p : positive) :
  (Z.pos p < 2 ^ Z.pos (digits2_pos p))%Z.
Proof.
  induction p as [p IH|p IH|]; simpl digits2_pos.
  - rewrite Pos2Z.inj_succ, Z.pow_succ_r by lia. lia.
  - rewrite Pos2Z.inj_succ, Z.pow_succ_r by lia. lia.
  - reflexivity.
Qed.

Lemma digits2_pos_small (p : positive) :
  (Z.pos p < 2 ^ 53)%Z -> (Z.pos (digits2_pos p) <= 53)%Z.
Proof.
  intros H.
  assert (Hlow : (2 ^ (Z.pos (digits2_pos p) - 1) <= Z.pos p)%Z).
  { clear H. induction p as [p IH|p IH|]; simpl digits2_pos.
    - rewrite Pos2Z.inj_succ. replace (Z.succ (Z.pos (digits2_pos p)) - 1)%Z
        with (Z.succ (Z.pos (digits2_pos p) - 1))%Z by lia.
      rewrite Z.pow_succ_r by lia. lia.
    - rewrite Pos2Z.inj_succ. replace (Z.succ (Z.pos (digits2_pos p)) - 1)%Z
        with (Z.succ (Z.pos (digits2_pos p) - 1))%Z by lia.
      rewrite Z.pow_succ_r by lia. lia.
    - simpl. lia. }
  destruct (Z_le_gt_dec (Z.pos (digits2_pos p)) 53) as [Hle|Hgt]; [exact Hle|].
  exfalso.
  assert ((2 ^ 53 <= 2 ^ (Z.pos (digits2_pos p) - 1))%Z)
    by (apply Z.pow_le_mono_r; lia).
  lia.
Qed.

Lemma binary_round_aux_canonical (s : bool) (m : positive) (e : Z) :
  fexp prec emax (Z.pos (digits2_pos m) + e) = e -> (e <= emax - prec)%Z ->
  binary_round_aux prec emax s (Z.pos m) e loc_Exact = S754_finite s m e.
Proof.
  intros Hc He. unfold binary_round_aux, shr_fexp.
  cbn [Zdigits2]. rewrite Hc, Z.sub_diag.
  cbn [shr shr_record_of_loc shr_m loc_of_shr_record round_nearest_even Zdigits2].
  rewrite Hc, Z.sub_diag. cbn [shr shr_record_of_loc shr_m].
  apply Z.leb_le in He. now rewrite He.
Qed.

Lemma float_of_int_small (p : positive) :
  (Z.pos p < 2 ^ 53)%Z ->
  exists m e, float_of_int (Z.pos p) = S754_finite false m e.
Proof.
  intros H. pose proof (digits2_pos_small p H) as Hd.
  unfold float_of_int, binary_normalize, binary_round.
  assert (Ef : fexp prec emax (Z.pos (digits2_pos p) + 0) = (Z.pos (digits2_pos p) - 53)%Z).
  { unfold fexp, emin, prec, emax. lia. }
  rewrite Ef. unfold shl_align.
  destruct (Z.pos (digits2_pos p) - 53 - 0)%Z as [|q|q] eqn:Eq; [| lia |].
  - do 2 eexists. apply binary_round_aux_canonical.
    + unfold fexp, emin, prec, emax. lia.
    + unfold emax, prec. lia.
  - do 2 eexists. apply binary_round_aux_canonical.
    + rewrite digits2_pos_iter_xO. unfold fexp, emin, prec, emax. lia.
    + unfold emax, prec. lia.
Qed.

Lemma position_diff_pos (a b : nat) :
  b < a -> exists m e, position_diff a b = S754_finite false m e.
Proof.
  intros H. unfold position_diff.
  destruct (Z.max (- max_exact) (Z.min (Z.of_nat a - Z.of_nat b) max_exact))
    as [|p|p] eqn:E; try (unfold max_exact in E; lia).
  apply float_of_int_small. unfold max_exact in E. lia.
Qed.

(** ** Comparing floats *)

Ltac float_cases :=
  repeat match goal with
  | s : bool |- _ => destruct s
  end; simpl; try reflexivity; try discriminate; try tauto.

Ltac cmp_cases :=
  change (Pos.compare_cont Eq) with Pos.compare in *;
  repeat match goal with
  | |- context [Z.compare ?a ?b] => destruct (Z.compare_spec a b)
  | H : context [Z.compare ?a ?b] |- _ => destruct (Z.compare_spec a b)
  | |- context [Pos.compare ?a ?b] => destruct (Pos.compare_spec a b)
  | H : context [Pos.compare ?a ?b] |- _ => destruct (Pos.compare_spec a b)
  end; simpl in *; subst; try reflexivity; try discriminate; try lia; auto.

Lemma float_eqb_refl (x : float64) : float_eqb x x = true.
Proof.
  unfold float_eqb, SFeqb. destruct x as [s|s| |s m e]; simpl; float_cases;
    rewrite Z.compare_refl; change (Pos.compare_cont Eq) with Pos.compare;
    now rewrite Pos.compare_refl.
Qed.

Lemma float_eqb_sym (x y : float64) : float_eqb x y = float_eqb y x.
Proof.
  unfold float_eqb, SFeqb.
  destruct x as [s|s| |s m e], y as [s'|s'| |s' m' e']; simpl; float_cases; cmp_cases.
Qed.

Lemma float_eqb_trans (x y z : float64) :
  float_eqb x y = true -> float_eqb y z = true -> float_eqb x z = true.
Proof.
  unfold float_eqb, SFeqb.
  destruct x as [s|s| |s m e], y as [s'|s'| |s' m' e'], z as [s''|s''| |s'' m'' e''];
    simpl; float_cases; cmp_cases.
Qed.

Lemma float_leb_total (x y : float64) :
  float_leb x y = true \/ float_leb y x = true.
Proof.
  unfold float_leb.
  destruct x as [s|s| |s m e], y as [s'|s'| |s' m' e']; simpl; float_cases; cmp_cases.
Qed.

Lemma float_leb_trans (x y z : float64) :
  float_leb x y = true -> float_leb y z = true -> float_leb x z = true.
Proof.
  unfold float_leb.
  destruct x as [s|s| |s m e], y as [s'|s'| |s' m' e'], z as [s''|s''| |s'' m'' e''];
    simpl; float_cases; cmp_cases.
Qed.

Lemma float_eqb_leb (x y : float64) :
  float_eqb x y = true -> float_leb x y = true.
Proof.
  unfold float_eqb, float_leb, SFeqb.
  destruct x as [s|s| |s m e], y as [s'|s'| |s' m' e']; simpl; float_cases; cmp_cases.
Qed.

(** ** Cells of float results *)

Lemma cell_not_str (x : float64) : is_str (cell x) = false.
Proof. unfold cell. now destruct (is_nan x). Qed.

Lemma cell_nan_iff (x : float64) : cell x = NaN <-> is_nan x = true.
Proof. unfold cell. destruct (is_nan x); split; congruence. Qed.


Lemma py_mul_cell (x r : float64) : py_mul (cell x) r = Ok (cell (fmul x r)).
Proof. destruct x; reflexivity. Qed.

Lemma py_add_cell (x y : float64) :
  py_add (Num x) (cell y) = Ok (cell (fadd x y)).
Proof. destruct y; try reflexivity. destruct x; reflexivity. Qed.

Lemma py_round2_cell (x : float64) : py_round2 (cell x) = Ok (cell (round2 x)).
Proof. destruct x; reflexivity. Qed.

(** On finite ends numpy's [interp] gives a number. *)
Lemma np_interp_not_nan (l r i : nat) (yl yr : float64) :
  l < i -> l < r -> is_finite yl = true -> is_finite yr = true ->
  is_nan (np_interp l r i yl yr) = false.
Proof.
  intros Hl Hr Fl Fr. unfold np_interp.
  destruct (position_diff_pos r l) as (m1 & e1 & E1); [lia|].
  destruct (position_diff_pos i l) as (m2 & e2 & E2); [lia|].
  rewrite E1, E2.
  assert (H : is_nan (fadd (fmul (fdiv (fsub yr yl) (S754_finite false m1 e1))
                                 (S754_finite false m2 e2)) yl) = false).
  { apply fadd_not_nan; [|exact Fl].
    apply fmul_not_nan, fdiv_not_nan, fsub_not_nan; assumption. }
  now rewrite H.
Qed.

(** ** calculate_interpolation, case by case *)

Section Engine.

Variable str_float : float64 -> string.

Lemma index_last_any (m : Mask) (r : nat) :
  index_last (index_where m) = Ok r -> any m = true.
Proof.
  intros H. apply index_last_where in H. destruct H as (b & H).
  destruct (any m) eqn:E; [reflexivity|].
  apply last_filter_none in E. congruence.
Qed.

Lemma index_first_any (m : Mask) (r : nat) :
  index_first (index_where m) = Ok r -> any m = true.
Proof.
  intros H. apply index_first_where in H. destruct H as (b & H).
  destruct (any m) eqn:E; [reflexivity|].
  apply first_filter_none in E. congruence.
Qed.

Lemma py_truediv_ok (i L R : nat) :
  L < R ->
  py_truediv (Z.of_nat i - Z.of_nat L) (Z.of_nat R - Z.of_nat L)
  = Ok (fdiv (float_of_int (Z.of_nat i - Z.of_nat L))
             (float_of_int (Z.of_nat R - Z.of_nat L))).
Proof.
  intros H. unfold py_truediv.
  destruct (Z.eqb_spec (Z.of_nat R - Z.of_nat L) 0); [lia | reflexivity].
Qed.


Lemma calculate_interpolation_branch (series : Series) (i L R : nat)
    (cl cr : scalar) :
  index_last (index_where (firstn i (notna series))) = Ok L ->
  index_first (index_where (skipn i (notna series))) = Ok R ->
  nth_error series L = Some cl -> nth_error series R = Some cr ->
  calculate_interpolation str_float series i = interpolation_branch str_float i L R cl cr.
Proof.
  intros HL HR Hcl Hcr. unfold calculate_interpolation.
  rewrite (index_last_any _ _ HL), (index_first_any _ _ HR). simpl.
  rewrite HL, HR. simpl. unfold getitem. rewrite Hcl, Hcr. reflexivity.
Qed.

Lemma calculate_interpolation_none (series : Series) (i : nat) :
  any (firstn i (notna series)) && any (skipn i (notna series)) = false ->
  calculate_interpolation str_float series i = Ok None.
Proof. intros H. unfold calculate_interpolation. now rewrite H. Qed.

(** Every call either finds no pair of neighbours, or runs the branch on the
    last non-absent position before [i] and the first one from [i] on. *)
Lemma calculate_interpolation_cases (series : Series) (i : nat) :
  (any (firstn i (notna series)) && any (skipn i (notna series)) = false /\
   calculate_interpolation str_float series i = Ok None)
  \/
  (exists L R cl cr,
     index_last (index_where (firstn i (notna series))) = Ok L /\
     index_first (index_where (skipn i (notna series))) = Ok R /\
     nth_error series L = Some cl /\ nth_error series R = Some cr /\
     notnull cl = true /\ notnull cr = true /\ L < i /\ i <= R /\
     calculate_interpolation str_float series i = interpolation_branch str_float i L R cl cr).
Proof.
  destruct (any (firstn i (notna series)) && any (skipn i (notna series))) eqn:E.
  - right. apply andb_true_iff in E. destruct E as (Eb & Ea).
    destruct (any_index_last _ Eb) as (L & HL).
    destruct (any_index_first _ Ea) as (R & HR).
    destruct (left_idx_elim _ _ _ HL) as (HLi & cl & Hcl & Hnl & _).
    destruct (right_idx_elim _ _ _ HR) as (HRi & cr & Hcr & Hnr & _).
    exists L, R, cl, cr. repeat split; auto.
    now apply calculate_interpolation_branch.
  - left. split; [reflexivity|]. now apply calculate_interpolation_none.
Qed.

Lemma interpolation_branch_num (i L R : nat) (vL vR : float64) :
  L < R ->
  interpolation_branch str_float i L R (Num vL) (Num vR)
  = Ok (Some {| missing_index := i;
                left_value := Num vL;
                right_value := Num vR;
                left_index := L;
                right_index := R;
                interpolated_value := cell (recorded_value vL vR i L R);
                calculation :=
                  calculation_text str_float (Num vL) (Num vR) i L R |}).
Proof.
  intros H. unfold interpolation_branch. rewrite py_truediv_ok by exact H.
  cbn [bind py_sub]. rewrite py_mul_cell. cbn [bind].
  rewrite py_add_cell. cbn [bind]. rewrite py_round2_cell. reflexivity.
Qed.

Lemma interpolation_branch_no_zero_division (i L R : nat) (cl cr : scalar) :
  L < R -> interpolation_branch str_float i L R cl cr <> Raise ZeroDivisionError.
Proof.
  intros H.
  destruct cl as [|x|s], cr as [|y|t];
    try (rewrite interpolation_branch_num by exact H; discriminate);
    unfold interpolation_branch; rewrite py_truediv_ok by exact H;
    cbn [bind py_sub py_mul py_add py_round2]; discriminate.
Qed.

Lemma interpolation_branch_str (i L R : nat) (cl cr : scalar) :
  L < R -> is_str cl || is_str cr = true ->
  interpolation_branch str_float i L R cl cr = Raise TypeError.
Proof.
  intros H Hs. unfold interpolation_branch. rewrite py_truediv_ok by exact H.
  destruct cl, cr; simpl in *; try discriminate; reflexivity.
Qed.

End Engine.

(** ** interpolate_numeric on a float64 column *)


Lemma index_where_combine (bs : list bool) (a : nat) :
  map fst (filter snd (combine (seq a (List.length bs)) bs))
  = filter (fun j => nth (j - a) bs false) (seq a (List.length bs)).
Proof.
  revert a. induction bs as [|b bs IH]; intros a; simpl; [reflexivity|].
  rewrite Nat.sub_diag. simpl.
  assert (E : filter (fun j => nth (j - a) (b :: bs) false) (seq (S a) (List.length bs))
              = filter (fun j => nth (j - S a) bs false) (seq (S a) (List.length bs))).
  { apply filter_ext_in. intros j Hj. apply in_seq in Hj.
    replace (j - a) with (S (j - S a)) by lia. reflexivity. }
  destruct b; simpl in *; rewrite E, IH; reflexivity.
Qed.

Lemma missing_indices_spec (series : Series) :
  index_where (isna series)
  = filter (is_gap series) (seq 0 (List.length series)).
Proof.
  unfold index_where, isna, labelled.
  rewrite index_where_combine, length_map.
  apply filter_ext_in. intros j Hj. apply in_seq in Hj.
  rewrite Nat.sub_0_r. unfold is_gap.
  destruct (nth_error series j) as [c|] eqn:E.
  - apply (nth_error_nth _ _ false).
    now rewrite nth_error_map, E.
  - apply nth_error_None in E. lia.
Qed.

Lemma numeric_column_nth (series : Series) (j : nat) (c : scalar) :
  numeric_column series -> nth_error series j = Some c -> is_str c = false.
Proof.
  unfold numeric_column, is_object_dtype. intros H Hc.
  destruct (is_str c) eqn:E; [|reflexivity].
  assert (existsb is_str series = true).
  { apply existsb_exists. exists c. split; [eapply nth_error_In; eauto | exact E]. }
  congruence.
Qed.

Lemma numeric_notnull (c : scalar) :
  is_str c = false -> notnull c = true -> exists v, c = Num v.
Proof. destruct c; simpl; try discriminate. eauto. Qed.

Section Numeric.

Variable str_float : float64 -> string.


Lemma interpolation_loop_ok (series : Series) (idxs : list nat)
    (acc : list InterpolationRecord) :
  (forall i, In i idxs -> exists o, calculate_interpolation str_float series i = Ok o) ->
  interpolation_loop str_float series idxs acc
  = Ok (acc ++ flat_map (record_at str_float series) idxs).
Proof.
  revert acc. induction idxs as [|i idxs IH]; intros acc H; simpl.
  - now rewrite app_nil_r.
  - destruct (H i (or_introl eq_refl)) as (o & Ho).
    unfold record_at at 1. rewrite Ho. simpl.
    rewrite IH by (intros j Hj; apply H; now right).
    destruct o; [now rewrite <- app_assoc | reflexivity].
Qed.

(** On a float64 column the call returns a record exactly when both masks
    hold somewhere, and the record is the one of the two neighbours. *)
Lemma calculate_interpolation_numeric (series : Series) (i : nat) :
  numeric_column series ->
  (any (firstn i (notna series)) && any (skipn i (notna series)) = false /\
   calculate_interpolation str_float series i = Ok None)
  \/
  (exists L R vL vR,
     index_last (index_where (firstn i (notna series))) = Ok L /\
     index_first (index_where (skipn i (notna series))) = Ok R /\
     nth_error series L = Some (Num vL) /\ nth_error series R = Some (Num vR) /\
     L < i /\ i <= R /\
     any (firstn i (notna series)) && any (skipn i (notna series)) = true /\
     calculate_interpolation str_float series i
     = Ok (Some {| missing_index := i;
                   left_value := Num vL;
                   right_value := Num vR;
                   left_index := L;
                   right_index := R;
                   interpolated_value := cell (recorded_value vL vR i L R);
                   calculation :=
                     calculation_text str_float (Num vL) (Num vR) i L R |})).
Proof.
  intros Hnum.
  destruct (calculate_interpolation_cases str_float series i)
    as [H | (L & R & cl & cr & HL & HR & Hcl & Hcr & Hnl & Hnr & HLi & HiR & Hcalc)].
  - now left.
  - right.
    destruct (numeric_notnull cl (numeric_column_nth _ _ _ Hnum Hcl) Hnl) as (vL & ->).
    destruct (numeric_notnull cr (numeric_column_nth _ _ _ Hnum Hcr) Hnr) as (vR & ->).
    exists L, R, vL, vR. repeat split; auto.
    + now rewrite (index_last_any _ _ HL), (index_first_any _ _ HR).
    + rewrite Hcalc. apply interpolation_branch_num. lia.
Qed.

Lemma interpolate_numeric_numeric (series : Series) :
  numeric_column series ->
  interpolate_numeric str_float series
  = Ok (map (fun p => interp_cell series (fst p) (snd p)) (labelled series),
        flat_map (record_at str_float series)
          (filter (is_gap series) (seq 0 (List.length series)))).
Proof.
  intros Hnum. unfold interpolate_numeric.
  rewrite interpolation_loop_ok.
  - simpl. unfold Series_interpolate. rewrite Hnum.
    now rewrite missing_indices_spec.
  - intros i _.
    destruct (calculate_interpolation_numeric series i Hnum)
      as [(_ & H) | (L & R & vL & vR & _ & _ & _ & _ & _ & _ & _ & H)]; eauto.
Qed.

End Numeric.

(** ** Interior gaps *)

Lemma existsb_firstn_iff (series : Series) (i : nat) :
  existsb notnull (firstn i series) = true <->
  exists j c, j < i /\ nth_error series j = Some c /\ notnull c = true.
Proof.
  rewrite existsb_exists. split.
  - intros (c & Hin & Hc). destruct (In_nth_error _ _ Hin) as (j & Hj).
    rewrite nth_error_firstn in Hj.
    destruct (Nat.ltb_spec j i); [|discriminate]. eauto.
  - intros (j & c & Hj & Hc & Hn). exists c. split; [|exact Hn].
    apply (nth_error_In _ j). rewrite nth_error_firstn.
    destruct (Nat.ltb_spec j i); [exact Hc | lia].
Qed.

Lemma existsb_skipn_iff (series : Series) (k : nat) :
  existsb notnull (skipn k series) = true <->
  exists j c, k <= j /\ nth_error series j = Some c /\ notnull c = true.
Proof.
  rewrite existsb_exists. split.
  - intros (c & Hin & Hc). destruct (In_nth_error _ _ Hin) as (j & Hj).
    rewrite nth_error_skipn in Hj. exists (k + j), c. repeat split; auto. lia.
  - intros (j & c & Hj & Hc & Hn). exists c. split; [|exact Hn].
    apply (nth_error_In _ (j - k)). rewrite nth_error_skipn.
    now replace (k + (j - k)) with j by lia.
Qed.

Lemma interior_gap_is_gap (series : Series) (i : nat) :
  interior_gap series i = true -> is_gap series i = true.
Proof.
  unfold interior_gap, is_gap.
  destruct (nth_error series i) as [[| |]|]; simpl; congruence.
Qed.

Lemma is_gap_iff (series : Series) (i : nat) :
  is_gap series i = true <-> gap_at series i.
Proof.
  unfold is_gap, gap_at.
  destruct (nth_error series i) as [[| |]|]; simpl; split; congruence.
Qed.

(** At a gap, the two masks of the code hold somewhere exactly when the gap
    has a non-absent value strictly before and strictly after it. *)
Lemma masks_interior_gap (series : Series) (i : nat) :
  gap_at series i ->
  any (firstn i (notna series)) && any (skipn i (notna series))
  = interior_gap series i.
Proof.
  intros Hgap. unfold interior_gap. rewrite Hgap.
  apply eq_true_iff_eq. rewrite !andb_true_iff.
  rewrite any_before_iff, any_after_iff, existsb_firstn_iff, existsb_skipn_iff.
  split; intros (Hb & j & c & Hj & Hc & Hn); (split; [exact Hb|]);
    exists j, c; repeat split; auto; try lia.
  destruct (Nat.eq_dec j i) as [->|]; [|lia].
  unfold gap_at in Hgap. rewrite Hgap in Hc. injection Hc as <-. discriminate.
Qed.

Section Records.

Variable str_float : float64 -> string.

Lemma record_at_index (series : Series) (i : nat) :
  numeric_column series -> gap_at series i ->
  map missing_index (record_at str_float series i)
  = if interior_gap series i then [i] else [].
Proof.
  intros Hnum Hgap. rewrite <- (masks_interior_gap _ _ Hgap). unfold record_at.
  destruct (calculate_interpolation_numeric str_float series i Hnum)
    as [(Hc & H) | (L & R & vL & vR & _ & _ & _ & _ & _ & _ & Hc & H)];
    rewrite H, Hc; reflexivity.
Qed.

Lemma records_indices (series : Series) (l : list nat) :
  numeric_column series ->
  map missing_index (flat_map (record_at str_float series) (filter (is_gap series) l))
  = filter (interior_gap series) l.
Proof.
  intros Hnum. induction l as [|i l IH]; simpl; [reflexivity|].
  destruct (is_gap series i) eqn:Hg; simpl.
  - rewrite map_app, IH, record_at_index by (auto; now apply is_gap_iff).
    now destruct (interior_gap series i).
  - destruct (interior_gap series i) eqn:Hi; [|exact IH].
    apply interior_gap_is_gap in Hi. congruence.
Qed.

End Records.

(** ** The values pandas' interpolation writes *)

Lemma before_cells_nth (series : Series) (i j : nat) (e : nat * scalar) :
  nth_error (firstn i (labelled series)) j = Some e <->
  j < i /\ exists c, nth_error series j = Some c /\ e = (j, c).
Proof.
  rewrite nth_error_firstn, nth_error_labelled.
  destruct (Nat.ltb_spec j i) as [Hlt|Hge].
  - destruct (nth_error series j) as [c|]; simpl; split.
    + intros [= <-]. eauto.
    + intros (_ & c' & [= <-] & ->). reflexivity.
    + discriminate.
    + intros (_ & c' & Hc & _). discriminate.
  - split; [discriminate | intros (Hlt & _); lia].
Qed.

Lemma after_cells_nth (series : Series) (i k : nat) (e : nat * scalar) :
  nth_error (skipn i (labelled series)) k = Some e <->
  exists c, nth_error series (i + k) = Some c /\ e = (i + k, c).
Proof.
  rewrite nth_error_skipn, nth_error_labelled.
  destruct (nth_error series (i + k)) as [c|]; simpl; split.
  - intros [= <-]. eauto.
  - intros (c' & [= <-] & ->). reflexivity.
  - discriminate.
  - intros (c' & Hc & _). discriminate.
Qed.

Lemma valid_before_intro (series : Series) (i L : nat) (c : scalar) :
  L < i -> nth_error series L = Some c -> notnull c = true ->
  (forall j c', L < j < i -> nth_error series j = Some c' -> notnull c' = false) ->
  valid_before series i = Some (L, c).
Proof.
  intros HL Hc Hn Hgap. unfold valid_before.
  apply (last_filter_intro _ _ L).
  - apply before_cells_nth. eauto.
  - exact Hn.
  - intros j [r c'] Hj Hy. apply before_cells_nth in Hy.
    destruct Hy as (Hji & c'' & Hc'' & [= -> ->]). simpl.
    apply (Hgap j); [lia | exact Hc''].
Qed.

Lemma valid_before_none (series : Series) (i : nat) :
  (forall j c, j < i -> nth_error series j = Some c -> notnull c = false) ->
  valid_before series i = None.
Proof.
  intros H. unfold valid_before.
  match goal with |- ?t = None => destruct t as [[k c]|] eqn:E end; [|reflexivity].
  apply last_filter_elim in E. destruct E as (j & Hj & Hp & _).
  apply before_cells_nth in Hj. destruct Hj as (Hji & c' & Hc' & [= -> ->]).
  simpl in Hp. rewrite (H j c' Hji Hc') in Hp. discriminate.
Qed.


Lemma valid_after_none (series : Series) (i : nat) :
  (forall j c, i <= j -> nth_error series j = Some c -> notnull c = false) ->
  valid_after series i = None.
Proof.
  intros H. unfold valid_after.
  match goal with |- ?t = None => destruct t as [[k c]|] eqn:E end; [|reflexivity].
  apply first_filter_elim in E. destruct E as (j & Hj & Hp & _).
  apply after_cells_nth in Hj. destruct Hj as (c' & Hc' & [= -> ->]).
  simpl in Hp. rewrite (H (i + j) c') in Hp; [discriminate | lia | exact Hc'].
Qed.

Lemma valid_after_elim (series : Series) (i r : nat) (c : scalar) :
  valid_after series i = Some (r, c) ->
  i <= r /\ nth_error series r = Some c /\ notnull c = true.
Proof.
  unfold valid_after. intros H. apply first_filter_elim in H.
  destruct H as (k & Hk & Hp & _). apply after_cells_nth in Hk.
  destruct Hk as (c' & Hc' & [= -> ->]). simpl in Hp.
  repeat split; auto. lia.
Qed.

Lemma nth_error_interpolated (series : Series) (i : nat) :
  nth_error (map (fun p => interp_cell series (fst p) (snd p)) (labelled series)) i
  = option_map (interp_cell series i) (nth_error series i).
Proof.
  rewrite nth_error_map, nth_error_labelled.
  now destruct (nth_error series i).
Qed.

(** * The claims *)

Section Claims.

Variable str_float : float64 -> string.

Lemma nearest_left_idx (series : Series) (i L : nat) (c : scalar) :
  nearest_left series i L c ->
  index_last (index_where (firstn i (notna series))) = Ok L.
Proof.
  intros (HL & Hc & Hn & Hgap). apply (left_idx_intro _ _ _ c); auto.
  - destruct c; [congruence | reflexivity | reflexivity].
  - intros j c' Hj Hc'. rewrite (Hgap j Hj) in Hc'. now injection Hc' as <-.
Qed.

Lemma nearest_right_idx (series : Series) (i R : nat) (c : scalar) :
  gap_at series i -> nearest_right series i R c ->
  index_first (index_where (skipn i (notna series))) = Ok R.
Proof.
  intros Hi (HR & Hc & Hn & Hgap). apply (right_idx_intro _ _ _ c); auto.
  - lia.
  - destruct c; [congruence | reflexivity | reflexivity].
  - intros j c' Hj Hc'.
    destruct (Nat.eq_dec j i) as [->|Hne].
    + unfold gap_at in Hi. rewrite Hi in Hc'. now injection Hc' as <-.
    + rewrite (Hgap j) in Hc' by lia. now injection Hc' as <-.
Qed.


(** C6. At a gap [i] where both masks hold somewhere, the neighbours the
    code selects satisfy [L < i < R], so the divisor is not zero and the
    division returns; no call raises [ZeroDivisionError]. *)
Theorem C6_divisor_nonzero :
  (forall (series : Series) (i : nat),
     gap_at series i ->
     any (firstn i (notna series)) && any (skipn i (notna series)) = true ->
     exists L R,
       index_last (index_where (firstn i (notna series))) = Ok L /\
       index_first (index_where (skipn i (notna series))) = Ok R /\
       L < i < R /\
       (Z.of_nat R - Z.of_nat L <> 0)%Z /\
       exists ratio,
         py_truediv (Z.of_nat i - Z.of_nat L) (Z.of_nat R - Z.of_nat L) = Ok ratio)
  /\
  (forall (series : Series) (i : nat),
     calculate_interpolation str_float series i <> Raise ZeroDivisionError).
Proof.
  split.
  - intros series i Hi Hmasks.
    apply andb_true_iff in Hmasks. destruct Hmasks as (Hb & Ha).
    destruct (any_index_last _ Hb) as (L & HL).
    destruct (any_index_first _ Ha) as (R & HR).
    destruct (left_idx_elim _ _ _ HL) as (HLi & _).
    destruct (right_idx_elim _ _ _ HR) as (HRi & c & Hc & Hn & _).
    assert (R <> i).
    { intros ->. unfold gap_at in Hi. rewrite Hi in Hc.
      injection Hc as <-. discriminate. }
    exists L, R. repeat split; auto; try lia.
    eexists. apply py_truediv_ok. lia.
  - intros series i.
    destruct (calculate_interpolation_cases str_float series i)
      as [(_ & H) | (L & R & cl & cr & _ & _ & _ & _ & _ & _ & HLi & HiR & H)];
      rewrite H; [discriminate|].
    apply interpolation_branch_no_zero_division. lia.
Qed.

Lemma finite_column_nth (series : Series) (j : nat) (x : float64) :
  finite_column series -> nth_error series j = Some (Num x) -> is_finite x = true.
Proof.
  unfold finite_column. intros H Hx. apply nth_error_In in Hx.
  rewrite forallb_forall in H. exact (H _ Hx).
Qed.




Lemma none_before_not_interior (series : Series) (i : nat) :
  none_before series i -> interior_gap series i = false.
Proof.
  intros H. unfold interior_gap.
  destruct (nth_error series i) as [[| |]|]; try reflexivity.
  destruct (existsb notnull (firstn i series)) eqn:E; [|reflexivity].
  apply existsb_firstn_iff in E. destruct E as (j & c & Hj & Hc & Hn).
  rewrite (H j Hj) in Hc. injection Hc as <-. discriminate.
Qed.

Lemma none_after_not_interior (series : Series) (i : nat) :
  none_after series i -> interior_gap series i = false.
Proof.
  intros H. unfold interior_gap.
  destruct (nth_error series i) as [[| |]|]; try reflexivity.
  destruct (existsb notnull (skipn (S i) series)) eqn:E;
    [|now rewrite andb_false_r].
  apply existsb_skipn_iff in E. destruct E as (j & c & Hj & Hc & Hn).
  rewrite (H j c Hj Hc) in Hn. discriminate.
Qed.

(** C10. On a float64 column, a gap with no non-absent value before it stays
    absent in the repaired column, a gap with an earlier non-absent value but
    none after it takes the nearest earlier value, and neither gets a
    record. *)
Theorem C10_boundary_gaps (series : Series) :
  numeric_column series ->
  exists out recs,
    interpolate_numeric str_float series = Ok (out, recs) /\
    (forall i, gap_at series i -> none_before series i ->
       nth_error out i = Some NaN /\ ~ In i (map missing_index recs)) /\
    (forall i L v, gap_at series i -> nearest_left series i L (Num v) ->
       none_after series i ->
       nth_error out i = Some (Num v) /\ ~ In i (map missing_index recs)).
Proof.
  intros Hnum. do 2 eexists.
  split; [apply interpolate_numeric_numeric; exact Hnum|].
  rewrite (records_indices str_float series _ Hnum).
  split.
  - intros i Hi Hnone. split.
    + rewrite nth_error_interpolated. unfold gap_at in Hi. rewrite Hi. simpl.
      unfold interp_cell. rewrite valid_before_none; [reflexivity|].
      intros j c Hj Hc. rewrite (Hnone j Hj) in Hc. now injection Hc as <-.
    + intros Hin. apply filter_In in Hin. destruct Hin as (_ & Hin).
      rewrite none_before_not_interior in Hin by exact Hnone. discriminate.
  - intros i L v Hi (HL & Hc & _ & Hgap) Hnone. split.
    + rewrite nth_error_interpolated. unfold gap_at in Hi. rewrite Hi. simpl.
      unfold interp_cell.
      rewrite (valid_before_intro _ _ L (Num v)); auto.
      * rewrite valid_after_none; [reflexivity|].
        intros j c Hj Hcj. destruct (Nat.eq_dec j i) as [->|Hne].
        -- rewrite Hi in Hcj. now injection Hcj as <-.
        -- rewrite (Hnone j c) by (lia || assumption). reflexivity.
      * intros j c' Hj Hc'. rewrite (Hgap j Hj) in Hc'. now injection Hc' as <-.
    + intros Hin. apply filter_In in Hin. destruct Hin as (_ & Hin).
      rewrite none_after_not_interior in Hin by exact Hnone. discriminate.
Qed.

End Claims.

(** ** The order and the equality [Series.mode] works with *)

Lemma string_leb_trans (a b c : string) :
  String.leb a b = true -> String.leb b c = true -> String.leb a c = true.
Proof.
  unfold String.leb.
  destruct (String.compare a b) eqn:E1; [| |discriminate];
    destruct (String.compare b c) eqn:E2; try discriminate; intros _ _.
  - apply String_as_OT.cmp_eq in E1, E2. subst.
    pose proof (proj2 (String_as_OT.cmp_eq c c) eq_refl) as H.
    unfold String_as_OT.cmp in H. now rewrite H.
  - apply String_as_OT.cmp_eq in E1. subst. now rewrite E2.
  - apply String_as_OT.cmp_eq in E2. subst. now rewrite E1.
  - apply String_as_OT.cmp_lt in E1, E2.
    pose proof (String_as_OT.lt_trans _ _ _ E1 E2) as H.
    apply String_as_OT.cmp_lt in H. unfold String_as_OT.cmp in H. now rewrite H.
Qed.

Lemma string_leb_refl (a : string) : String.leb a a = true.
Proof. destruct (String.leb_total a a); assumption. Qed.

Lemma scalar_leb_total (a b : scalar) :
  scalar_leb a b = true \/ scalar_leb b a = true.
Proof.
  destruct a as [|x|s], b as [|y|t]; simpl; auto.
  - apply float_leb_total.
  - apply String.leb_total.
Qed.

Lemma scalar_leb_trans (a b c : scalar) :
  scalar_leb a b = true -> scalar_leb b c = true -> scalar_leb a c = true.
Proof.
  destruct a as [|x|s], b as [|y|t], c as [|z|u]; simpl; try congruence.
  - apply float_leb_trans.
  - apply string_leb_trans.
Qed.

Lemma scalar_eqb_refl (a : scalar) : scalar_eqb a a = true.
Proof.
  destruct a; simpl; [reflexivity | apply float_eqb_refl | apply String.eqb_refl].
Qed.

Lemma scalar_eqb_sym (a b : scalar) : scalar_eqb a b = scalar_eqb b a.
Proof.
  destruct a as [|x|s], b as [|y|t]; simpl; try reflexivity.
  - apply float_eqb_sym.
  - apply String.eqb_sym.
Qed.

Lemma scalar_eqb_trans (a b c : scalar) :
  scalar_eqb a b = true -> scalar_eqb b c = true -> scalar_eqb a c = true.
Proof.
  destruct a as [|x|s], b as [|y|t], c as [|z|u]; simpl; try congruence.
  - apply float_eqb_trans.
  - rewrite !String.eqb_eq. congruence.
Qed.

Lemma scalar_eqb_leb (a b : scalar) :
  scalar_eqb a b = true -> scalar_leb a b = true.
Proof.
  destruct a as [|x|s], b as [|y|t]; simpl; try congruence.
  - apply float_eqb_leb.
  - rewrite String.eqb_eq. intros ->. apply string_leb_refl.
Qed.

Lemma scalar_eqb_ext (u v w : scalar) :
  scalar_eqb u v = true -> scalar_eqb u w = scalar_eqb v w.
Proof.
  intros H. apply eq_true_iff_eq. split; intros H'.
  - apply (scalar_eqb_trans v u w); [now rewrite scalar_eqb_sym | exact H'].
  - apply (scalar_eqb_trans u v w); assumption.
Qed.

Lemma value_count_eqb (u v : scalar) (vals : list scalar) :
  scalar_eqb u v = true -> value_count u vals = value_count v vals.
Proof.
  intros H. unfold value_count. f_equal.
  apply filter_ext. intros w. now apply scalar_eqb_ext.
Qed.

(** ** Series.mode *)

Lemma unique_incl (vals : list scalar) (u : scalar) :
  In u (unique vals) -> In u vals.
Proof.
  induction vals as [|v rest IH]; simpl; [tauto|].
  intros [->|H]; [now left|]. apply filter_In in H. right. tauto.
Qed.

Lemma unique_repr (vals : list scalar) (v : scalar) :
  In v vals -> exists u, In u (unique vals) /\ scalar_eqb u v = true.
Proof.
  induction vals as [|w rest IH]; simpl; [tauto|].
  intros [->|H].
  - exists v. split; [now left | apply scalar_eqb_refl].
  - destruct (IH H) as (u & Hu & E).
    destruct (scalar_eqb w u) eqn:Ewu.
    + exists w. split; [now left|]. now apply (scalar_eqb_trans w u v).
    + exists u. split; [|exact E]. right. apply filter_In. now rewrite Ewu.
Qed.

Lemma fold_max_ge (f : scalar -> nat) (l : list scalar) (v : scalar) :
  In v l -> f v <= fold_right (fun w m => Nat.max (f w) m) 0 l.
Proof.
  induction l as [|w l IH]; simpl; [tauto|].
  intros [->|H]; [lia|]. specialize (IH H). lia.
Qed.

Lemma fold_max_attained (f : scalar -> nat) (l : list scalar) :
  l <> [] -> exists v, In v l /\ f v = fold_right (fun w m => Nat.max (f w) m) 0 l.
Proof.
  induction l as [|w l IH]; [congruence|]. intros _. simpl.
  destruct l as [|w' l'].
  - exists w. split; [now left | simpl; lia].
  - destruct IH as (v & Hv & E); [discriminate|].
    destruct (Nat.le_gt_cases (fold_right (fun w m => Nat.max (f w) m) 0 (w' :: l')) (f w)).
    + exists w. split; [now left | lia].
    + exists v. split; [now right | lia].
Qed.

Lemma insert_sorted_In (v x : scalar) (l : list scalar) :
  In x (insert_sorted v l) <-> x = v \/ In x l.
Proof.
  induction l as [|w l IH]; simpl.
  - intuition.
  - destruct (scalar_leb v w); simpl; rewrite ?IH; intuition.
Qed.

Lemma sort_values_In (x : scalar) (l : list scalar) :
  In x (sort_values l) <-> In x l.
Proof.
  induction l as [|w l IH]; simpl; [tauto|].
  rewrite insert_sorted_In, IH. intuition.
Qed.


Lemma insert_sorted_head (v : scalar) (l : list scalar) :
  head_least l -> head_least (insert_sorted v l).
Proof.
  destruct l as [|w l]; simpl.
  - intros _ x [->|[]]. apply scalar_eqb_leb, scalar_eqb_refl.
  - intros H. destruct (scalar_leb v w) eqn:E; simpl.
    + intros x [->|Hx].
      * apply scalar_eqb_leb, scalar_eqb_refl.
      * apply (scalar_leb_trans v w x); [exact E | now apply H].
    + intros x [->|Hx].
      * apply H. now left.
      * apply insert_sorted_In in Hx. destruct Hx as [->|Hx].
        -- destruct (scalar_leb_total w v); congruence.
        -- apply H. now right.
Qed.

Lemma sort_values_head (l : list scalar) : head_least (sort_values l).
Proof.
  induction l as [|w l IH]; simpl; [exact I|]. now apply insert_sorted_head.
Qed.


Lemma Series_mode_nil (series : Series) :
  dropna series = [] -> Series_mode series = [].
Proof. intros H. unfold Series_mode. now rewrite H. Qed.

Lemma Series_mode_head (series : Series) :
  dropna series <> [] ->
  exists m rest,
    Series_mode series = m :: rest /\
    In m (dropna series) /\
    (forall v, In v (dropna series) ->
       value_count v (dropna series) <= value_count m (dropna series)) /\
    (forall v, In v (dropna series) ->
       value_count v (dropna series) = value_count m (dropna series) ->
       scalar_leb m v = true).
Proof.
  intros Hne. unfold Series_mode. cbv zeta.
  set (vals := dropna series) in *.
  set (cand := filter (fun v => value_count v vals =? max_count vals) (unique vals)).
  assert (Hcand : forall v, In v vals -> value_count v vals = max_count vals ->
            exists u, In u cand /\ scalar_eqb u v = true).
  { intros v Hv Hc. destruct (unique_repr vals v Hv) as (u & Hu & E).
    exists u. split; [|exact E]. apply filter_In. split; [exact Hu|].
    apply Nat.eqb_eq. now rewrite (value_count_eqb u v vals E). }
  destruct (fold_max_attained (fun v => value_count v vals) vals Hne) as (v0 & Hv0 & E0).
  destruct (Hcand v0 Hv0 E0) as (u0 & Hu0 & _).
  pose proof (sort_values_head cand) as Hhead.
  destruct (sort_values cand) as [|m rest] eqn:Es.
  { apply sort_values_In in Hu0. rewrite Es in Hu0. contradiction. }
  assert (Hm : In m cand) by (apply sort_values_In; rewrite Es; now left).
  apply filter_In in Hm. destruct Hm as (Hmu & Hmc). apply Nat.eqb_eq in Hmc.
  exists m, rest. split; [reflexivity|]. split; [now apply unique_incl|]. split.
  - intros v Hv. rewrite Hmc.
    apply (fold_max_ge (fun w => value_count w vals) vals v Hv).
  - intros v Hv Hc. destruct (Hcand v Hv) as (u & Hu & E); [congruence|].
    apply (scalar_leb_trans m u v); [|now apply scalar_eqb_leb].
    apply Hhead. rewrite <- Es. now apply sort_values_In.
Qed.

Lemma nth_error_fillna (value : scalar) (series : Series) (i : nat) :
  nth_error (fillna value series) i
  = option_map (fun c => if isnull c then value else c) (nth_error series i).
Proof. unfold fillna. now rewrite nth_error_map. Qed.

(** C3, as the specification words it, fails: in the column [b, a, absent]
    both values occur once, [b] is met first, and the code fills with [a]. *)
Lemma C3_tie_break_counterexample :
  first_encountered_mode [Str "b"; Str "a"; NaN] = Some (Str "b") /\
  fill_categorical [Str "b"; Str "a"; NaN] = [Str "b"; Str "a"; Str "a"] /\
  fill_categorical [Str "b"; Str "a"; NaN]
  <> fill_first_encountered [Str "b"; Str "a"; NaN].
Proof. repeat split; try reflexivity. vm_compute. discriminate. Qed.

(** C3, amended. [fill_categorical] keeps the length and every non-absent
    entry.  In a column with a non-absent value every absent entry becomes one
    value [m] of the column that is most frequent and, among the most frequent
    values, least in the sort order of [Series.mode]; in a column without
    non-absent values every entry becomes ["Unknown"]. *)
Theorem C3_fill_categorical (series : Series) :
  List.length (fill_categorical series) = List.length series /\
  (forall i c, nth_error series i = Some c -> c <> NaN ->
     nth_error (fill_categorical series) i = Some c) /\
  (dropna series = [] ->
     fill_categorical series = repeat (Str "Unknown") (List.length series)) /\
  (dropna series <> [] ->
     exists m,
       In m (dropna series) /\
       (forall v, In v (dropna series) ->
          value_count v (dropna series) <= value_count m (dropna series)) /\
       (forall v, In v (dropna series) ->
          value_count v (dropna series) = value_count m (dropna series) ->
          scalar_leb m v = true) /\
       forall i, gap_at series i ->
         nth_error (fill_categorical series) i = Some m).
Proof.
  assert (Hform : exists value, fill_categorical series = fillna value series).
  { unfold fill_categorical. destruct (Series_mode series); eauto. }
  destruct Hform as (value & Hform).
  split; [|split; [|split]].
  - rewrite Hform. apply length_map.
  - intros i c Hc Hn. rewrite Hform, nth_error_fillna, Hc. simpl.
    destruct c; [congruence | reflexivity | reflexivity].
  - intros Hnil. unfold fill_categorical. rewrite (Series_mode_nil _ Hnil).
    clear Hform. induction series as [|c series IH]; [reflexivity|].
    simpl in Hnil. destruct c; simpl in *; try discriminate.
    f_equal. now apply IH.
  - intros Hne. destruct (Series_mode_head series Hne) as (m & rest & Hmode & Hin & Hmax & Htie).
    exists m. repeat split; auto.
    intros i Hi. unfold fill_categorical. rewrite Hmode, nth_error_fillna.
    unfold gap_at in Hi. now rewrite Hi.
Qed.

(** ** The loop of handle_missing_values, column by column *)


Section Coordinator.

Variable str_float : float64 -> string.


Lemma merge_reports_assoc (a b c : MissingReport) :
  merge_reports (merge_reports a b) c = merge_reports a (merge_reports b c).
Proof.
  unfold merge_reports. simpl. now rewrite !Nat.add_assoc, <- !app_assoc.
Qed.

Lemma merge_reports_empty_r (a : MissingReport) :
  merge_reports a empty_missing_report = a.
Proof.
  destruct a. unfold merge_reports. simpl.
  now rewrite !Nat.add_0_r, !app_nil_r.
Qed.

Lemma merge_reports_empty_l (a : MissingReport) :
  merge_reports empty_missing_report a = a.
Proof. now destruct a. Qed.

Lemma df_get_app (pre rest : DataFrame) (c : string) (s : Series) :
  ~ In c (columns pre) -> df_get (pre ++ (c, s) :: rest) c = Ok s.
Proof.
  induction pre as [|[c0 s0] pre IH]; simpl; intros H.
  - now rewrite String.eqb_refl.
  - destruct (String.eqb_spec c0 c) as [->|_]; [tauto|]. apply IH. tauto.
Qed.

Lemma df_set_app (pre rest : DataFrame) (c : string) (s s' : Series) :
  ~ In c (columns pre) ->
  df_set (pre ++ (c, s) :: rest) c s' = pre ++ (c, s') :: rest.
Proof.
  induction pre as [|[c0 s0] pre IH]; simpl; intros H.
  - now rewrite String.eqb_refl.
  - destruct (String.eqb_spec c0 c) as [->|_]; [tauto|]. rewrite IH; tauto.
Qed.

Lemma dict_get_classify (cols : list string) (c : string) :
  In c cols ->
  dict_get (map (fun column => (column, classify column)) cols) c = Ok (classify c).
Proof.
  induction cols as [|k cols IH]; simpl; [tauto|]. intros H.
  destruct (String.eqb_spec k c) as [->|Hne]; [reflexivity|].
  apply IH. destruct H; congruence.
Qed.

Lemma handle_column_spec (data_types : list (string * ColumnKind))
    (pre rest : DataFrame) (report : MissingReport) (c : string) (s : Series) :
  ~ In c (columns pre) ->
  dict_get data_types c = Ok (classify c) ->
  handle_column str_float data_types (pre ++ (c, s) :: rest, report) c
  = (r <- repair_column str_float c s ;;
     Ok (pre ++ (c, fst r) :: rest, merge_reports report (snd r))).
Proof.
  intros Hpre Hdict. unfold handle_column, repair_column.
  rewrite df_get_app by exact Hpre. simpl.
  destruct (0 <? isna_sum s).
  - rewrite Hdict. simpl. destruct (classify c).
    + destruct (interpolate_numeric str_float s) as [[s' recs]|e]; simpl; [|reflexivity].
      rewrite df_set_app by exact Hpre. unfold merge_reports. simpl.
      now rewrite Nat.add_0_r.
    + rewrite df_set_app by exact Hpre. unfold merge_reports. simpl.
      now rewrite Nat.add_0_r, app_nil_r.
    + unfold merge_reports. simpl. now rewrite !Nat.add_0_r, app_nil_r.
  - simpl. now rewrite merge_reports_empty_r.
Qed.

Lemma for_columns_spec (data_types : list (string * ColumnKind))
    (rest pre : DataFrame) (report : MissingReport) :
  NoDup (columns rest) ->
  (forall c, In c (columns rest) -> ~ In c (columns pre)) ->
  (forall c, In c (columns rest) -> dict_get data_types c = Ok (classify c)) ->
  for_columns str_float data_types (columns rest) (pre ++ rest, report)
  = (rs <- repair_columns str_float rest ;;
     Ok (pre ++ fst rs, merge_reports report (snd rs))).
Proof.
  revert pre report. induction rest as [|[c s] rest IH]; intros pre report Hnd Hpre Hdict.
  - simpl. now rewrite merge_reports_empty_r.
  - simpl in Hnd. inversion Hnd as [|? ? Hc Hnd']; subst.
    cbn [columns map fst for_columns repair_columns].
    rewrite handle_column_spec; [| apply Hpre; now left | apply Hdict; now left].
    destruct (repair_column str_float c s) as [[s' r]|e]; simpl; [|reflexivity].
    change (pre ++ (c, s') :: rest) with (pre ++ [(c, s')] ++ rest).
    rewrite app_assoc. fold (columns rest). rewrite IH.
    + destruct (repair_columns str_float rest) as [[out rs]|e]; simpl; [|reflexivity].
      now rewrite <- app_assoc, merge_reports_assoc.
    + exact Hnd'.
    + intros c' Hc' Hin. unfold columns in Hin. rewrite map_app in Hin.
      apply in_app_or in Hin. destruct Hin as [Hin|[<-|[]]].
      * apply (Hpre c'); [now right | exact Hin].
      * exact (Hc Hc').
    + intros c' Hc'. apply Hdict. now right.
Qed.

(** With pairwise distinct column names, the loop repairs every column on
    its own and concatenates the contributions to the report. *)
Lemma handle_missing_values_spec (df : DataFrame) :
  NoDup (columns df) ->
  handle_missing_values str_float df = repair_columns str_float df.
Proof.
  intros Hnd. unfold handle_missing_values.
  rewrite (for_columns_spec _ df [] empty_missing_report Hnd).
  - destruct (repair_columns str_float df) as [[out rs]|e]; simpl; [|reflexivity].
    now rewrite merge_reports_empty_l.
  - intros c _ [].
  - intros c Hc. now apply dict_get_classify.
Qed.

End Coordinator.

(** ** What each column contributes *)

Section Contributions.

Variable str_float : float64 -> string.

Lemma repair_column_report (c : string) (s s' : Series) (r : MissingReport) :
  repair_column str_float c s = Ok (s', r) ->
  numeric_fields_missing r
  = (if kind_eqb (classify c) Numeric then isna_sum s else 0) /\
  categorical_fields_missing r
  = (if kind_eqb (classify c) Categorical then isna_sum s else 0) /\
  columns_with_missing r = (if 0 <? isna_sum s then [c] else []) /\
  (forall d, In d (interpolation_details r) -> column d = c).
Proof.
  unfold repair_column. destruct (Nat.ltb_spec 0 (isna_sum s)) as [Hpos|Hzero].
  - destruct (classify c); simpl.
    + destruct (interpolate_numeric str_float s) as [[s1 recs]|e]; simpl; [|discriminate].
      intros [= <- <-]. simpl. repeat split; auto.
      intros d Hd. apply in_map_iff in Hd. now destruct Hd as (x & <- & _).
    + intros [= <- <-]. simpl. repeat split; auto. contradiction.
    + intros [= <- <-]. simpl. repeat split; auto. contradiction.
  - intros [= <- <-]. simpl. assert (E : isna_sum s = 0) by lia. rewrite E.
    repeat split; auto; try contradiction; now destruct (kind_eqb _ _).
Qed.

Lemma repair_column_no_gap (c : string) (s : Series) :
  isna_sum s = 0 -> repair_column str_float c s = Ok (s, empty_missing_report).
Proof. intros H. unfold repair_column. now rewrite H. Qed.

Lemma repair_column_identifier (c : string) (s : Series) :
  classify c = Identifier -> 0 < isna_sum s ->
  repair_column str_float c s
  = Ok (s, {| numeric_fields_missing := 0;
              categorical_fields_missing := 0;
              columns_with_missing := [c];
              interpolation_details := [] |}).
Proof.
  intros Hk Hpos. unfold repair_column. rewrite Hk.
  destruct (Nat.ltb_spec 0 (isna_sum s)); [reflexivity | lia].
Qed.

Lemma repair_columns_cons (c : string) (s : Series) (rest out : DataFrame)
    (rep : MissingReport) :
  repair_columns str_float ((c, s) :: rest) = Ok (out, rep) ->
  exists s' r out' rs,
    repair_column str_float c s = Ok (s', r) /\
    repair_columns str_float rest = Ok (out', rs) /\
    out = (c, s') :: out' /\ rep = merge_reports r rs.
Proof.
  simpl. destruct (repair_column str_float c s) as [[s' r]|e]; simpl; [|discriminate].
  destruct (repair_columns str_float rest) as [[out' rs]|e]; simpl; [|discriminate].
  intros [= <- <-]. exists s', r, out', rs. auto.
Qed.

Lemma repair_columns_report (df out : DataFrame) (rep : MissingReport) :
  repair_columns str_float df = Ok (out, rep) ->
  columns out = columns df /\
  numeric_fields_missing rep = gaps_of_kind Numeric df /\
  categorical_fields_missing rep = gaps_of_kind Categorical df /\
  columns_with_missing rep
  = map fst (filter (fun p => 0 <? isna_sum (snd p)) df) /\
  (forall d, In d (interpolation_details rep) -> In (column d) (columns df)).
Proof.
  revert out rep. induction df as [|[c s] rest IH]; intros out rep H.
  - simpl in H. injection H as <- <-. simpl. repeat split; auto.
  - apply repair_columns_cons in H.
    destruct H as (s' & r & out' & rs & Hr & Hrs & -> & ->).
    destruct (IH _ _ Hrs) as (Hcols & Hnum & Hcat & Hmiss & Hdet).
    destruct (repair_column_report _ _ _ _ Hr) as (Rnum & Rcat & Rmiss & Rdet).
    unfold gaps_of_kind in *. simpl. repeat split.
    + now rewrite Hcols.
    + now rewrite Rnum, Hnum.
    + now rewrite Rcat, Hcat.
    + rewrite Rmiss, Hmiss. now destruct (0 <? isna_sum s).
    + intros d Hd. apply in_app_or in Hd. destruct Hd as [Hd|Hd].
      * left. symmetry. now apply Rdet.
      * right. now apply Hdet.
Qed.

Lemma drop_column_absent (c : string) (df : DataFrame) :
  ~ In c (columns df) -> drop_column c df = df.
Proof.
  induction df as [|[c0 s0] df IH]; simpl; [reflexivity|]. intros H.
  destruct (String.eqb_spec c0 c) as [->|_]; [tauto|]. simpl.
  rewrite IH; tauto.
Qed.

Lemma columns_drop_column (c : string) (df : DataFrame) :
  columns (drop_column c df) = filter (fun k => negb (k =? c)%string) (columns df).
Proof.
  induction df as [|[c0 s0] df IH]; simpl; [reflexivity|].
  destruct (c0 =? c)%string; simpl; now rewrite IH.
Qed.

Lemma NoDup_drop_column (c : string) (df : DataFrame) :
  NoDup (columns df) -> NoDup (columns (drop_column c df)).
Proof. intros H. rewrite columns_drop_column. now apply NoDup_filter. Qed.

Lemma In_columns (c : string) (s : Series) (df : DataFrame) :
  In (c, s) df -> In c (columns df).
Proof. intros H. apply (in_map fst) in H. exact H. Qed.

Lemma column_unique (df : DataFrame) (c : string) (s s' : Series) :
  NoDup (columns df) -> In (c, s) df -> In (c, s') df -> s = s'.
Proof.
  induction df as [|[c0 s0] df IH]; [contradiction|]. intros Hnd Hin Hin'.
  simpl in Hnd. inversion Hnd as [|? ? Hc0 Hnd']; subst.
  destruct Hin as [E|Hin], Hin' as [E'|Hin'].
  - congruence.
  - injection E as -> ->. exfalso. apply Hc0. eapply In_columns; eauto.
  - injection E' as -> ->. exfalso. apply Hc0. eapply In_columns; eauto.
  - now apply IH.
Qed.

(** Taking a column out of the table takes its contribution out of the
    report and leaves the other columns' repairs as they are. *)
Lemma repair_columns_drop (df out : DataFrame) (rep : MissingReport)
    (c : string) (s : Series) :
  NoDup (columns df) -> In (c, s) df ->
  repair_columns str_float df = Ok (out, rep) ->
  exists s' r rep',
    repair_column str_float c s = Ok (s', r) /\
    df_get out c = Ok s' /\
    repair_columns str_float (drop_column c df) = Ok (drop_column c out, rep') /\
    numeric_fields_missing rep
    = numeric_fields_missing r + numeric_fields_missing rep' /\
    categorical_fields_missing rep
    = categorical_fields_missing r + categorical_fields_missing rep' /\
    (interpolation_details r = [] ->
       interpolation_details rep' = interpolation_details rep) /\
    (columns_with_missing r = [] ->
       columns_with_missing rep' = columns_with_missing rep).
Proof.
  revert out rep. induction df as [|[c0 s0] rest IH]; intros out rep Hnd Hin H;
    [contradiction|].
  simpl in Hnd. inversion Hnd as [|? ? Hc0 Hnd']; subst.
  apply repair_columns_cons in H.
  destruct H as (s0' & r0 & out' & rs & Hr0 & Hrs & -> & ->).
  destruct (repair_columns_report _ _ _ Hrs) as (Hcols & _).
  destruct Hin as [[= -> ->]|Hin].
  - exists s0', r0, rs. simpl. rewrite String.eqb_refl. simpl.
    rewrite !drop_column_absent by (rewrite ?Hcols; exact Hc0).
    repeat split; auto; intros E; now rewrite E.
  - assert (Hne : c0 <> c).
    { intros ->. apply Hc0. eapply In_columns; eauto. }
    destruct (IH _ _ Hnd' Hin Hrs) as (s' & r & rep' & Hr & Hget & Hdrop & Hn & Hc & Hd & Hm).
    exists s', r, (merge_reports r0 rep'). simpl.
    destruct (String.eqb_spec c0 c) as [E|_]; [contradiction|]. simpl.
    rewrite Hr0, Hdrop. simpl. repeat split; auto; try lia.
    + intros E. now rewrite (Hd E).
    + intros E. now rewrite (Hm E).
Qed.

End Contributions.

(** ** Columns that cannot make the repair raise *)

Lemma flat_map_nil {A B : Type} (f : A -> list B) (l : list A) :
  (forall x, In x l -> f x = []) -> flat_map f l = [].
Proof.
  induction l as [|x l IH]; simpl; intros H; [reflexivity|].
  rewrite (H x) by now left. apply IH. intros y Hy. apply H. now right.
Qed.

Lemma short_column (series : Series) :
  List.length series <= 1 -> numeric_column series \/ isna_sum series = 0.
Proof.
  destruct series as [|c [|c' rest]]; simpl; intros H; [now right | | lia].
  destruct c; [left | left | right]; reflexivity.
Qed.

Lemma all_absent_nth (n i : nat) (c : scalar) :
  nth_error (repeat NaN n) i = Some c -> c = NaN.
Proof. intros H. apply nth_error_In, repeat_spec in H. exact H. Qed.

Lemma all_absent_no_interior (n i : nat) :
  interior_gap (repeat NaN n) i = false.
Proof.
  apply none_after_not_interior. intros j c _ Hc. now apply all_absent_nth in Hc.
Qed.

Lemma all_absent_numeric (n : nat) : numeric_column (repeat NaN n).
Proof.
  unfold numeric_column, is_object_dtype.
  induction n as [|n IH]; simpl; [reflexivity | exact IH].
Qed.

Lemma all_absent_interpolate (n : nat) :
  Series_interpolate (repeat NaN n) = repeat NaN n.
Proof.
  unfold Series_interpolate. rewrite all_absent_numeric.
  apply nth_error_ext. intros i. rewrite nth_error_interpolated.
  destruct (nth_error (repeat NaN n) i) as [c|] eqn:E; [|reflexivity].
  apply all_absent_nth in E. subst c. simpl.
  rewrite valid_before_none; [reflexivity|].
  intros j c _ Hc. apply all_absent_nth in Hc. now subst c.
Qed.

Section Safe.

Variable str_float : float64 -> string.

Lemma interpolate_numeric_no_interior (series : Series) :
  (forall i, interior_gap series i = false) ->
  interpolate_numeric str_float series = Ok (Series_interpolate series, []).
Proof.
  intros Hno.
  assert (Hcalc : forall i, In i (index_where (isna series)) ->
            calculate_interpolation str_float series i = Ok None).
  { intros i Hi. rewrite missing_indices_spec in Hi.
    apply filter_In in Hi. destruct Hi as (_ & Hi). apply is_gap_iff in Hi.
    apply calculate_interpolation_none.
    now rewrite (masks_interior_gap _ _ Hi). }
  unfold interpolate_numeric. rewrite interpolation_loop_ok.
  - simpl. rewrite flat_map_nil; [reflexivity|].
    intros i Hi. unfold record_at. now rewrite (Hcalc i Hi).
  - intros i Hi. rewrite (Hcalc i Hi). eauto.
Qed.

Lemma repair_column_ok (c : string) (s : Series) :
  (classify c = Numeric -> numeric_column s \/ isna_sum s = 0) ->
  exists s' r, repair_column str_float c s = Ok (s', r).
Proof.
  intros H. unfold repair_column.
  destruct (Nat.ltb_spec 0 (isna_sum s)) as [Hpos|Hzero]; [|eauto].
  destruct (classify c); eauto.
  destruct (H eq_refl) as [Hnum|Hno]; [|lia].
  rewrite (interpolate_numeric_numeric str_float s Hnum). simpl. eauto.
Qed.

Lemma repair_columns_ok (df : DataFrame) :
  (forall c s, In (c, s) df -> classify c = Numeric ->
     numeric_column s \/ isna_sum s = 0) ->
  exists out rep, repair_columns str_float df = Ok (out, rep).
Proof.
  induction df as [|[c s] rest IH]; intros H; simpl; [eauto|].
  destruct (repair_column_ok c s) as (s' & r & Hr); [apply H; now left|].
  destruct IH as (out & rs & Hrs); [intros c' s0 Hin; apply H; now right|].
  rewrite Hr, Hrs. simpl. eauto.
Qed.

Lemma classify_numeric (c : string) : classify c = Numeric -> c = "age".
Proof.
  unfold classify. destruct (String.eqb_spec c "age"); [auto|].
  destruct (c =? "name")%string; discriminate.
Qed.

End Safe.

Section Tables.

Variable str_float : float64 -> string.

(** C4. The two counts of the report are the numbers of absent entries,
    before repair, over the columns classified numeric and over the columns
    classified categorical; every gap counts, resolved or not. *)
Theorem C4_missing_counts (df out : DataFrame) (rep : MissingReport) :
  NoDup (columns df) ->
  handle_missing_values str_float df = Ok (out, rep) ->
  numeric_fields_missing rep = gaps_of_kind Numeric df /\
  categorical_fields_missing rep = gaps_of_kind Categorical df.
Proof.
  intros Hnd H. rewrite handle_missing_values_spec in H by exact Hnd.
  destruct (repair_columns_report _ _ _ _ H) as (_ & Hnum & Hcat & _). auto.
Qed.

(** C7. A column classified Identifier that has an absent entry is listed in
    [columns_with_missing] (the names of the columns with an absent entry, in
    table order), comes back with every entry as it was, tags no
    interpolation record, and the counts and the records of the report are
    those of the table without this column. *)
Theorem C7_identifier_untouched (df out : DataFrame) (rep : MissingReport)
    (c : string) (s : Series) :
  NoDup (columns df) ->
  handle_missing_values str_float df = Ok (out, rep) ->
  In (c, s) df -> classify c = Identifier -> 0 < isna_sum s ->
  In c (columns_with_missing rep) /\
  columns_with_missing rep
  = map fst (filter (fun p => 0 <? isna_sum (snd p)) df) /\
  df_get out c = Ok s /\
  (forall d, In d (interpolation_details rep) -> column d <> c) /\
  exists rep',
    handle_missing_values str_float (drop_column c df)
    = Ok (drop_column c out, rep') /\
    numeric_fields_missing rep' = numeric_fields_missing rep /\
    categorical_fields_missing rep' = categorical_fields_missing rep /\
    interpolation_details rep' = interpolation_details rep.
Proof.
  intros Hnd H Hin Hk Hpos.
  rewrite handle_missing_values_spec in H by exact Hnd.
  destruct (repair_columns_report _ _ _ _ H) as (_ & _ & _ & Hmiss & _).
  destruct (repair_columns_drop _ _ _ _ _ _ Hnd Hin H)
    as (s' & r & rep' & Hr & Hget & Hdrop & Hn & Hc & Hd & _).
  rewrite repair_column_identifier in Hr by assumption.
  injection Hr as <- <-. simpl in *.
  assert (Hdet : interpolation_details rep' = interpolation_details rep) by auto.
  split; [|split; [exact Hmiss|split; [exact Hget|split]]].
  - rewrite Hmiss. apply in_map_iff. exists (c, s). split; [reflexivity|].
    apply filter_In. split; [exact Hin|]. now apply Nat.ltb_lt.
  - intros d Hd' Hcol. rewrite <- Hdet in Hd'.
    destruct (repair_columns_report _ _ _ _ Hdrop) as (_ & _ & _ & _ & Hcols).
    apply Hcols in Hd'. rewrite Hcol, columns_drop_column in Hd'.
    apply filter_In in Hd'. destruct Hd' as (_ & Hd').
    now rewrite String.eqb_refl in Hd'.
  - exists rep'. rewrite handle_missing_values_spec by now apply NoDup_drop_column.
    repeat split; auto.
Qed.

(** C8. A column without absent entries comes back unchanged, is not listed
    in [columns_with_missing], and the whole report is the report of the
    table without this column. *)
Theorem C8_gap_free_column (df out : DataFrame) (rep : MissingReport)
    (c : string) (s : Series) :
  NoDup (columns df) ->
  handle_missing_values str_float df = Ok (out, rep) ->
  In (c, s) df -> isna_sum s = 0 ->
  df_get out c = Ok s /\
  ~ In c (columns_with_missing rep) /\
  (forall d, In d (interpolation_details rep) -> column d <> c) /\
  handle_missing_values str_float (drop_column c df) = Ok (drop_column c out, rep).
Proof.
  intros Hnd H Hin Hzero.
  rewrite handle_missing_values_spec in H by exact Hnd.
  destruct (repair_columns_report _ _ _ _ H) as (_ & _ & _ & Hmiss & _).
  destruct (repair_columns_drop _ _ _ _ _ _ Hnd Hin H)
    as (s' & r & rep' & Hr & Hget & Hdrop & Hn & Hc & Hd & Hm).
  rewrite repair_column_no_gap in Hr by assumption.
  injection Hr as <- <-. simpl in *.
  assert (Hrep : rep' = rep).
  { destruct rep, rep'. simpl in *. f_equal; auto. }
  subst rep'.
  split; [exact Hget|split; [|split]].
  - rewrite Hmiss. intros Hc'. apply in_map_iff in Hc'.
    destruct Hc' as ([c' s'] & Hfst & Hf). simpl in Hfst. subst c'.
    apply filter_In in Hf. destruct Hf as (Hin' & Hpos). simpl in Hpos.
    assert (s' = s) by (eapply column_unique; eauto).
    subst s'. rewrite Hzero in Hpos. discriminate.
  - intros d Hd' Hcol.
    destruct (repair_columns_report _ _ _ _ Hdrop) as (_ & _ & _ & _ & Hcols).
    apply Hcols in Hd'. rewrite Hcol, columns_drop_column in Hd'.
    apply filter_In in Hd'. destruct Hd' as (_ & Hd').
    now rewrite String.eqb_refl in Hd'.
  - rewrite handle_missing_values_spec by now apply NoDup_drop_column.
    exact Hdrop.
Qed.

End Tables.

(** ** The rendered report *)

Lemma string_app_assoc (a b c : string) :
  ((a ++ b) ++ c = a ++ (b ++ c))%string.
Proof. induction a as [|x a IH]; simpl; [reflexivity | now rewrite IH]. Qed.

Lemma string_app_nil_r (a : string) : (a ++ EmptyString = a)%string.
Proof. induction a as [|x a IH]; simpl; [reflexivity | now rewrite IH]. Qed.

Lemma substring_here (s post : string) : substring_of s (s ++ post).
Proof. exists EmptyString, post. reflexivity. Qed.

Lemma substring_app_l (s pre t : string) :
  substring_of s t -> substring_of s (pre ++ t).
Proof.
  intros (a & b & ->). exists (pre ++ a)%string, b.
  now rewrite string_app_assoc.
Qed.

Lemma substring_app_r (s t post : string) :
  substring_of s t -> substring_of s (t ++ post).
Proof.
  intros (a & b & ->). exists a, (b ++ post)%string.
  now rewrite !string_app_assoc.
Qed.

Ltac find_substring :=
  first [ apply substring_here | apply substring_app_l; find_substring ].

Section Report.

Variable str_float : float64 -> string.

Lemma format_detail_not_fixed_line (item : Detail) (rest : string) :
  (format_detail str_float item ++ rest)%string <> no_interpolation_line.
Proof.
  unfold format_detail, no_interpolation_line. simpl. discriminate.
Qed.

(** C9. The interpolation block of the report is the line
    ["   No interpolation performed"] exactly when [interpolation_details]
    is empty, and the report then contains it; with one record, the report
    contains the record's column name, missing index, left value, right value
    and rounded interpolated value. *)
Theorem C9_report_rendering (report : ValidationReport) :
  (interpolation_details (missing_data report) = [] <->
   _format_interpolation_details str_float report = no_interpolation_line) /\
  (interpolation_details (missing_data report) = [] ->
   substring_of no_interpolation_line (generate_report str_float report)) /\
  (forall item, interpolation_details (missing_data report) = [item] ->
     let r := detail item in
     let text := generate_report str_float report in
     substring_of (column item) text /\
     substring_of (str_int (missing_index r)) text /\
     substring_of (str_scalar str_float (left_value r)) text /\
     substring_of (str_scalar str_float (right_value r)) text /\
     substring_of (str_scalar str_float (interpolated_value r)) text).
Proof.
  split; [|split].
  - unfold _format_interpolation_details.
    destruct (interpolation_details (missing_data report)) as [|item items].
    + split; reflexivity.
    + split; [discriminate|]. intros H. exfalso. simpl in H.
      destruct (map (format_detail str_float) items).
      * apply (format_detail_not_fixed_line item EmptyString).
        now rewrite string_app_nil_r.
      * now apply format_detail_not_fixed_line in H.
  - intros H. unfold generate_report, _format_interpolation_details. rewrite H.
    apply substring_app_l, substring_here.
  - intros item H r text. subst r text.
    unfold generate_report, _format_interpolation_details. rewrite H.
    cbn [map String.concat].
    repeat split; apply substring_app_l, substring_app_r;
      unfold format_detail; cbv zeta; find_substring.
Qed.

End Report.

(** * The statements on concrete inputs *)

Lemma table_sample_NoDup : NoDup (columns table_sample).
Proof. repeat constructor; simpl; intuition discriminate. Defined.



Lemma C3_fill_categorical_witness :
  dropna [Str "b"; Str "a"; NaN; Str "a"] <> [] /\
  exists m,
    In m (dropna [Str "b"; Str "a"; NaN; Str "a"]) /\
    (forall v, In v (dropna [Str "b"; Str "a"; NaN; Str "a"]) ->
       value_count v (dropna [Str "b"; Str "a"; NaN; Str "a"])
       <= value_count m (dropna [Str "b"; Str "a"; NaN; Str "a"])) /\
    (forall v, In v (dropna [Str "b"; Str "a"; NaN; Str "a"]) ->
       value_count v (dropna [Str "b"; Str "a"; NaN; Str "a"])
       = value_count m (dropna [Str "b"; Str "a"; NaN; Str "a"]) ->
       scalar_leb m v = true) /\
    forall i, gap_at [Str "b"; Str "a"; NaN; Str "a"] i ->
      nth_error (fill_categorical [Str "b"; Str "a"; NaN; Str "a"]) i = Some m.
Proof.
  assert (H : dropna [Str "b"; Str "a"; NaN; Str "a"] <> []) by discriminate.
  split; [exact H|].
  exact (proj2 (proj2 (proj2
           (C3_fill_categorical [Str "b"; Str "a"; NaN; Str "a"]))) H).
Defined.

Lemma C4_missing_counts_witness :
  exists out rep,
    NoDup (columns table_sample) /\
    handle_missing_values str_float_sample table_sample = Ok (out, rep) /\
    numeric_fields_missing rep = gaps_of_kind Numeric table_sample /\
    categorical_fields_missing rep = gaps_of_kind Categorical table_sample.
Proof.
  do 2 eexists. split; [exact table_sample_NoDup|].
  split; [lazy; reflexivity|].
  eapply (C4_missing_counts str_float_sample table_sample _ _ table_sample_NoDup).
  lazy. reflexivity.
Defined.

Lemma C6_divisor_nonzero_witness :
  gap_at column_10_40 2 /\
  any (firstn 2 (notna column_10_40)) && any (skipn 2 (notna column_10_40)) = true /\
  exists L R,
    index_last (index_where (firstn 2 (notna column_10_40))) = Ok L /\
    index_first (index_where (skipn 2 (notna column_10_40))) = Ok R /\
    L < 2 < R /\
    (Z.of_nat R - Z.of_nat L <> 0)%Z /\
    exists ratio,
      py_truediv (Z.of_nat 2 - Z.of_nat L) (Z.of_nat R - Z.of_nat L) = Ok ratio.
Proof.
  split; [reflexivity|]. split; [reflexivity|].
  exact (proj1 (C6_divisor_nonzero str_float_sample) column_10_40 2
           eq_refl eq_refl).
Defined.

Lemma C7_identifier_untouched_witness :
  exists out rep,
    NoDup (columns table_sample) /\
    handle_missing_values str_float_sample table_sample = Ok (out, rep) /\
    In ("city", [NaN; Str "k"; Str "k"; NaN]) table_sample /\
    classify "city" = Identifier /\
    0 < isna_sum [NaN; Str "k"; Str "k"; NaN] /\
    In "city" (columns_with_missing rep) /\
    columns_with_missing rep
    = map fst (filter (fun p => 0 <? isna_sum (snd p)) table_sample) /\
    df_get out "city" = Ok [NaN; Str "k"; Str "k"; NaN] /\
    (forall d, In d (interpolation_details rep) -> column d <> "city") /\
    exists rep',
      handle_missing_values str_float_sample (drop_column "city" table_sample)
      = Ok (drop_column "city" out, rep') /\
      numeric_fields_missing rep' = numeric_fields_missing rep /\
      categorical_fields_missing rep' = categorical_fields_missing rep /\
      interpolation_details rep' = interpolation_details rep.
Proof.
  do 2 eexists. split; [exact table_sample_NoDup|].
  split; [lazy; reflexivity|].
  assert (Hin : In ("city", [NaN; Str "k"; Str "k"; NaN]) table_sample).
  { right. right. left. reflexivity. }
  assert (Hpos : 0 < isna_sum [NaN; Str "k"; Str "k"; NaN]) by (unfold isna_sum; simpl; lia).
  split; [exact Hin|]. split; [reflexivity|]. split; [exact Hpos|].
  eapply (C7_identifier_untouched str_float_sample table_sample _ _ _ _
           table_sample_NoDup); [lazy; reflexivity | exact Hin | reflexivity | exact Hpos].
Defined.

Lemma C8_gap_free_column_witness :
  exists out rep,
    NoDup (columns table_sample) /\
    handle_missing_values str_float_sample table_sample = Ok (out, rep) /\
    In ("zip", [Str "a"; Str "b"; Str "c"; Str "d"]) table_sample /\
    isna_sum [Str "a"; Str "b"; Str "c"; Str "d"] = 0 /\
    df_get out "zip" = Ok [Str "a"; Str "b"; Str "c"; Str "d"] /\
    ~ In "zip" (columns_with_missing rep) /\
    (forall d, In d (interpolation_details rep) -> column d <> "zip") /\
    handle_missing_values str_float_sample (drop_column "zip" table_sample)
    = Ok (drop_column "zip" out, rep).
Proof.
  do 2 eexists. split; [exact table_sample_NoDup|].
  split; [lazy; reflexivity|].
  assert (Hin : In ("zip", [Str "a"; Str "b"; Str "c"; Str "d"]) table_sample).
  { right. right. right. left. reflexivity. }
  split; [exact Hin|]. split; [reflexivity|].
  eapply (C8_gap_free_column str_float_sample table_sample _ _ _ _
           table_sample_NoDup); [lazy; reflexivity | exact Hin | reflexivity].
Defined.

Lemma C9_report_rendering_witness :
  interpolation_details (missing_data report_sample)
  = [mkDetail "age" record_sample] /\
  substring_of "age" (generate_report str_float_sample report_sample) /\
  substring_of (str_int 1) (generate_report str_float_sample report_sample) /\
  substring_of (str_scalar str_float_sample (Num (float_of_int 1)))
    (generate_report str_float_sample report_sample) /\
  substring_of (str_scalar str_float_sample (Num (float_of_int 4)))
    (generate_report str_float_sample report_sample) /\
  substring_of (str_scalar str_float_sample (Num (decimal 25 1)))
    (generate_report str_float_sample report_sample).
Proof.
  split; [reflexivity|].
  exact (proj2 (proj2 (C9_report_rendering str_float_sample report_sample))
           (mkDetail "age" record_sample) eq_refl).
Defined.

Lemma C10_boundary_gaps_witness :
  numeric_column column_edges /\
  gap_at column_edges 0 /\ none_before column_edges 0 /\
  gap_at column_edges 4 /\ nearest_left column_edges 4 3 (Num (float_of_int 10)) /\
  none_after column_edges 4 /\
  exists out recs,
    interpolate_numeric str_float_sample column_edges = Ok (out, recs) /\
    nth_error out 0 = Some NaN /\ ~ In 0 (map missing_index recs) /\
    nth_error out 4 = Some (Num (float_of_int 10)) /\ ~ In 4 (map missing_index recs).
Proof.
  assert (Hnum : numeric_column column_edges) by reflexivity.
  assert (Hg0 : gap_at column_edges 0) by reflexivity.
  assert (Hb0 : none_before column_edges 0) by (intros j Hj; lia).
  assert (Hg4 : gap_at column_edges 4) by reflexivity.
  assert (Hl4 : nearest_left column_edges 4 3 (Num (float_of_int 10))).
  { split; [lia|]. split; [reflexivity|]. split; [discriminate|].
    intros j Hj. lia. }
  assert (Ha4 : none_after column_edges 4).
  { intros j c Hj Hc.
    assert (Hlt : j < List.length column_edges) by (apply nth_error_Some; congruence).
    simpl in Hlt. lia. }
  split; [exact Hnum|]. split; [exact Hg0|]. split; [exact Hb0|].
  split; [exact Hg4|]. split; [exact Hl4|]. split; [exact Ha4|].
  destruct (C10_boundary_gaps str_float_sample column_edges Hnum)
    as (out & recs & E & Hlead & Htrail).
  exists out, recs. split; [exact E|].
  destruct (Hlead 0 Hg0 Hb0) as (H1 & H2).
  destruct (Htrail 4 3 (float_of_int 10) Hg4 Hl4 Ha4) as (H3 & H4).
  repeat split; assumption.
Defined.

(** * Further properties of the interpolation engine *)

Lemma gap_neighbours (series : Series) (i L R : nat) :
  gap_at series i ->
  index_last (index_where (firstn i (notna series))) = Ok L ->
  index_first (index_where (skipn i (notna series))) = Ok R ->
  exists cl cr, nearest_left series i L cl /\ nearest_right series i R cr.
Proof.
  intros Hi HL HR.
  destruct (left_idx_elim _ _ _ HL) as (HLi & cl & Hcl & Hnl & HgapL).
  destruct (right_idx_elim _ _ _ HR) as (HRi & cr & Hcr & Hnr & HgapR).
  assert (Hlen : i < List.length series) by (apply nth_error_Some; unfold gap_at in Hi; congruence).
  assert (HR' : R < List.length series) by (apply nth_error_Some; congruence).
  assert (HRne : R <> i).
  { intros ->. unfold gap_at in Hi. rewrite Hi in Hcr. injection Hcr as <-. discriminate. }
  assert (Hnan : forall j, j < List.length series ->
            (forall c', nth_error series j = Some c' -> notnull c' = false) ->
            nth_error series j = Some NaN).
  { intros j Hj H. destruct (nth_error series j) as [c'|] eqn:E.
    - specialize (H c' eq_refl). destruct c'; cbv in H; congruence.
    - apply nth_error_None in E. lia. }
  exists cl, cr. split.
  - repeat split; auto.
    + intros ->. discriminate.
    + intros j Hj. apply Hnan; [lia|]. intros c' Hc'. now apply (HgapL j).
  - repeat split; auto.
    + lia.
    + intros ->. discriminate.
    + intros j Hj. apply Hnan; [lia|]. intros c' Hc'. apply (HgapR j); [lia | exact Hc'].
Qed.

Section EngineExtras.

Variable str_float : float64 -> string.

Lemma interpolation_loop_inv (series : Series) (idxs : list nat)
    (acc recs : list InterpolationRecord) :
  interpolation_loop str_float series idxs acc = Ok recs ->
  recs = acc ++ flat_map (record_at str_float series) idxs.
Proof.
  revert acc. induction idxs as [|i idxs IH]; intros acc H; simpl in *.
  - injection H as <-. now rewrite app_nil_r.
  - unfold record_at at 1.
    destruct (calculate_interpolation str_float series i) as [o|e]; simpl in H;
      [|discriminate].
    rewrite (IH _ H). destruct o; [now rewrite <- app_assoc | reflexivity].
Qed.

Lemma interpolate_numeric_inv (series out : Series)
    (recs : list InterpolationRecord) :
  interpolate_numeric str_float series = Ok (out, recs) ->
  out = Series_interpolate series /\
  recs = flat_map (record_at str_float series)
           (filter (is_gap series) (seq 0 (List.length series))).
Proof.
  unfold interpolate_numeric. rewrite missing_indices_spec.
  destruct (interpolation_loop str_float series _ []) as [l|e] eqn:E; simpl;
    [|discriminate].
  intros [= <- <-]. split; [reflexivity|].
  now apply interpolation_loop_inv in E.
Qed.

(** X1. Every record [interpolate_numeric] returns sits at a gap, between
    the two non-absent cells it names: [left_index < missing_index <
    right_index], the two values are the numbers stored at these positions,
    and every cell strictly between them is absent. *)
Theorem record_between_neighbours (series out : Series)
    (recs : list InterpolationRecord) (r : InterpolationRecord) :
  interpolate_numeric str_float series = Ok (out, recs) -> In r recs ->
  gap_at series (missing_index r) /\
  left_index r < missing_index r < right_index r /\
  nth_error series (left_index r) = Some (left_value r) /\
  nth_error series (right_index r) = Some (right_value r) /\
  (exists vL vR, left_value r = Num vL /\ right_value r = Num vR) /\
  (forall j, left_index r < j < right_index r -> nth_error series j = Some NaN).
Proof.
  intros H Hr. apply interpolate_numeric_inv in H. destruct H as (_ & ->).
  apply in_flat_map in Hr. destruct Hr as (i & Hi & Hr).
  apply filter_In in Hi. destruct Hi as (_ & Hi). apply is_gap_iff in Hi.
  unfold record_at in Hr.
  destruct (calculate_interpolation_cases str_float series i)
    as [(_ & H) | (L & R & cl & cr & HL & HR & Hcl & Hcr & Hnl & Hnr & HLi & HiR & H)];
    rewrite H in Hr; simpl in Hr; [contradiction|].
  destruct (gap_neighbours _ _ _ _ Hi HL HR) as (cl' & cr' & NL & NR).
  destruct NL as (_ & Hcl' & _ & HgL). destruct NR as (HiR' & Hcr' & _ & HgR).
  assert (cl' = cl) by congruence. assert (cr' = cr) by congruence. subst cl' cr'.
  destruct cl as [|vL|sL], cr as [|vR|sR]; try discriminate;
    try (rewrite interpolation_branch_str in Hr by (lia || reflexivity);
         contradiction).
  rewrite interpolation_branch_num in Hr by lia.
  destruct Hr as [<-|[]]. simpl.
  repeat split; auto; try lia.
  - eauto.
  - intros j Hj. destruct (Nat.lt_trichotomy j i) as [Hlt|[->|Hgt]].
    + apply HgL. lia.
    + exact Hi.
    + apply HgR. lia.
Qed.


End EngineExtras.

(** ** The repaired column *)

Lemma left_value_or_leading (series : Series) (i : nat) :
  (forall j c, j < i -> nth_error series j = Some c -> notnull c = false)
  \/ exists L cl, valid_before series i = Some (L, cl) /\ L < i /\
       nth_error series L = Some cl /\ notnull cl = true.
Proof.
  destruct (any (firstn i (notna series))) eqn:E.
  - right. destruct (any_index_last _ E) as (L & HL).
    destruct (left_idx_elim _ _ _ HL) as (HLi & cl & Hcl & Hnl & Hgap).
    exists L, cl. repeat split; auto. now apply valid_before_intro.
  - left. intros j c Hj Hc. destruct (notnull c) eqn:Hn; [|reflexivity].
    assert (any (firstn i (notna series)) = true) by (apply any_before_iff; eauto).
    congruence.
Qed.

Lemma not_object_forall (series : Series) :
  numeric_column series <-> forall c, In c series -> is_str c = false.
Proof.
  unfold numeric_column, is_object_dtype. split.
  - intros H c Hc. destruct (is_str c) eqn:E; [|reflexivity].
    assert (existsb is_str series = true) by (apply existsb_exists; eauto).
    congruence.
  - intros H. destruct (existsb is_str series) eqn:E; [|reflexivity].
    apply existsb_exists in E. destruct E as (c & Hc & Hs).
    rewrite (H c Hc) in Hs. discriminate.
Qed.

Lemma interp_cell_present (series : Series) (i : nat) (c : scalar) :
  c <> NaN -> interp_cell series i c = c.
Proof. destruct c; simpl; congruence. Qed.

Lemma interp_cell_not_str (series : Series) (i : nat) (c : scalar) :
  is_str c = false -> is_str (interp_cell series i c) = false.
Proof.
  destruct c; simpl; try congruence. intros _.
  destruct (valid_before series i) as [[l [|yl|sl]]|]; try reflexivity.
  destruct (valid_after series i) as [[r [|yr|sr]]|]; try reflexivity.
  apply cell_not_str.
Qed.

Lemma interp_cell_leading (series : Series) (i : nat) :
  numeric_column series -> finite_column series ->
  (interp_cell series i NaN = NaN <->
   forall j c, j < i -> nth_error series j = Some c -> notnull c = false).
Proof.
  intros Hnum Hfin. split.
  - intros H. destruct (left_value_or_leading series i)
      as [Hlead | (L & cl & Hv & HLi & Hcl & Hnl)]; [exact Hlead|].
    exfalso. unfold interp_cell in H. rewrite Hv in H.
    destruct (numeric_notnull cl (numeric_column_nth _ _ _ Hnum Hcl) Hnl) as (v & ->).
    destruct (valid_after series i) as [[r [|yr|sr]]|] eqn:Ea; try discriminate.
    apply valid_after_elim in Ea. destruct Ea as (Hir & Hr & _).
    apply cell_nan_iff in H. rewrite np_interp_not_nan in H;
      [discriminate | lia | lia | |]; eapply finite_column_nth; eauto.
  - intros H. unfold interp_cell. now rewrite valid_before_none.
Qed.

Lemma leading_none_before (series : Series) (i : nat) :
  i < List.length series ->
  (forall j c, j < i -> nth_error series j = Some c -> notnull c = false) <->
  none_before series i.
Proof.
  intros Hlen. split.
  - intros H j Hj. destruct (nth_error series j) as [c|] eqn:E.
    + specialize (H j c Hj E). destruct c; cbv in H; congruence.
    + apply nth_error_None in E. lia.
  - intros H j c Hj Hc. rewrite (H j Hj) in Hc. now injection Hc as <-.
Qed.

Lemma gap_isna_sum (series : Series) (i : nat) :
  gap_at series i -> 0 < isna_sum series.
Proof.
  unfold gap_at, isna_sum. intros H. apply nth_error_In in H.
  assert (Hin : In NaN (filter isnull series)) by (apply filter_In; auto).
  destruct (filter isnull series); [contradiction | simpl; lia].
Qed.

Lemma Series_interpolate_frame (series : Series) :
  List.length (Series_interpolate series) = List.length series /\
  forall i x, nth_error series i = Some x -> x <> NaN ->
    nth_error (Series_interpolate series) i = Some x.
Proof.
  unfold Series_interpolate. destruct (is_object_dtype series); [auto|]. split.
  - unfold labelled. rewrite length_map, length_combine, length_seq. lia.
  - intros i x Hx Hn. rewrite nth_error_interpolated, Hx. simpl.
    now rewrite interp_cell_present.
Qed.

Lemma interpolated_shape (series : Series) :
  numeric_column series -> finite_column series ->
  List.length (Series_interpolate series) = List.length series /\
  numeric_column (Series_interpolate series) /\
  (forall i, gap_at (Series_interpolate series) i <->
             gap_at series i /\ none_before series i).
Proof.
  intros Hnum Hfin. split; [apply Series_interpolate_frame|].
  unfold Series_interpolate. rewrite Hnum. split.
  - apply not_object_forall. intros c Hc.
    destruct (In_nth_error _ _ Hc) as (i & Hi).
    rewrite nth_error_interpolated in Hi.
    destruct (nth_error series i) as [c0|] eqn:E; [|discriminate].
    injection Hi as <-. apply interp_cell_not_str.
    eapply numeric_column_nth; eauto.
  - intros i. unfold gap_at at 1. rewrite nth_error_interpolated.
    destruct (nth_error series i) as [c0|] eqn:E.
    + assert (Hlen : i < List.length series) by (apply nth_error_Some; congruence).
      cbn [option_map]. unfold gap_at. rewrite E. split.
      * intros [= Hc]. destruct c0 as [|x|s0]; try (simpl in Hc; discriminate).
        split; [reflexivity|].
        apply leading_none_before; [exact Hlen|].
        now apply interp_cell_leading.
      * intros ([= ->] & Hnone). f_equal.
        apply interp_cell_leading; [exact Hnum | exact Hfin |].
        now apply leading_none_before.
    + simpl. unfold gap_at. rewrite E. split; [discriminate | intros (H & _); discriminate].
Qed.

Section Repaired.

Variable str_float : float64 -> string.

Lemma interpolated_again (series : Series) :
  numeric_column series -> finite_column series ->
  interpolate_numeric str_float (Series_interpolate series)
  = Ok (Series_interpolate series, []).
Proof.
  intros Hnum Hfin.
  destruct (interpolated_shape _ Hnum Hfin) as (Hlen & Hnum' & Hgap).
  set (out := Series_interpolate series) in *.
  assert (Hlead : forall i, gap_at out i -> none_before out i).
  { intros i Hi j Hj. apply Hgap in Hi. destruct Hi as (_ & Hnone).
    apply Hgap. split; [now apply Hnone|].
    intros k Hk. apply Hnone. lia. }
  rewrite interpolate_numeric_no_interior.
  - f_equal. f_equal. unfold Series_interpolate. rewrite Hnum'.
    apply nth_error_ext. intros i. rewrite nth_error_interpolated.
    destruct (nth_error out i) as [c|] eqn:E; [|reflexivity]. simpl. f_equal.
    destruct c as [|x|s0]; try reflexivity.
    unfold interp_cell. rewrite valid_before_none; [reflexivity|].
    intros j c Hj Hc. rewrite (Hlead i E j Hj) in Hc. now injection Hc as <-.
  - intros i. destruct (interior_gap out i) eqn:E; [|reflexivity].
    pose proof (interior_gap_is_gap _ _ E) as Hi. apply is_gap_iff in Hi.
    rewrite none_before_not_interior in E by now apply Hlead. discriminate.
Qed.

(** X3. On a float64 column of finite numbers the repaired column has the
    same length, holds no string, keeps every non-absent entry, and is absent
    exactly at the gaps that precede the first non-absent value. *)
Theorem repaired_column_shape (series out : Series)
    (recs : list InterpolationRecord) :
  numeric_column series -> finite_column series ->
  interpolate_numeric str_float series = Ok (out, recs) ->
  List.length out = List.length series /\
  numeric_column out /\
  (forall i c, nth_error series i = Some c -> c <> NaN ->
     nth_error out i = Some c) /\
  (forall i, gap_at out i <-> gap_at series i /\ none_before series i).
Proof.
  intros Hnum Hfin H. apply interpolate_numeric_inv in H. destruct H as (-> & _).
  destruct (interpolated_shape _ Hnum Hfin) as (Hlen & Hnum' & Hgap).
  split; [exact Hlen|]. split; [exact Hnum'|]. split; [|exact Hgap].
  apply Series_interpolate_frame.
Qed.

(** X4. Interpolating a repaired float64 column of finite numbers again
    changes nothing and yields no record. *)
Theorem interpolate_numeric_idempotent (series out : Series)
    (recs : list InterpolationRecord) :
  numeric_column series -> finite_column series ->
  interpolate_numeric str_float series = Ok (out, recs) ->
  interpolate_numeric str_float out = Ok (out, []).
Proof.
  intros Hnum Hfin H. apply interpolate_numeric_inv in H. destruct H as (-> & _).
  now apply interpolated_again.
Qed.

End Repaired.

(** ** When the engine raises *)

Section Raising.

Variable str_float : float64 -> string.

Lemma interpolation_branch_raise (i L R : nat) (cl cr : scalar) (e : exn) :
  L < R -> interpolation_branch str_float i L R cl cr = Raise e ->
  e = TypeError /\ is_str cl || is_str cr = true.
Proof.
  intros H.
  destruct cl as [|x|s], cr as [|y|t];
    try (rewrite interpolation_branch_num by exact H; discriminate);
    unfold interpolation_branch; rewrite py_truediv_ok by exact H;
    cbn [bind py_sub py_mul py_add py_round2];
    intros E; try discriminate; injection E as <-; auto.
Qed.

Lemma calculate_interpolation_raise (series : Series) (i : nat) (e : exn) :
  calculate_interpolation str_float series i = Raise e -> e = TypeError.
Proof.
  destruct (calculate_interpolation_cases str_float series i)
    as [(_ & H) | (L & R & cl & cr & _ & _ & _ & _ & _ & _ & HLi & HiR & H)];
    rewrite H; [discriminate|].
  intros E. apply interpolation_branch_raise in E; [tauto | lia].
Qed.

Lemma calculate_interpolation_raise_inv (series : Series) (i : nat) (e : exn) :
  gap_at series i ->
  calculate_interpolation str_float series i = Raise e ->
  exists L R cl cr,
    nearest_left series i L cl /\ nearest_right series i R cr /\
    is_str cl || is_str cr = true.
Proof.
  intros Hi.
  destruct (calculate_interpolation_cases str_float series i)
    as [(_ & H) | (L & R & cl & cr & HL & HR & Hcl & Hcr & _ & _ & HLi & HiR & H)];
    rewrite H; [discriminate|].
  intros E. apply interpolation_branch_raise in E; [|lia].
  destruct (gap_neighbours _ _ _ _ Hi HL HR) as (cl' & cr' & NL & NR).
  assert (cl' = cl) by (destruct NL as (_ & ? & _); congruence).
  assert (cr' = cr) by (destruct NR as (_ & ? & _); congruence).
  subst. exists L, R, cl, cr. tauto.
Qed.

Lemma calculate_interpolation_raise_intro (series : Series) (i L R : nat)
    (cl cr : scalar) :
  gap_at series i -> nearest_left series i L cl -> nearest_right series i R cr ->
  is_str cl || is_str cr = true ->
  calculate_interpolation str_float series i = Raise TypeError.
Proof.
  intros Hi NL NR Hs.
  rewrite (calculate_interpolation_branch str_float series i L R cl cr).
  - apply interpolation_branch_str; [|exact Hs].
    destruct NL as (? & _), NR as (? & _). lia.
  - eapply nearest_left_idx; eauto.
  - eapply nearest_right_idx; eauto.
  - now destruct NL as (_ & ? & _).
  - now destruct NR as (_ & ? & _).
Qed.

Lemma interpolation_loop_raise_inv (series : Series) (idxs : list nat)
    (acc : list InterpolationRecord) (e : exn) :
  interpolation_loop str_float series idxs acc = Raise e ->
  exists i, In i idxs /\ calculate_interpolation str_float series i = Raise e.
Proof.
  revert acc. induction idxs as [|i idxs IH]; intros acc H; simpl in H;
    [discriminate|].
  destruct (calculate_interpolation str_float series i) as [o|e'] eqn:E; simpl in H.
  - destruct (IH _ H) as (j & Hj & Hc). exists j. split; [now right | exact Hc].
  - injection H as ->. exists i. split; [now left | exact E].
Qed.

Lemma interpolation_loop_raise_intro (series : Series) (idxs : list nat)
    (acc : list InterpolationRecord) (i : nat) :
  In i idxs -> calculate_interpolation str_float series i = Raise TypeError ->
  interpolation_loop str_float series idxs acc = Raise TypeError.
Proof.
  revert acc. induction idxs as [|j idxs IH]; intros acc Hin Hc; [contradiction|].
  simpl. destruct (calculate_interpolation str_float series j) as [o|e] eqn:E; simpl.
  - destruct Hin as [->|Hin]; [congruence|]. now apply IH.
  - f_equal. eapply calculate_interpolation_raise; eauto.
Qed.

Lemma interpolate_numeric_raise_inv (series : Series) (e : exn) :
  interpolate_numeric str_float series = Raise e ->
  e = TypeError /\
  exists i L R cl cr,
    gap_at series i /\ nearest_left series i L cl /\
    nearest_right series i R cr /\ is_str cl || is_str cr = true.
Proof.
  unfold interpolate_numeric. rewrite missing_indices_spec.
  destruct (interpolation_loop str_float series _ []) as [l|e'] eqn:E; simpl;
    [discriminate|].
  intros [= ->]. apply interpolation_loop_raise_inv in E.
  destruct E as (i & Hi & Hc). apply filter_In in Hi. destruct Hi as (_ & Hi).
  apply is_gap_iff in Hi. split; [eapply calculate_interpolation_raise; eauto|].
  destruct (calculate_interpolation_raise_inv _ _ _ Hi Hc) as (L & R & cl & cr & H).
  exists i, L, R, cl, cr. tauto.
Qed.

Lemma interpolate_numeric_raise_intro (series : Series) (i L R : nat)
    (cl cr : scalar) :
  gap_at series i -> nearest_left series i L cl -> nearest_right series i R cr ->
  is_str cl || is_str cr = true ->
  interpolate_numeric str_float series = Raise TypeError.
Proof.
  intros Hi NL NR Hs. unfold interpolate_numeric. rewrite missing_indices_spec.
  rewrite (interpolation_loop_raise_intro series _ [] i); [reflexivity| |].
  - apply filter_In. split.
    + apply in_seq. split; [lia|]. simpl. apply nth_error_Some.
      unfold gap_at in Hi. congruence.
    + now apply is_gap_iff.
  - eapply calculate_interpolation_raise_intro; eauto.
Qed.

(** X5. [interpolate_numeric] raises exactly when some gap lies between two
    nearest non-absent cells one of which is a string, and the exception is
    then [TypeError]; it raises nothing else. *)
Theorem interpolate_numeric_raises (series : Series) (e : exn) :
  interpolate_numeric str_float series = Raise e <->
  e = TypeError /\
  exists i L R cl cr,
    gap_at series i /\ nearest_left series i L cl /\
    nearest_right series i R cr /\ is_str cl || is_str cr = true.
Proof.
  split.
  - apply interpolate_numeric_raise_inv.
  - intros (-> & i & L & R & cl & cr & Hi & NL & NR & Hs).
    eapply interpolate_numeric_raise_intro; eauto.
Qed.

End Raising.

(** * Further properties of the categorical filler *)

Lemma Series_mode_notnull (series : Series) (m : scalar) :
  In m (Series_mode series) -> notnull m = true.
Proof.
  unfold Series_mode. intros H. apply sort_values_In, filter_In in H.
  destruct H as (H & _). apply unique_incl in H. unfold dropna in H.
  apply filter_In in H. tauto.
Qed.

Lemma fillna_no_gap (value : scalar) (series : Series) :
  notnull value = true -> isna_sum (fillna value series) = 0.
Proof.
  intros Hv. unfold isna_sum, fillna.
  induction series as [|c series IH]; simpl; [reflexivity|].
  destruct c; simpl; try exact IH.
  destruct value; simpl in *; try discriminate; exact IH.
Qed.

Lemma fillna_gap_free (value : scalar) (series : Series) :
  isna_sum series = 0 -> fillna value series = series.
Proof.
  unfold isna_sum, fillna. induction series as [|c series IH]; simpl; [reflexivity|].
  destruct c; simpl; intros H; try discriminate; now rewrite IH.
Qed.

Lemma fill_categorical_fillna (series : Series) :
  exists value, notnull value = true /\
    fill_categorical series = fillna value series.
Proof.
  unfold fill_categorical. destruct (Series_mode series) as [|m rest] eqn:E.
  - exists (Str "Unknown"). auto.
  - exists m. split; [|reflexivity]. apply (Series_mode_notnull series).
    rewrite E. now left.
Qed.

Lemma fill_categorical_no_gap (series : Series) :
  isna_sum (fill_categorical series) = 0.
Proof.
  destruct (fill_categorical_fillna series) as (value & Hv & E).
  rewrite E. now apply fillna_no_gap.
Qed.

(** X6. [fill_categorical] leaves no absent entry, whatever the column, and
    filling a second time changes nothing. *)
Theorem fill_categorical_complete (series : Series) :
  isna_sum (fill_categorical series) = 0 /\
  fill_categorical (fill_categorical series) = fill_categorical series.
Proof.
  split; [apply fill_categorical_no_gap|].
  destruct (fill_categorical_fillna (fill_categorical series)) as (v' & _ & E').
  rewrite E'. apply fillna_gap_free, fill_categorical_no_gap.
Qed.

(** * Further properties of the coordinator *)

Section CoordinatorExtras.

Variable str_float : float64 -> string.

Lemma repair_column_raise (c : string) (s : Series) (e : exn) :
  repair_column str_float c s = Raise e <->
  classify c = Numeric /\ interpolate_numeric str_float s = Raise e.
Proof.
  unfold repair_column. split.
  - destruct (0 <? isna_sum s); [|discriminate].
    destruct (classify c); try discriminate.
    destruct (interpolate_numeric str_float s); simpl; [discriminate|].
    intros [= ->]. auto.
  - intros (Hk & H). rewrite Hk.
    assert (Hpos : 0 < isna_sum s).
    { apply interpolate_numeric_raise_inv in H.
      destruct H as (_ & i & _ & _ & _ & _ & Hi & _). eapply gap_isna_sum; eauto. }
    destruct (Nat.ltb_spec 0 (isna_sum s)); [|lia]. now rewrite H.
Qed.

Lemma repair_column_raise_type (c : string) (s : Series) (e : exn) :
  repair_column str_float c s = Raise e -> e = TypeError.
Proof.
  intros H. apply repair_column_raise in H. destruct H as (_ & H).
  apply interpolate_numeric_raise_inv in H. tauto.
Qed.

Lemma repair_columns_raise_inv (df : DataFrame) (e : exn) :
  repair_columns str_float df = Raise e ->
  exists c s, In (c, s) df /\ repair_column str_float c s = Raise e.
Proof.
  induction df as [|[c s] rest IH]; simpl; [discriminate|].
  destruct (repair_column str_float c s) as [[s' r]|e'] eqn:E; simpl.
  - destruct (repair_columns str_float rest) as [[out rs]|e'']; simpl; [discriminate|].
    intros [= ->]. destruct IH as (c' & s0 & Hin & H); [reflexivity|].
    exists c', s0. split; [now right | exact H].
  - intros [= ->]. exists c, s. split; [now left | exact E].
Qed.

Lemma repair_columns_raise_intro (df : DataFrame) (c : string) (s : Series) :
  In (c, s) df -> repair_column str_float c s = Raise TypeError ->
  repair_columns str_float df = Raise TypeError.
Proof.
  induction df as [|[c0 s0] rest IH]; intros Hin H; [contradiction|]. simpl.
  destruct (repair_column str_float c0 s0) as [[s' r]|e] eqn:E; simpl.
  - destruct Hin as [[= -> ->]|Hin]; [congruence|].
    now rewrite (IH Hin H).
  - f_equal. eapply repair_column_raise_type; eauto.
Qed.

(** X7. On a table with distinct column names, [handle_missing_values]
    raises exactly when the column named ["age"] makes [interpolate_numeric]
    raise, and the exception is [TypeError]: no [KeyError], [IndexError] or
    [ZeroDivisionError] leaves the loop. *)
Theorem handle_missing_values_raises (df : DataFrame) (e : exn) :
  NoDup (columns df) ->
  (handle_missing_values str_float df = Raise e <->
   e = TypeError /\
   exists s, In ("age", s) df /\
     interpolate_numeric str_float s = Raise TypeError).
Proof.
  intros Hnd. rewrite handle_missing_values_spec by exact Hnd. split.
  - intros H. apply repair_columns_raise_inv in H.
    destruct H as (c & s & Hin & H).
    pose proof (repair_column_raise_type _ _ _ H) as ->.
    apply repair_column_raise in H. destruct H as (Hk & H).
    apply classify_numeric in Hk. subst c. eauto.
  - intros (-> & s & Hin & H).
    apply (repair_columns_raise_intro df "age" s Hin).
    apply repair_column_raise. auto.
Qed.

Lemma repair_column_frame (c : string) (s s' : Series) (r : MissingReport) :
  repair_column str_float c s = Ok (s', r) ->
  List.length s' = List.length s /\
  (forall i x, nth_error s i = Some x -> x <> NaN -> nth_error s' i = Some x) /\
  (classify c = Categorical -> isna_sum s' = 0) /\
  (classify c = Identifier -> s' = s).
Proof.
  unfold repair_column. destruct (Nat.ltb_spec 0 (isna_sum s)) as [Hpos|Hzero].
  - destruct (classify c) eqn:Hk.
    + destruct (interpolate_numeric str_float s) as [[s1 recs]|e] eqn:E; simpl;
        [|discriminate].
      intros [= <- <-]. apply interpolate_numeric_inv in E. destruct E as (-> & _).
      destruct (Series_interpolate_frame s) as (Hl & Hp).
      repeat split; auto; discriminate.
    + intros [= <- <-]. destruct (fill_categorical_fillna s) as (v & Hv & E).
      repeat split.
      * rewrite E. apply length_map.
      * intros i x Hx Hn. rewrite E, nth_error_fillna, Hx.
        destruct x; simpl; congruence.
      * intros _. apply fill_categorical_no_gap.
      * discriminate.
    + intros [= <- <-]. repeat split; auto. discriminate.
  - intros [= <- <-]. repeat split; auto. intros _. lia.
Qed.

(** X8. On a table with distinct column names, the repaired table has the
    same columns in the same order and of the same lengths; no entry that was
    present is changed; a categorical column comes back without absent
    entries and an identifier column comes back as it was. *)
Theorem handle_missing_values_frame (df out : DataFrame) (rep : MissingReport) :
  NoDup (columns df) ->
  handle_missing_values str_float df = Ok (out, rep) ->
  columns out = columns df /\
  forall c s, In (c, s) df ->
    exists s', df_get out c = Ok s' /\
      List.length s' = List.length s /\
      (forall i x, nth_error s i = Some x -> x <> NaN -> nth_error s' i = Some x) /\
      (classify c = Categorical -> isna_sum s' = 0) /\
      (classify c = Identifier -> s' = s).
Proof.
  intros Hnd H. rewrite handle_missing_values_spec in H by exact Hnd.
  split; [now destruct (repair_columns_report _ _ _ _ H)|].
  intros c s Hin.
  destruct (repair_columns_drop _ _ _ _ _ _ Hnd Hin H)
    as (s' & r & rep' & Hr & Hget & _).
  exists s'. split; [exact Hget|]. eapply repair_column_frame; eauto.
Qed.

Lemma all_absent_repair (c : string) (n : nat) :
  exists s' r, repair_column str_float c (repeat NaN n) = Ok (s', r).
Proof. apply repair_column_ok. intros _. left. apply all_absent_numeric. Qed.

Lemma In_drop_column (c c' : string) (s : Series) (df : DataFrame) :
  In (c', s) (drop_column c df) <-> In (c', s) df /\ c' <> c.
Proof.
  unfold drop_column. rewrite filter_In. simpl.
  destruct (String.eqb_spec c' c); split; intros (H & H'); split; auto;
    discriminate.
Qed.

(** C5. An all-absent float64 column comes back unchanged with no record.
    [handle_missing_values] returns on every table of at most one row (the
    empty and the single-row table), whatever its cells, and on every table
    whose ["age"] column is all-absent.  An all-absent column never is what
    makes it raise: a table holding one raises exactly when the table without
    that column does.  In general it returns unless some gap of the ["age"]
    column has a string as its nearest non-absent cell on one side and a
    non-absent cell on the other. *)
Theorem C5_degenerate_inputs :
  (forall n, interpolate_numeric str_float (repeat NaN n) = Ok (repeat NaN n, [])) /\
  (forall df, NoDup (columns df) ->
     (forall c s, In (c, s) df -> List.length s <= 1) ->
     exists out rep, handle_missing_values str_float df = Ok (out, rep)) /\
  (forall df n, NoDup (columns df) -> In ("age", repeat NaN n) df ->
     exists out rep, handle_missing_values str_float df = Ok (out, rep)) /\
  (forall df c n e, NoDup (columns df) -> In (c, repeat NaN n) df ->
     (handle_missing_values str_float df = Raise e <->
      handle_missing_values str_float (drop_column c df) = Raise e)) /\
  (forall df, NoDup (columns df) ->
     (forall s i L R cl cr, In ("age", s) df -> gap_at s i ->
        nearest_left s i L cl -> nearest_right s i R cr ->
        is_str cl || is_str cr = false) ->
     exists out rep, handle_missing_values str_float df = Ok (out, rep)).
Proof.
  split; [|split; [|split; [|split]]].
  - intros n. rewrite interpolate_numeric_no_interior.
    + now rewrite all_absent_interpolate.
    + apply all_absent_no_interior.
  - intros df Hnd Hlen. rewrite handle_missing_values_spec by exact Hnd.
    apply repair_columns_ok. intros c s Hin _.
    apply short_column. eapply Hlen; eauto.
  - intros df n Hnd Hage. rewrite handle_missing_values_spec by exact Hnd.
    apply repair_columns_ok. intros c s Hin Hk.
    apply classify_numeric in Hk. subst c.
    rewrite (column_unique df "age" s (repeat NaN n) Hnd Hin Hage).
    left. apply all_absent_numeric.
  - intros df c n e Hnd Hin.
    rewrite !handle_missing_values_spec by (auto using NoDup_drop_column).
    split; intros H; apply repair_columns_raise_inv in H;
      destruct H as (c' & s' & Hin' & H);
      pose proof (repair_column_raise_type _ _ _ H) as ->.
    + apply (repair_columns_raise_intro _ c' s'); [|exact H].
      apply In_drop_column. split; [exact Hin'|]. intros ->.
      rewrite (column_unique df c s' (repeat NaN n) Hnd Hin' Hin) in H.
      destruct (all_absent_repair c n) as (s0 & r0 & E). congruence.
    + apply (repair_columns_raise_intro _ c' s'); [|exact H].
      now apply In_drop_column in Hin'.
  - intros df Hnd Hage. rewrite handle_missing_values_spec by exact Hnd.
    destruct (repair_columns str_float df) as [[out rep]|e] eqn:E; [eauto|].
    exfalso. apply repair_columns_raise_inv in E.
    destruct E as (c & s & Hin & H). apply repair_column_raise in H.
    destruct H as (Hk & H). apply classify_numeric in Hk. subst c.
    apply interpolate_numeric_raise_inv in H.
    destruct H as (_ & i & L & R & cl & cr & Hi & NL & NR & Hs).
    rewrite (Hage s i L R cl cr Hin Hi NL NR) in Hs. discriminate.
Qed.

End CoordinatorExtras.

(** ** The records of the report *)

Lemma seq_filter_sorted (p : nat -> bool) (n a : nat) :
  StronglySorted lt (filter p (seq a n)).
Proof.
  revert a. induction n as [|n IH]; intros a; simpl; [constructor|].
  destruct (p a); [|apply IH]. constructor; [apply IH|].
  apply Forall_forall. intros x Hx. apply filter_In in Hx.
  destruct Hx as (Hx & _). apply in_seq in Hx. lia.
Qed.

Lemma flat_map_sorted {A : Type} (f : nat -> list A) (g : A -> nat) (l : list nat) :
  (forall i x, In x (f i) -> g x = i) ->
  (forall i, List.length (f i) <= 1) ->
  StronglySorted lt l -> StronglySorted lt (map g (flat_map f l)).
Proof.
  intros Hg Hlen Hs. induction Hs as [|i l Hs IH Hall]; simpl; [constructor|].
  rewrite map_app. specialize (Hlen i).
  destruct (f i) as [|x [|y rest]] eqn:E; simpl in *; [exact IH | | lia].
  constructor; [exact IH|]. rewrite (Hg i x) by (rewrite E; now left).
  apply Forall_forall. intros k Hk. apply in_map_iff in Hk.
  destruct Hk as (z & <- & Hz). apply in_flat_map in Hz.
  destruct Hz as (j & Hj & Hz). rewrite (Hg j z Hz).
  rewrite Forall_forall in Hall. now apply Hall.
Qed.

Lemma filter_combine_length (bs : list bool) (a : nat) :
  List.length (filter snd (combine (seq a (List.length bs)) bs))
  = List.length (filter (fun b => b) bs).
Proof.
  revert a. induction bs as [|b bs IH]; intros a; simpl; [reflexivity|].
  destruct b; simpl; now rewrite IH.
Qed.

Lemma missing_indices_length (series : Series) :
  List.length (filter (is_gap series) (seq 0 (List.length series)))
  = isna_sum series.
Proof.
  rewrite <- missing_indices_spec. unfold index_where, isna, labelled, isna_sum.
  rewrite length_map, filter_combine_length.
  induction series as [|c series IH]; simpl; [reflexivity|].
  destruct (isnull c); simpl; now rewrite IH.
Qed.

Section ReportRecords.

Variable str_float : float64 -> string.

Lemma interpolation_branch_index (i L R : nat) (cl cr : scalar)
    (r : InterpolationRecord) :
  interpolation_branch str_float i L R cl cr = Ok (Some r) -> missing_index r = i.
Proof.
  unfold interpolation_branch.
  destruct (py_truediv _ _) as [q|e]; cbn [bind]; [|discriminate].
  destruct (py_sub cr cl) as [d|e]; cbn [bind]; [|discriminate].
  destruct (py_mul d q) as [m|e]; cbn [bind]; [|discriminate].
  destruct (py_add cl m) as [a|e]; cbn [bind]; [|discriminate].
  destruct (py_round2 a) as [v|e]; cbn [bind]; [|discriminate].
  now intros [= <-].
Qed.

Lemma record_at_missing_index (series : Series) (i : nat) (r : InterpolationRecord) :
  In r (record_at str_float series i) -> missing_index r = i.
Proof.
  unfold record_at.
  destruct (calculate_interpolation_cases str_float series i)
    as [(_ & H) | (L & R & cl & cr & _ & _ & _ & _ & _ & _ & _ & _ & H)]; rewrite H.
  - contradiction.
  - destruct (interpolation_branch str_float i L R cl cr) as [[r'|]|e] eqn:E;
      simpl; try contradiction.
    intros [<-|[]]. eapply interpolation_branch_index; eauto.
Qed.

Lemma record_at_length (series : Series) (i : nat) :
  List.length (record_at str_float series i) <= 1.
Proof.
  unfold record_at.
  destruct (calculate_interpolation str_float series i) as [[r|]|e]; simpl; lia.
Qed.

Lemma flat_map_length_le {A B : Type} (f : A -> list B) (l : list A) :
  (forall x, List.length (f x) <= 1) ->
  List.length (flat_map f l) <= List.length l.
Proof.
  intros H. induction l as [|x l IH]; simpl; [lia|].
  rewrite length_app. specialize (H x). lia.
Qed.

Lemma records_sorted (series : Series) :
  let recs := flat_map (record_at str_float series)
                (filter (is_gap series) (seq 0 (List.length series))) in
  StronglySorted lt (map missing_index recs) /\
  List.length recs <= isna_sum series.
Proof.
  split.
  - apply flat_map_sorted.
    + intros i r. apply record_at_missing_index.
    + apply record_at_length.
    + apply seq_filter_sorted.
  - rewrite <- missing_indices_length.
    apply flat_map_length_le, record_at_length.
Qed.

(** X9. The records [interpolate_numeric] returns are listed by strictly
    ascending [missing_index], and there are at most as many as the column
    has absent entries. *)
Theorem records_ascending (series out : Series)
    (recs : list InterpolationRecord) :
  interpolate_numeric str_float series = Ok (out, recs) ->
  StronglySorted lt (map missing_index recs) /\
  List.length recs <= isna_sum series.
Proof.
  intros H. apply interpolate_numeric_inv in H. destruct H as (_ & ->).
  apply records_sorted.
Qed.

Lemma repair_column_details (c : string) (s s' : Series) (r : MissingReport) :
  repair_column str_float c s = Ok (s', r) ->
  (interpolation_details r = [] /\ numeric_fields_missing r <= isna_sum s) \/
  (c = "age" /\ numeric_fields_missing r = isna_sum s /\
   exists recs, interpolate_numeric str_float s = Ok (s', recs) /\
     interpolation_details r = map (mkDetail "age") recs).
Proof.
  unfold repair_column. destruct (0 <? isna_sum s).
  - destruct (classify c) eqn:Hk.
    + destruct (interpolate_numeric str_float s) as [[s1 recs]|e]; simpl; [|discriminate].
      intros [= <- <-]. right. apply classify_numeric in Hk. subst c.
      simpl. eauto.
    + intros [= <- <-]. left. simpl. split; [reflexivity | lia].
    + intros [= <- <-]. left. simpl. split; [reflexivity | lia].
  - intros [= <- <-]. left. simpl. split; [reflexivity | lia].
Qed.

Lemma repair_columns_no_age (df out : DataFrame) (rep : MissingReport) :
  ~ In "age" (columns df) -> repair_columns str_float df = Ok (out, rep) ->
  interpolation_details rep = [] /\ numeric_fields_missing rep = 0.
Proof.
  revert out rep. induction df as [|[c s] rest IH]; intros out rep Hno H.
  - simpl in H. injection H as <- <-. auto.
  - apply repair_columns_cons in H.
    destruct H as (s' & r & out' & rs & Hr & Hrs & -> & ->).
    simpl in Hno. destruct (IH _ _ (fun H => Hno (or_intror H)) Hrs) as (Hd & Hn).
    unfold repair_column in Hr.
    assert (Hk : classify c <> Numeric).
    { intros Hk. apply classify_numeric in Hk. tauto. }
    destruct (0 <? isna_sum s); [destruct (classify c); try congruence|];
      injection Hr as <- <-; simpl; now rewrite Hd, Hn.
Qed.

(** X10. In the report of a table with distinct column names every
    interpolation record is tagged ["age"], the records are listed by strictly
    ascending row index, and they are at most [numeric_fields_missing]. *)
Theorem report_records_of_age (df out : DataFrame) (rep : MissingReport) :
  NoDup (columns df) ->
  handle_missing_values str_float df = Ok (out, rep) ->
  (forall d, In d (interpolation_details rep) -> column d = "age") /\
  StronglySorted lt
    (map (fun d => missing_index (detail d)) (interpolation_details rep)) /\
  List.length (interpolation_details rep) <= numeric_fields_missing rep.
Proof.
  intros Hnd H. rewrite handle_missing_values_spec in H by exact Hnd.
  revert out rep H. induction df as [|[c s] rest IH]; intros out rep H.
  - simpl in H. injection H as <- <-. simpl. repeat split; [contradiction | constructor | lia].
  - simpl in Hnd. inversion Hnd as [|? ? Hc Hnd']; subst.
    apply repair_columns_cons in H.
    destruct H as (s' & r & out' & rs & Hr & Hrs & -> & ->).
    destruct (repair_column_details _ _ _ _ Hr)
      as [(Hd & _) | (-> & Hn & recs & Hrecs & Hd)]; simpl; rewrite Hd; simpl.
    + destruct (IH Hnd' _ _ Hrs) as (H1 & H2 & H3). repeat split; auto. lia.
    + destruct (repair_columns_no_age _ _ _ Hc Hrs) as (Hd' & Hn').
      rewrite Hd', app_nil_r, Hn, Hn', Nat.add_0_r, length_map, map_map.
      apply interpolate_numeric_inv in Hrecs. destruct Hrecs as (_ & ->).
      destruct (records_sorted s) as (Hsorted & Hlen).
      repeat split; auto.
      intros d Hd''. apply in_map_iff in Hd''. now destruct Hd'' as (x & <- & _).
Qed.

End ReportRecords.

(** ** The report with any number of records *)

Lemma substring_trans (a b c : string) :
  substring_of a b -> substring_of b c -> substring_of a c.
Proof.
  intros Hab (pre & post & ->). now apply substring_app_l, substring_app_r.
Qed.

Lemma substring_refl (a : string) : substring_of a a.
Proof. exists EmptyString, EmptyString. simpl. now rewrite string_app_nil_r. Qed.

Lemma concat_contains (sep x : string) (l : list string) :
  In x l -> substring_of x (String.concat sep l).
Proof.
  induction l as [|y l IH]; [contradiction|]. intros Hin. simpl.
  destruct l as [|z l'].
  - destruct Hin as [->|[]]. apply substring_refl.
  - destruct Hin as [->|Hin].
    + apply substring_here.
    + apply substring_app_l, substring_app_l. now apply IH.
Qed.

Section ReportText.

Variable str_float : float64 -> string.

(** X11. Whatever the number of records, the rendered report contains, for
    every entry of [interpolation_details], its column name, its three
    indices, its left and right values, its calculation text and its
    interpolated value. *)
Theorem report_lists_every_record (report : ValidationReport) (item : Detail) :
  In item (interpolation_details (missing_data report)) ->
  let r := detail item in
  let text := generate_report str_float report in
  substring_of (column item) text /\
  substring_of (str_int (missing_index r)) text /\
  substring_of (str_int (left_index r)) text /\
  substring_of (str_scalar str_float (left_value r)) text /\
  substring_of (str_int (right_index r)) text /\
  substring_of (str_scalar str_float (right_value r)) text /\
  substring_of (calculation r) text /\
  substring_of (str_scalar str_float (interpolated_value r)) text.
Proof.
  intros Hin r text. subst r text.
  assert (Hblock : substring_of (format_detail str_float item)
                     (generate_report str_float report)).
  { unfold generate_report, _format_interpolation_details.
    apply substring_app_l, substring_app_r.
    destruct (interpolation_details (missing_data report)) as [|d ds] eqn:E;
      [contradiction|].
    apply concat_contains. now apply in_map. }
  repeat split; (eapply substring_trans; [|exact Hblock]);
    unfold format_detail; cbv zeta; find_substring.
Qed.

End ReportText.

(** ** Repairing a repaired table *)

Lemma filter_length_mono {A : Type} (p q : A -> bool) (l : list A) :
  (forall x, In x l -> p x = true -> q x = true) ->
  List.length (filter p l) <= List.length (filter q l).
Proof.
  induction l as [|x l IH]; intros H; simpl; [lia|].
  assert (IH' : List.length (filter p l) <= List.length (filter q l)).
  { apply IH. intros y Hy. apply H. now right. }
  destruct (p x) eqn:Hp.
  - rewrite (H x (or_introl eq_refl) Hp). simpl. lia.
  - destruct (q x); simpl; lia.
Qed.

Section SecondPass.

Variable str_float : float64 -> string.

Lemma repaired_gaps_le (series out : Series) (recs : list InterpolationRecord) :
  numeric_column series -> finite_column series ->
  interpolate_numeric str_float series = Ok (out, recs) ->
  isna_sum out <= isna_sum series.
Proof.
  intros Hnum Hfin H. apply interpolate_numeric_inv in H. destruct H as (-> & _).
  destruct (interpolated_shape _ Hnum Hfin) as (Hlen & _ & Hgap).
  rewrite <- !missing_indices_length, Hlen.
  apply filter_length_mono. intros i _ Hi.
  apply is_gap_iff. apply is_gap_iff in Hi. now apply Hgap in Hi.
Qed.

Lemma repair_column_again (c : string) (s s' : Series) (r : MissingReport) :
  (classify c = Numeric -> numeric_column s /\ finite_column s) ->
  repair_column str_float c s = Ok (s', r) ->
  exists r2,
    repair_column str_float c s' = Ok (s', r2) /\
    categorical_fields_missing r2 = 0 /\
    interpolation_details r2 = [] /\
    numeric_fields_missing r2 <= numeric_fields_missing r.
Proof.
  intros Hnum H. unfold repair_column in H.
  destruct (Nat.ltb_spec 0 (isna_sum s)) as [Hpos|Hzero].
  - destruct (classify c) eqn:Hk.
    + destruct (interpolate_numeric str_float s) as [[s1 recs]|e] eqn:E; simpl in H;
        [|discriminate].
      injection H as <- <-. simpl.
      destruct (Hnum eq_refl) as (Hn & Hf).
      pose proof (repaired_gaps_le _ _ _ Hn Hf E) as Hle.
      apply interpolate_numeric_inv in E. destruct E as (-> & _).
      pose proof (interpolated_again str_float _ Hn Hf) as E2.
      unfold repair_column. rewrite Hk, E2. simpl.
      destruct (0 <? isna_sum (Series_interpolate s)); eexists;
        (split; [reflexivity|]); simpl; repeat split; auto; lia.
    + injection H as <- <-. unfold repair_column.
      rewrite (fill_categorical_no_gap s). simpl.
      eexists. split; [reflexivity|]. simpl. repeat split; lia.
    + injection H as <- <-. unfold repair_column. rewrite Hk.
      destruct (0 <? isna_sum s); eexists; (split; [reflexivity|]); simpl;
        repeat split; lia.
  - injection H as <- <-. unfold repair_column.
    destruct (Nat.ltb_spec 0 (isna_sum s)); [lia|].
    eexists. split; [reflexivity|]. simpl. repeat split; lia.
Qed.

Lemma repair_columns_again (df out : DataFrame) (rep : MissingReport) :
  (forall s, In ("age", s) df -> numeric_column s /\ finite_column s) ->
  repair_columns str_float df = Ok (out, rep) ->
  exists rep2,
    repair_columns str_float out = Ok (out, rep2) /\
    categorical_fields_missing rep2 = 0 /\
    interpolation_details rep2 = [] /\
    numeric_fields_missing rep2 <= numeric_fields_missing rep.
Proof.
  revert out rep. induction df as [|[c s] rest IH]; intros out rep Hage H.
  - simpl in H. injection H as <- <-. exists empty_missing_report. simpl. auto.
  - apply repair_columns_cons in H.
    destruct H as (s' & r & out' & rs & Hr & Hrs & -> & ->).
    destruct (repair_column_again c s s' r) as (r2 & Hr2 & Hc2 & Hd2 & Hn2); auto.
    { intros Hk. apply classify_numeric in Hk. subst c. apply Hage. now left. }
    destruct (IH out' rs) as (rs2 & Hrs2 & Hc & Hd & Hn); auto.
    { intros s0 Hin. apply Hage. now right. }
    exists (merge_reports r2 rs2). simpl. rewrite Hr2, Hrs2. simpl.
    rewrite Hc2, Hc, Hd2, Hd. repeat split; auto. lia.
Qed.

(** X12. Repair is stable: when the ["age"] column is a float64 column of
    finite numbers, running [handle_missing_values] on the repaired table
    returns the same table, with no categorical gap, no interpolation record,
    and at most as many numeric gaps as the first run counted. *)
Theorem handle_missing_values_again (df out : DataFrame) (rep : MissingReport) :
  NoDup (columns df) ->
  (forall s, In ("age", s) df -> numeric_column s /\ finite_column s) ->
  handle_missing_values str_float df = Ok (out, rep) ->
  exists rep2,
    handle_missing_values str_float out = Ok (out, rep2) /\
    categorical_fields_missing rep2 = 0 /\
    interpolation_details rep2 = [] /\
    numeric_fields_missing rep2 <= numeric_fields_missing rep.
Proof.
  intros Hnd Hage H. rewrite handle_missing_values_spec in H by exact Hnd.
  assert (Hcols : columns out = columns df)
    by now destruct (repair_columns_report _ _ _ _ H).
  rewrite handle_missing_values_spec by (rewrite Hcols; exact Hnd).
  eapply repair_columns_again; eauto.
Qed.

End SecondPass.


(** * remove_duplicates *)

Lemma cells_eqb_refl (r : list scalar) : cells_eqb r r = true.
Proof.
  induction r as [|a r IH]; simpl; [reflexivity|].
  now rewrite scalar_eqb_refl, IH.
Qed.

Lemma cells_eqb_sym (r1 r2 : list scalar) : cells_eqb r1 r2 = cells_eqb r2 r1.
Proof.
  revert r2. induction r1 as [|a r1 IH]; intros [|b r2]; simpl; try reflexivity.
  now rewrite scalar_eqb_sym, IH.
Qed.

Lemma cells_eqb_trans (r1 r2 r3 : list scalar) :
  cells_eqb r1 r2 = true -> cells_eqb r2 r3 = true -> cells_eqb r1 r3 = true.
Proof.
  revert r2 r3. induction r1 as [|a r1 IH]; intros [|b r2] [|c r3]; simpl;
    try congruence.
  rewrite !andb_true_iff. intros (H1 & H2) (H3 & H4). split.
  - eapply scalar_eqb_trans; eauto.
  - eapply IH; eauto.
Qed.

Lemma nth_take_rows (idxs : list nat) (series : Series) (k : nat) :
  k < List.length idxs ->
  nth k (take_rows idxs series) NaN = nth (nth k idxs 0) series NaN.
Proof.
  intros Hk. unfold take_rows.
  rewrite (nth_indep _ NaN (nth 0 series NaN)) by (now rewrite length_map).
  now rewrite (map_nth (fun i => nth i series NaN)).
Qed.

Lemma row_drop_duplicates (df : DataFrame) (k : nat) :
  k < List.length (kept_rows df) ->
  row (drop_duplicates df) k = row df (nth k (kept_rows df) 0).
Proof.
  intros Hk. unfold row, drop_duplicates. rewrite map_map.
  apply map_ext. intros p. simpl. now apply nth_take_rows.
Qed.

Lemma nrows_drop_duplicates (df : DataFrame) :
  nrows (drop_duplicates df) = List.length (kept_rows df).
Proof.
  destruct df as [|[c s] rest]; [reflexivity|].
  unfold drop_duplicates, take_rows. simpl. now rewrite length_map.
Qed.

Lemma columns_drop_duplicates (df : DataFrame) :
  columns (drop_duplicates df) = columns df.
Proof. unfold columns, drop_duplicates. rewrite map_map. reflexivity. Qed.

Lemma rectangular_drop_duplicates (df : DataFrame) :
  rectangular (drop_duplicates df).
Proof.
  intros c s Hin. rewrite nrows_drop_duplicates.
  unfold drop_duplicates in Hin. apply in_map_iff in Hin.
  destruct Hin as (p & [= <- <-] & _). unfold take_rows. apply length_map.
Qed.

Lemma kept_rows_In (df : DataFrame) (i : nat) :
  In i (kept_rows df) <-> i < nrows df /\ duplicated df i = false.
Proof.
  unfold kept_rows. rewrite filter_In, in_seq, negb_true_iff. intuition lia.
Qed.

Lemma not_duplicated (df : DataFrame) (i j : nat) :
  duplicated df i = false -> j < i ->
  cells_eqb (row df j) (row df i) = false.
Proof.
  unfold duplicated. intros H Hj.
  destruct (cells_eqb (row df j) (row df i)) eqn:E; [|reflexivity].
  assert (existsb (fun j => cells_eqb (row df j) (row df i)) (seq 0 i) = true).
  { apply existsb_exists. exists j. split; [apply in_seq; lia | exact E]. }
  congruence.
Qed.

Lemma sorted_nth (l : list nat) (i j : nat) :
  StronglySorted lt l -> i < j -> j < List.length l -> nth i l 0 < nth j l 0.
Proof.
  intros Hs. revert i j. induction Hs as [|a l Hs IH Hall]; intros i j Hij Hj;
    simpl in Hj; [lia|].
  destruct j as [|j]; [lia|]. destruct i as [|i]; simpl.
  - rewrite Forall_forall in Hall. apply Hall, nth_In. lia.
  - apply IH; lia.
Qed.

(** X13. [remove_duplicates] keeps the columns and returns a rectangular
    table; the rows removed and the rows left add up to the rows received,
    [total_duplicates] is the number of rows that repeat an earlier row, and
    [conflicting_records] is always 0. *)
Theorem remove_duplicates_counts (df : DataFrame) :
  let out := fst (remove_duplicates df) in
  let rep := snd (remove_duplicates df) in
  columns out = columns df /\
  rectangular out /\
  total_duplicates rep + nrows out = nrows df /\
  total_duplicates rep
  = List.length (filter (duplicated df) (seq 0 (nrows df))) /\
  conflicting_records rep = 0.
Proof.
  simpl. rewrite nrows_drop_duplicates.
  pose proof (filter_length (duplicated df) (seq 0 (nrows df))) as H.
  rewrite length_seq in H. fold (kept_rows df) in H.
  split; [apply columns_drop_duplicates|].
  split; [apply rectangular_drop_duplicates|].
  repeat split; lia.
Qed.

Lemma drop_duplicates_distinct (df : DataFrame) (i j : nat) :
  i < j -> j < nrows (drop_duplicates df) ->
  cells_eqb (row (drop_duplicates df) i) (row (drop_duplicates df) j) = false.
Proof.
  rewrite nrows_drop_duplicates. intros Hij Hj.
  rewrite !row_drop_duplicates by lia.
  assert (Hin : In (nth j (kept_rows df) 0) (kept_rows df)) by (apply nth_In; lia).
  apply kept_rows_In in Hin. destruct Hin as (_ & Hnd).
  apply not_duplicated; [exact Hnd|].
  apply sorted_nth; [apply seq_filter_sorted | lia | lia].
Qed.

(** X14. After [remove_duplicates] no two rows hold the same cells. *)
Theorem remove_duplicates_distinct (df : DataFrame) (i j : nat) :
  i < j -> j < nrows (fst (remove_duplicates df)) ->
  cells_eqb (row (fst (remove_duplicates df)) i)
            (row (fst (remove_duplicates df)) j) = false.
Proof.
  unfold remove_duplicates. cbn [fst]. intros Hij Hj.
  now apply drop_duplicates_distinct.
Qed.

Lemma first_occurrence_kept (df : DataFrame) (i : nat) :
  i < nrows df ->
  exists k, In k (kept_rows df) /\ k <= i /\
    cells_eqb (row df k) (row df i) = true.
Proof.
  induction i as [i IH] using lt_wf_ind. intros Hi.
  destruct (duplicated df i) eqn:E.
  - unfold duplicated in E. apply existsb_exists in E.
    destruct E as (j & Hj & Heq). apply in_seq in Hj.
    destruct (IH j) as (k & Hk & Hkj & Hkeq); [lia | lia|].
    exists k. repeat split; auto; [lia|].
    eapply cells_eqb_trans; eauto.
  - exists i. repeat split; auto.
    + apply kept_rows_In. auto.
    + apply cells_eqb_refl.
Qed.

(** X15. [remove_duplicates] loses no row and keeps the order: every row of
    the table received equals a row of the result that stood at or before its
    position, and the rows of the result are rows of the table received,
    taken at strictly ascending positions. *)
Theorem remove_duplicates_keeps_first (df : DataFrame) :
  let out := fst (remove_duplicates df) in
  (forall i, i < nrows df ->
     exists k, k < nrows out /\ nth k (kept_rows df) 0 <= i /\
       cells_eqb (row out k) (row df i) = true) /\
  (forall k, k < nrows out ->
     nth k (kept_rows df) 0 < nrows df /\
     row out k = row df (nth k (kept_rows df) 0)) /\
  StronglySorted lt (kept_rows df).
Proof.
  simpl. rewrite nrows_drop_duplicates. split; [|split].
  - intros i Hi. destruct (first_occurrence_kept df i Hi) as (p & Hp & Hpi & Heq).
    destruct (In_nth _ _ 0 Hp) as (k & Hk & Hnth).
    exists k. rewrite row_drop_duplicates, Hnth by exact Hk. auto.
  - intros k Hk. split; [|now apply row_drop_duplicates].
    assert (Hin : In (nth k (kept_rows df) 0) (kept_rows df)) by (apply nth_In; lia).
    now apply kept_rows_In in Hin.
  - apply seq_filter_sorted.
Qed.

Lemma take_rows_all (series : Series) :
  take_rows (seq 0 (List.length series)) series = series.
Proof.
  unfold take_rows. apply nth_error_ext. intros i.
  rewrite nth_error_map, nth_error_seq.
  destruct (Nat.ltb_spec i (List.length series)) as [Hlt|Hge]; simpl.
  - symmetry. now apply nth_error_nth'.
  - symmetry. now apply nth_error_None.
Qed.

Lemma kept_rows_all (df : DataFrame) :
  (forall i j, i < j -> j < nrows df ->
     cells_eqb (row df i) (row df j) = false) ->
  kept_rows df = seq 0 (nrows df).
Proof.
  intros H. unfold kept_rows. rewrite <- (filter_true (seq 0 (nrows df))) at 2.
  apply filter_ext_in. intros i Hi. apply in_seq in Hi.
  apply negb_true_iff. unfold duplicated.
  destruct (existsb _ (seq 0 i)) eqn:E; [|reflexivity].
  apply existsb_exists in E. destruct E as (j & Hj & Heq). apply in_seq in Hj.
  rewrite H in Heq by lia. discriminate.
Qed.

Lemma drop_duplicates_fixed (df : DataFrame) :
  rectangular df ->
  (forall i j, i < j -> j < nrows df ->
     cells_eqb (row df i) (row df j) = false) ->
  drop_duplicates df = df.
Proof.
  intros Hrect Hdist. unfold drop_duplicates. rewrite (kept_rows_all df Hdist).
  transitivity (map (fun p : string * Series => p) df); [|apply map_id].
  apply map_ext_in. intros [c s] Hin. simpl.
  rewrite <- (Hrect c s Hin). now rewrite take_rows_all.
Qed.

(** X16. A rectangular table without two equal rows passes through
    [remove_duplicates] unchanged, with [total_duplicates] 0. *)
Theorem remove_duplicates_nothing_to_remove (df : DataFrame) :
  rectangular df ->
  (forall i j, i < j -> j < nrows df ->
     cells_eqb (row df i) (row df j) = false) ->
  remove_duplicates df
  = (df, {| total_duplicates := 0; conflicting_records := 0 |}).
Proof.
  intros Hrect Hdist. unfold remove_duplicates.
  rewrite (drop_duplicates_fixed df Hrect Hdist), Nat.sub_diag. reflexivity.
Qed.

(** X17. [remove_duplicates] is idempotent: applied to its own result it
    returns that table again and counts no duplicate. *)
Theorem remove_duplicates_idempotent (df : DataFrame) :
  remove_duplicates (fst (remove_duplicates df))
  = (fst (remove_duplicates df),
     {| total_duplicates := 0; conflicting_records := 0 |}).
Proof.
  unfold remove_duplicates. cbn [fst].
  rewrite (drop_duplicates_fixed (drop_duplicates df)).
  - now rewrite Nat.sub_diag.
  - apply rectangular_drop_duplicates.
  - intros i j Hij Hj. now apply drop_duplicates_distinct.
Qed.

(** * normalize_text and normalize_data_types *)

Lemma classify_categorical (c : string) : classify c = Categorical <-> c = "name".
Proof.
  unfold classify. destruct (String.eqb_spec c "age") as [->|Hage].
  - split; discriminate.
  - destruct (String.eqb_spec c "name") as [->|Hname]; split; congruence.
Qed.

Lemma classify_age (c : string) : classify c = Numeric <-> c = "age".
Proof.
  split; [apply classify_numeric | now intros ->].
Qed.

Lemma df_get_In (df : DataFrame) (c : string) (s : Series) :
  df_get df c = Ok s -> In (c, s) df.
Proof.
  induction df as [|[c0 s0] df IH]; simpl; [discriminate|].
  destruct (String.eqb_spec c0 c) as [->|_].
  - intros [= ->]. now left.
  - intros H. right. now apply IH.
Qed.

Lemma In_df_get (df : DataFrame) (c : string) (s : Series) :
  NoDup (columns df) -> In (c, s) df -> df_get df c = Ok s.
Proof.
  induction df as [|[c0 s0] df IH]; [contradiction|]. intros Hnd Hin.
  simpl in Hnd. inversion Hnd as [|? ? Hc0 Hnd']; subst. simpl.
  destruct Hin as [[= -> ->]|Hin].
  - now rewrite String.eqb_refl.
  - destruct (String.eqb_spec c0 c) as [->|_]; [|now apply IH].
    exfalso. apply Hc0. eapply In_columns; eauto.
Qed.


Section Normalize.

Variable str_lower : string -> string.
Variable parse_float : string -> option float64.
Variable empty_is_object : bool.

Local Abbreviation norm_one :=
  (normalize_one str_lower parse_float empty_is_object).
Local Abbreviation norm_all :=
  (normalize_all str_lower parse_float empty_is_object).

Lemma normalize_text_raise_iff (series : Series) (e : exception) :
  normalize_text str_lower empty_is_object series = Raises e <->
  e = AttributeError /\ numeric_column series /\
  (series = [] -> empty_is_object = false).
Proof.
  unfold normalize_text, numeric_column. destruct series as [|c rest].
  - destruct empty_is_object; split.
    + discriminate.
    + intros (_ & _ & H). discriminate (H eq_refl).
    + intros [= <-]. auto.
    + intros (-> & _). reflexivity.
  - destruct (is_object_dtype (c :: rest)); split.
    + discriminate.
    + intros (_ & H & _). discriminate.
    + intros [= <-]. repeat split. discriminate.
    + intros (-> & _). reflexivity.
Qed.

Lemma normalize_text_returns (series out : Series) :
  normalize_text str_lower empty_is_object series = Returns out ->
  out = map (str_lower_cell str_lower) series.
Proof.
  unfold normalize_text. destruct series as [|c rest].
  - destruct empty_is_object; [now intros [= <-] | discriminate].
  - destruct (is_object_dtype (c :: rest)); [now intros [= <-] | discriminate].
Qed.



Lemma normalize_column_spec (pre rest : DataFrame) (rep : Normalization)
    (c : string) (s : Series) :
  ~ In c (columns pre) ->
  normalize_column str_lower parse_float empty_is_object
    (pre ++ (c, s) :: rest, rep) (c, classify c)
  = (s' <~ norm_one c s ;;
     Returns (pre ++ (c, s') :: rest,
              {| text_fields :=
                   text_fields rep || kind_eqb (classify c) Categorical;
                 numeric_fields :=
                   numeric_fields rep || kind_eqb (classify c) Numeric |})).
Proof.
  intros Hpre. unfold normalize_column, normalize_one.
  destruct (classify c); simpl.
  - rewrite df_get_app by exact Hpre. simpl. rewrite df_set_app by exact Hpre.
    now rewrite orb_false_r, orb_true_r.
  - rewrite df_get_app by exact Hpre. simpl.
    destruct (normalize_text str_lower empty_is_object s); simpl; [|reflexivity].
    rewrite df_set_app by exact Hpre. now rewrite orb_false_r, orb_true_r.
  - rewrite !orb_false_r. now destruct rep.
Qed.

Lemma normalize_loop_spec (rest pre : DataFrame) (rep : Normalization) :
  NoDup (columns rest) ->
  (forall c, In c (columns rest) -> ~ In c (columns pre)) ->
  normalize_loop str_lower parse_float empty_is_object
    (map (fun column => (column, classify column)) (columns rest))
    (pre ++ rest, rep)
  = (rest' <~ norm_all rest ;;
     Returns (pre ++ rest',
              {| text_fields := text_fields rep || has_kind Categorical rest;
                 numeric_fields := numeric_fields rep || has_kind Numeric rest |})).
Proof.
  revert pre rep. induction rest as [|[c s] rest IH]; intros pre rep Hnd Hpre.
  - simpl. rewrite !orb_false_r, app_nil_r. now destruct rep.
  - simpl in Hnd. inversion Hnd as [|? ? Hc Hnd']; subst.
    cbn [columns map fst normalize_loop normalize_all].
    rewrite normalize_column_spec by (apply Hpre; now left).
    destruct (norm_one c s) as [s'|e]; simpl; [|reflexivity].
    change (pre ++ (c, s') :: rest) with (pre ++ [(c, s')] ++ rest).
    rewrite app_assoc. fold (columns rest). rewrite IH.
    + destruct (norm_all rest) as [rest'|e]; simpl; [|reflexivity].
      now rewrite <- app_assoc, <- !orb_assoc.
    + exact Hnd'.
    + intros c' Hc' Hin. unfold columns in Hin. rewrite map_app in Hin.
      apply in_app_or in Hin. destruct Hin as [Hin|[<-|[]]].
      * apply (Hpre c'); [now right | exact Hin].
      * exact (Hc Hc').
Qed.

(** With pairwise distinct column names, the loop normalizes every column
    on its own. *)
Lemma normalize_data_types_spec (df : DataFrame) :
  NoDup (columns df) ->
  normalize_data_types str_lower parse_float empty_is_object df
  = (out <~ norm_all df ;;
     Returns (out, {| text_fields := has_kind Categorical df;
                      numeric_fields := has_kind Numeric df |})).
Proof.
  intros Hnd. unfold normalize_data_types, detect_data_types.
  rewrite (normalize_loop_spec df [] _ Hnd); [reflexivity|].
  intros c _ [].
Qed.

Lemma has_kind_iff (k : ColumnKind) (df : DataFrame) :
  has_kind k df = true <-> exists c, In c (columns df) /\ classify c = k.
Proof.
  unfold has_kind. rewrite existsb_exists. split.
  - intros ([c s] & Hin & Hk). exists c. split; [eapply In_columns; eauto|].
    simpl in Hk. destruct (classify c), k; simpl in Hk; congruence.
  - intros (c & Hc & Hk). unfold columns in Hc. apply in_map_iff in Hc.
    destruct Hc as ([c' s] & Hfst & Hin). simpl in Hfst. subst c'.
    exists (c, s). split; [exact Hin|]. simpl. rewrite Hk. now destruct k.
Qed.

Lemma normalize_all_cons (c : string) (s : Series) (rest out : DataFrame) :
  norm_all ((c, s) :: rest) = Returns out ->
  exists s' out',
    norm_one c s = Returns s' /\ norm_all rest = Returns out' /\
    out = (c, s') :: out'.
Proof.
  simpl. destruct (norm_one c s) as [s'|e]; simpl; [|discriminate].
  destruct (norm_all rest) as [out'|e]; simpl; [|discriminate].
  intros [= <-]. eauto.
Qed.

Lemma normalize_all_columns (df out : DataFrame) :
  norm_all df = Returns out -> columns out = columns df.
Proof.
  revert out. induction df as [|[c s] rest IH]; intros out H.
  - simpl in H. now injection H as <-.
  - apply normalize_all_cons in H. destruct H as (s' & out' & _ & Hrest & ->).
    simpl. now rewrite (IH _ Hrest).
Qed.

Lemma normalize_all_column (df out : DataFrame) (c : string) (s : Series) :
  NoDup (columns df) -> norm_all df = Returns out -> In (c, s) df ->
  exists s', norm_one c s = Returns s' /\ df_get out c = Ok s'.
Proof.
  revert out. induction df as [|[c0 s0] rest IH]; intros out Hnd H Hin;
    [contradiction|].
  simpl in Hnd. inversion Hnd as [|? ? Hc0 Hnd']; subst.
  apply normalize_all_cons in H. destruct H as (s0' & out' & H0 & Hrest & ->).
  destruct Hin as [[= -> ->]|Hin].
  - exists s0'. simpl. now rewrite String.eqb_refl.
  - destruct (IH _ Hnd' Hrest Hin) as (s' & Hs' & Hget).
    exists s'. split; [exact Hs'|]. simpl.
    destruct (String.eqb_spec c0 c) as [->|_]; [|exact Hget].
    exfalso. apply Hc0. eapply In_columns; eauto.
Qed.

Lemma to_numeric_numeric (s : Series) : numeric_column (to_numeric parse_float s).
Proof.
  apply not_object_forall. intros c Hc. unfold to_numeric in Hc.
  apply in_map_iff in Hc. destruct Hc as (c0 & <- & _).
  destruct c0 as [|x|t]; simpl; try reflexivity.
  destruct (parse_float t); [apply cell_not_str | reflexivity].
Qed.

Lemma to_numeric_float (s : Series) :
  numeric_column s -> to_numeric parse_float s = s.
Proof.
  intros H. unfold to_numeric. rewrite <- (map_id s) at 2.
  apply map_ext_in. intros c Hc.
  pose proof (proj1 (not_object_forall s) H c Hc) as Hs.
  destruct c; simpl in *; congruence.
Qed.

(** X19. On a table with distinct column names on which it returns,
    [normalize_data_types] keeps the columns, their order and their lengths;
    it leaves every column other than ["age"] and ["name"] as it was; the
    ["age"] column comes back without any string, and unchanged when it held
    none; and the two flags tell whether the table has a ["name"] and an
    ["age"] column. *)
Theorem normalize_data_types_frame (df out : DataFrame) (rep : Normalization) :
  NoDup (columns df) ->
  normalize_data_types str_lower parse_float empty_is_object df = Returns (out, rep) ->
  columns out = columns df /\
  (forall c s, In (c, s) df ->
     exists s', df_get out c = Ok s' /\
       List.length s' = List.length s /\
       (c <> "age" -> c <> "name" -> s' = s) /\
       (c = "age" -> numeric_column s' /\ (numeric_column s -> s' = s)) /\
       (c = "name" -> normalize_text str_lower empty_is_object s = Returns s')) /\
  (text_fields rep = true <-> In "name" (columns df)) /\
  (numeric_fields rep = true <-> In "age" (columns df)).
Proof.
  intros Hnd H. rewrite normalize_data_types_spec in H by exact Hnd.
  destruct (norm_all df) as [out'|e] eqn:E; simpl in H; [|discriminate].
  injection H as <- <-. simpl.
  split; [now apply normalize_all_columns|]. split; [|split].
  - intros c s Hin.
    destruct (normalize_all_column _ _ _ _ Hnd E Hin) as (s' & Hone & Hget).
    exists s'. split; [exact Hget|]. unfold normalize_one in Hone.
    destruct (classify c) eqn:Hk.
    + injection Hone as <-. apply classify_age in Hk. subst c.
      split; [apply length_map|]. split; [congruence|]. split; [|discriminate].
      intros _. split; [apply to_numeric_numeric | apply to_numeric_float].
    + apply classify_categorical in Hk. subst c.
      split; [apply normalize_text_returns in Hone; subst s'; apply length_map|].
      split; [congruence|]. split; [discriminate|]. auto.
    + injection Hone as <-. split; [reflexivity|]. split; [reflexivity|].
      split; intros ->; discriminate.
  - rewrite has_kind_iff. split.
    + intros (c & Hc & Hk). apply classify_categorical in Hk. now subst c.
    + intros Hc. exists "name". auto.
  - rewrite has_kind_iff. split.
    + intros (c & Hc & Hk). apply classify_age in Hk. now subst c.
    + intros Hc. exists "age". auto.
Qed.

Lemma normalize_all_raise_inv (df : DataFrame) (e : exception) :
  norm_all df = Raises e ->
  exists c s, In (c, s) df /\ norm_one c s = Raises e.
Proof.
  induction df as [|[c s] rest IH]; simpl; [discriminate|].
  destruct (norm_one c s) as [s'|e'] eqn:E; simpl.
  - destruct (norm_all rest) as [out|e'']; simpl; [discriminate|].
    intros [= ->]. destruct IH as (c' & s0 & Hin & H); [reflexivity|].
    exists c', s0. split; [now right | exact H].
  - intros [= ->]. exists c, s. split; [now left | exact E].
Qed.

Lemma normalize_one_raise (c : string) (s : Series) (e : exception) :
  norm_one c s = Raises e <->
  e = AttributeError /\ c = "name" /\ numeric_column s /\
  (s = [] -> empty_is_object = false).
Proof.
  unfold normalize_one. destruct (classify c) eqn:Hk.
  - split; [discriminate|]. intros (_ & -> & _). discriminate.
  - rewrite normalize_text_raise_iff.
    apply classify_categorical in Hk. tauto.
  - split; [discriminate|]. intros (_ & -> & _). discriminate.
Qed.

Lemma normalize_all_raise_intro (df : DataFrame) (c : string) (s : Series) :
  In (c, s) df -> norm_one c s = Raises AttributeError ->
  norm_all df = Raises AttributeError.
Proof.
  induction df as [|[c0 s0] rest IH]; intros Hin H; [contradiction|]. simpl.
  destruct (norm_one c0 s0) as [s'|e] eqn:E; simpl.
  - destruct Hin as [[= -> ->]|Hin]; [congruence|]. now rewrite (IH Hin H).
  - apply normalize_one_raise in E. now destruct E as (-> & _).
Qed.

(** X20. On a table with distinct column names, [normalize_data_types]
    raises exactly when the ["name"] column is not an object column (it holds
    a cell and no string, or it is an empty float64 column), and the
    exception is [AttributeError]. *)
Theorem normalize_data_types_raises (df : DataFrame) (e : exception) :
  NoDup (columns df) ->
  (normalize_data_types str_lower parse_float empty_is_object df = Raises e <->
   e = AttributeError /\
   exists s, In ("name", s) df /\ numeric_column s /\
     (s = [] -> empty_is_object = false)).
Proof.
  intros Hnd. rewrite normalize_data_types_spec by exact Hnd. split.
  - destruct (norm_all df) as [out|e'] eqn:E; simpl; [discriminate|].
    intros [= ->]. apply normalize_all_raise_inv in E.
    destruct E as (c & s & Hin & H). apply normalize_one_raise in H.
    destruct H as (-> & -> & Hnum & Hne). eauto.
  - intros (-> & s & Hin & Hnum & Hne).
    rewrite (normalize_all_raise_intro df "name" s Hin); [reflexivity|].
    apply normalize_one_raise. auto.
Qed.

End Normalize.

(** * clean_data *)

Lemma take_rows_numeric (idxs : list nat) (s : Series) :
  numeric_column s -> numeric_column (take_rows idxs s).
Proof.
  intros H. apply not_object_forall. intros c Hc. unfold take_rows in Hc.
  apply in_map_iff in Hc. destruct Hc as (i & <- & _).
  destruct (nth_in_or_default i s NaN) as [Hin | ->]; [|reflexivity].
  exact (proj1 (not_object_forall s) H _ Hin).
Qed.

Lemma fill_categorical_numeric (s : Series) :
  numeric_column s -> dropna s <> [] -> numeric_column (fill_categorical s).
Proof.
  intros Hnum Hne.
  destruct (Series_mode_head s Hne) as (m & rest & Hmode & Hin & _).
  unfold fill_categorical. rewrite Hmode.
  apply not_object_forall. intros c Hc. unfold fillna in Hc.
  apply in_map_iff in Hc. destruct Hc as (c0 & <- & Hc0).
  pose proof (proj1 (not_object_forall s) Hnum) as Hall.
  destruct (isnull c0); [|now apply Hall].
  apply Hall. unfold dropna in Hin. apply filter_In in Hin. tauto.
Qed.

Lemma first_row_kept (df : DataFrame) : 0 < nrows df -> In 0 (kept_rows df).
Proof. intros H. apply kept_rows_In. split; [exact H | reflexivity]. Qed.

Section CleanData.

Variable str_float : float64 -> string.
Variable str_lower : string -> string.
Variable parse_float : string -> option float64.
Variable load_data : string -> outcome DataFrame.
Variable to_csv : DataFrame -> string.

Lemma repair_columns_nrows (df out : DataFrame) (rep : MissingReport) :
  repair_columns str_float df = Ok (out, rep) -> nrows out = nrows df.
Proof.
  destruct df as [|[c s] rest]; intros H.
  - simpl in H. now injection H as <- <-.
  - apply repair_columns_cons in H.
    destruct H as (s' & r & out' & rs & Hr & _ & -> & _). simpl.
    now apply repair_column_frame in Hr.
Qed.

Lemma normalize_all_nrows (empty_is_object : bool) (df out : DataFrame) :
  normalize_all str_lower parse_float empty_is_object df = Returns out ->
  nrows out = nrows df.
Proof.
  destruct df as [|[c s] rest]; intros H.
  - simpl in H. now injection H as <-.
  - apply normalize_all_cons in H.
    destruct H as (s' & out' & Hone & _ & ->). simpl.
    unfold normalize_one in Hone. destruct (classify c).
    + injection Hone as <-. apply length_map.
    + apply normalize_text_returns in Hone. subst s'. apply length_map.
    + now injection Hone as <-.
Qed.

(** X21. When the text loads to a table with distinct column names and
    [clean_data] returns, the missing-data part of the report is the report of
    [handle_missing_values] on the loaded table, the cleaned table has the
    columns of the loaded one, [columns_after_cleaning] equals
    [total_columns], and [rows_after_cleaning] plus [total_duplicates] equals
    [total_rows]. *)
Theorem clean_data_report (data csv : string) (df : DataFrame)
    (rep : ValidationReport) :
  load_data data = Returns df ->
  NoDup (columns df) ->
  clean_data str_float str_lower parse_float load_data to_csv data
  = Returns (csv, rep) ->
  (exists repaired final,
     handle_missing_values str_float df = Ok (repaired, missing_data rep) /\
     normalize_data_types str_lower parse_float true
       (fst (remove_duplicates repaired))
     = Returns (final, normalization rep) /\
     duplicate_records rep = snd (remove_duplicates repaired) /\
     csv = to_csv final /\ columns final = columns df) /\
  total_rows (data_overview rep) = nrows df /\
  total_columns (data_overview rep) = List.length (columns df) /\
  columns_after_cleaning (final_status rep) = total_columns (data_overview rep) /\
  rows_after_cleaning (final_status rep)
  + total_duplicates (duplicate_records rep)
  = total_rows (data_overview rep).
Proof.
  intros Hload Hnd H. unfold clean_data in H. rewrite Hload in H. simpl in H.
  destruct (handle_missing_values str_float df) as [[repaired mrep]|e] eqn:Eh;
    simpl in H; [|discriminate].
  destruct (normalize_data_types str_lower parse_float true
              (drop_duplicates repaired)) as [[final nrep]|e] eqn:En;
    simpl in H; [|discriminate].
  injection H as <- <-. simpl.
  pose proof Eh as Eh'. rewrite handle_missing_values_spec in Eh' by exact Hnd.
  assert (Hcols : columns repaired = columns df)
    by now destruct (repair_columns_report _ _ _ _ Eh').
  assert (Hnd' : NoDup (columns (drop_duplicates repaired))).
  { rewrite columns_drop_duplicates, Hcols. exact Hnd. }
  pose proof En as En'. rewrite normalize_data_types_spec in En' by exact Hnd'.
  destruct (normalize_all str_lower parse_float true (drop_duplicates repaired))
    as [final'|e] eqn:Ea; simpl in En'; [|discriminate].
  injection En' as <- _.
  assert (Hfinal : columns final' = columns df).
  { rewrite (normalize_all_columns _ _ _ _ _ Ea), columns_drop_duplicates.
    exact Hcols. }
  split; [|split; [|split; [|split]]].
  - exists repaired, final'. simpl. auto.
  - reflexivity.
  - reflexivity.
  - now rewrite Hfinal.
  - rewrite (normalize_all_nrows _ _ _ Ea), nrows_drop_duplicates.
    rewrite <- (repair_columns_nrows _ _ _ Eh').
    pose proof (List.filter_length_le (fun i => negb (duplicated repaired i))
                  (seq 0 (nrows repaired))) as Hle.
    rewrite length_seq in Hle. fold (kept_rows repaired) in Hle. lia.
Qed.

(** X22. A ["name"] column of numbers makes [clean_data] fail: when the
    loaded table is rectangular with distinct column names, its ["name"]
    column holds a number and no string, and [handle_missing_values] returns
    on it, [clean_data] raises [AttributeError]. *)
Theorem clean_data_numeric_name (data : string) (df repaired : DataFrame)
    (mrep : MissingReport) (s : Series) (x : float64) :
  load_data data = Returns df ->
  NoDup (columns df) -> rectangular df ->
  In ("name", s) df -> numeric_column s -> In (Num x) s ->
  handle_missing_values str_float df = Ok (repaired, mrep) ->
  clean_data str_float str_lower parse_float load_data to_csv data
  = Raises AttributeError.
Proof.
  intros Hload Hnd Hrect Hin Hnum Hx Eh.
  rewrite handle_missing_values_spec in Eh by exact Hnd.
  destruct (repair_columns_drop _ _ _ _ _ _ Hnd Hin Eh)
    as (s1 & r & _ & Hr & Hget & _).
  assert (Hs1 : numeric_column s1 /\ List.length s1 = List.length s).
  { unfold repair_column in Hr. simpl in Hr.
    destruct (0 <? isna_sum s); injection Hr as <- _.
    - split.
      + apply fill_categorical_numeric; [exact Hnum|].
        intros E. assert (Hd : In (Num x) (dropna s)) by (apply filter_In; auto).
        rewrite E in Hd. contradiction.
      + destruct (fill_categorical_fillna s) as (v & _ & E).
        rewrite E. apply length_map.
    - auto. }
  destruct Hs1 as (Hnum1 & Hlen1).
  assert (Hcols : columns repaired = columns df)
    by now destruct (repair_columns_report _ _ _ _ Eh).
  assert (Hrows : 0 < nrows repaired).
  { rewrite (repair_columns_nrows _ _ _ Eh), <- (Hrect _ _ Hin).
    destruct s; [contradiction | simpl; lia]. }
  unfold clean_data. rewrite Hload. simpl.
  rewrite handle_missing_values_spec, Eh by exact Hnd. simpl.
  apply df_get_In in Hget.
  assert (Hraise : normalize_data_types str_lower parse_float true
                     (drop_duplicates repaired) = Raises AttributeError).
  { rewrite normalize_data_types_spec
      by (rewrite columns_drop_duplicates, Hcols; exact Hnd).
    rewrite (normalize_all_raise_intro str_lower parse_float true _ "name"
               (take_rows (kept_rows repaired) s1)); [reflexivity| |].
    - unfold drop_duplicates. apply in_map_iff. exists ("name", s1). auto.
    - apply normalize_one_raise. repeat split.
      + now apply take_rows_numeric.
      + pose proof (first_row_kept repaired Hrows) as H0.
        unfold take_rows. destruct (kept_rows repaired); [contradiction | discriminate]. }
  now rewrite Hraise.
Qed.

End CleanData.

(** * The further statements on concrete inputs *)

Lemma record_between_neighbours_witness :
  exists out recs r,
    interpolate_numeric str_float_sample column_edges = Ok (out, recs) /\
    In r recs /\
    gap_at column_edges (missing_index r) /\
    left_index r < missing_index r < right_index r /\
    nth_error column_edges (left_index r) = Some (left_value r) /\
    nth_error column_edges (right_index r) = Some (right_value r) /\
    (exists vL vR, left_value r = Num vL /\ right_value r = Num vR) /\
    (forall j, left_index r < j < right_index r ->
       nth_error column_edges j = Some NaN).
Proof.
  do 3 eexists. split; [lazy; reflexivity|]. split; [left; reflexivity|].
  eapply (record_between_neighbours str_float_sample column_edges);
    [lazy; reflexivity | left; reflexivity].
Defined.


Lemma repaired_column_shape_witness :
  exists out recs,
    numeric_column column_edges /\ finite_column column_edges /\
    interpolate_numeric str_float_sample column_edges = Ok (out, recs) /\
    List.length out = List.length column_edges /\
    numeric_column out /\
    (forall i c, nth_error column_edges i = Some c -> c <> NaN ->
       nth_error out i = Some c) /\
    (forall i, gap_at out i <->
               gap_at column_edges i /\ none_before column_edges i).
Proof.
  do 2 eexists. split; [reflexivity|]. split; [reflexivity|].
  split; [vm_compute; reflexivity|].
  eapply (repaired_column_shape str_float_sample column_edges);
    [reflexivity | reflexivity | vm_compute; reflexivity].
Defined.

Lemma interpolate_numeric_idempotent_witness :
  exists out recs,
    numeric_column column_edges /\ finite_column column_edges /\
    interpolate_numeric str_float_sample column_edges = Ok (out, recs) /\
    interpolate_numeric str_float_sample out = Ok (out, []).
Proof.
  do 2 eexists. split; [reflexivity|]. split; [reflexivity|].
  split; [vm_compute; reflexivity|].
  eapply (interpolate_numeric_idempotent str_float_sample column_edges);
    [reflexivity | reflexivity | vm_compute; reflexivity].
Defined.

Lemma table_string_age_NoDup : NoDup (columns table_string_age).
Proof. repeat constructor; simpl; intuition discriminate. Defined.

Lemma handle_missing_values_raises_witness :
  NoDup (columns table_string_age) /\
  (handle_missing_values str_float_sample table_string_age = Raise TypeError <->
   TypeError = TypeError /\
   exists s, In ("age", s) table_string_age /\
     interpolate_numeric str_float_sample s = Raise TypeError).
Proof.
  split; [exact table_string_age_NoDup|].
  exact (handle_missing_values_raises str_float_sample table_string_age
           TypeError table_string_age_NoDup).
Defined.

Lemma handle_missing_values_frame_witness :
  exists out rep,
    NoDup (columns table_sample) /\
    handle_missing_values str_float_sample table_sample = Ok (out, rep) /\
    columns out = columns table_sample /\
    forall c s, In (c, s) table_sample ->
      exists s', df_get out c = Ok s' /\
        List.length s' = List.length s /\
        (forall i x, nth_error s i = Some x -> x <> NaN ->
           nth_error s' i = Some x) /\
        (classify c = Categorical -> isna_sum s' = 0) /\
        (classify c = Identifier -> s' = s).
Proof.
  do 2 eexists. split; [exact table_sample_NoDup|].
  split; [lazy; reflexivity|].
  eapply (handle_missing_values_frame str_float_sample table_sample);
    [exact table_sample_NoDup | lazy; reflexivity].
Defined.

Lemma records_ascending_witness :
  exists out recs,
    interpolate_numeric str_float_sample column_10_40 = Ok (out, recs) /\
    StronglySorted lt (map missing_index recs) /\
    List.length recs <= isna_sum column_10_40.
Proof.
  do 2 eexists. split; [lazy; reflexivity|].
  eapply (records_ascending str_float_sample column_10_40).
  lazy. reflexivity.
Defined.

Lemma report_records_of_age_witness :
  exists out rep,
    NoDup (columns table_sample) /\
    handle_missing_values str_float_sample table_sample = Ok (out, rep) /\
    (forall d, In d (interpolation_details rep) -> column d = "age") /\
    StronglySorted lt
      (map (fun d => missing_index (detail d)) (interpolation_details rep)) /\
    List.length (interpolation_details rep) <= numeric_fields_missing rep.
Proof.
  do 2 eexists. split; [exact table_sample_NoDup|].
  split; [lazy; reflexivity|].
  eapply (report_records_of_age str_float_sample table_sample);
    [exact table_sample_NoDup | lazy; reflexivity].
Defined.

Lemma report_lists_every_record_witness :
  In (mkDetail "age" record_sample)
     (interpolation_details (missing_data report_sample)) /\
  substring_of "age" (generate_report str_float_sample report_sample) /\
  substring_of (str_int 1) (generate_report str_float_sample report_sample) /\
  substring_of (str_int 0) (generate_report str_float_sample report_sample) /\
  substring_of (str_scalar str_float_sample (Num (float_of_int 1)))
    (generate_report str_float_sample report_sample) /\
  substring_of (str_int 2) (generate_report str_float_sample report_sample) /\
  substring_of (str_scalar str_float_sample (Num (float_of_int 4)))
    (generate_report str_float_sample report_sample) /\
  substring_of (calculation record_sample)
    (generate_report str_float_sample report_sample) /\
  substring_of (str_scalar str_float_sample (Num (decimal 25 1)))
    (generate_report str_float_sample report_sample).
Proof.
  assert (Hin : In (mkDetail "age" record_sample)
                   (interpolation_details (missing_data report_sample)))
    by (left; reflexivity).
  split; [exact Hin|].
  exact (report_lists_every_record str_float_sample report_sample
           (mkDetail "age" record_sample) Hin).
Defined.

Lemma table_sample_age_numeric :
  forall s, In ("age", s) table_sample -> numeric_column s /\ finite_column s.
Proof.
  intros s [E|[E|[E|[E|[]]]]]; try discriminate E.
  injection E as <-. split; reflexivity.
Defined.

Lemma handle_missing_values_again_witness :
  exists out rep,
    NoDup (columns table_sample) /\
    (forall s, In ("age", s) table_sample ->
       numeric_column s /\ finite_column s) /\
    handle_missing_values str_float_sample table_sample = Ok (out, rep) /\
    exists rep2,
      handle_missing_values str_float_sample out = Ok (out, rep2) /\
      categorical_fields_missing rep2 = 0 /\
      interpolation_details rep2 = [] /\
      numeric_fields_missing rep2 <= numeric_fields_missing rep.
Proof.
  do 2 eexists. split; [exact table_sample_NoDup|].
  split; [exact table_sample_age_numeric|].
  split; [lazy; reflexivity|].
  eapply (handle_missing_values_again str_float_sample table_sample);
    [exact table_sample_NoDup | exact table_sample_age_numeric | lazy; reflexivity].
Defined.

Lemma remove_duplicates_distinct_witness :
  0 < 1 /\ 1 < nrows (fst (remove_duplicates table_duplicates)) /\
  cells_eqb (row (fst (remove_duplicates table_duplicates)) 0)
            (row (fst (remove_duplicates table_duplicates)) 1) = false.
Proof.
  assert (H01 : 0 < 1) by lia.
  assert (H1 : 1 < nrows (fst (remove_duplicates table_duplicates)))
    by (vm_compute; lia).
  split; [exact H01|]. split; [exact H1|].
  exact (remove_duplicates_distinct table_duplicates 0 1 H01 H1).
Defined.

Lemma table_numeric_name_rectangular : rectangular table_numeric_name.
Proof.
  intros c s [E|[E|[]]]; injection E as <- <-; reflexivity.
Defined.

Lemma table_numeric_name_distinct :
  forall i j, i < j -> j < nrows table_numeric_name ->
    cells_eqb (row table_numeric_name i) (row table_numeric_name j) = false.
Proof.
  intros i j Hij Hj. simpl in Hj.
  assert (Hi0 : i = 0) by lia. assert (Hj1 : j = 1) by lia. subst. reflexivity.
Defined.

Lemma remove_duplicates_nothing_to_remove_witness :
  rectangular table_numeric_name /\
  (forall i j, i < j -> j < nrows table_numeric_name ->
     cells_eqb (row table_numeric_name i) (row table_numeric_name j) = false) /\
  remove_duplicates table_numeric_name
  = (table_numeric_name,
     {| total_duplicates := 0; conflicting_records := 0 |}).
Proof.
  split; [exact table_numeric_name_rectangular|].
  split; [exact table_numeric_name_distinct|].
  exact (remove_duplicates_nothing_to_remove table_numeric_name
           table_numeric_name_rectangular table_numeric_name_distinct).
Defined.

Lemma table_duplicates_NoDup : NoDup (columns table_duplicates).
Proof. repeat constructor; simpl; intuition discriminate. Defined.

Lemma table_numeric_name_NoDup : NoDup (columns table_numeric_name).
Proof. repeat constructor; simpl; intuition discriminate. Defined.

Lemma normalize_data_types_frame_witness :
  exists out rep,
    NoDup (columns table_duplicates) /\
    normalize_data_types str_lower_sample parse_float_sample true
      table_duplicates
    = Returns (out, rep) /\
    columns out = columns table_duplicates /\
    (forall c s, In (c, s) table_duplicates ->
       exists s', df_get out c = Ok s' /\
         List.length s' = List.length s /\
         (c <> "age" -> c <> "name" -> s' = s) /\
         (c = "age" -> numeric_column s' /\ (numeric_column s -> s' = s)) /\
         (c = "name" -> normalize_text str_lower_sample true s = Returns s')) /\
    (text_fields rep = true <-> In "name" (columns table_duplicates)) /\
    (numeric_fields rep = true <-> In "age" (columns table_duplicates)).
Proof.
  do 2 eexists. split; [exact table_duplicates_NoDup|].
  split; [lazy; reflexivity|].
  eapply (normalize_data_types_frame str_lower_sample parse_float_sample true
            table_duplicates); [exact table_duplicates_NoDup | lazy; reflexivity].
Defined.

Lemma normalize_data_types_raises_witness :
  NoDup (columns table_numeric_name) /\
  (normalize_data_types str_lower_sample parse_float_sample true
     table_numeric_name
   = Raises AttributeError <->
   AttributeError = AttributeError /\
   exists s, In ("name", s) table_numeric_name /\ numeric_column s /\
     (s = [] -> true = false)).
Proof.
  split; [exact table_numeric_name_NoDup|].
  exact (normalize_data_types_raises str_lower_sample parse_float_sample true
           table_numeric_name AttributeError table_numeric_name_NoDup).
Defined.

Lemma clean_data_report_witness :
  exists csv rep,
    load_table table_duplicates "" = Returns table_duplicates /\
    NoDup (columns table_duplicates) /\
    clean_data str_float_sample str_lower_sample parse_float_sample
      (load_table table_duplicates) to_csv_header ""
    = Returns (csv, rep) /\
    total_rows (data_overview rep) = nrows table_duplicates /\
    total_columns (data_overview rep) = List.length (columns table_duplicates) /\
    columns_after_cleaning (final_status rep) = total_columns (data_overview rep) /\
    rows_after_cleaning (final_status rep)
    + total_duplicates (duplicate_records rep)
    = total_rows (data_overview rep).
Proof.
  destruct (clean_data str_float_sample str_lower_sample parse_float_sample
              (load_table table_duplicates) to_csv_header "")
    as [[csv rep]|e] eqn:E; [|exfalso; vm_compute in E; discriminate E].
  exists csv, rep. split; [reflexivity|]. split; [exact table_duplicates_NoDup|].
  split; [reflexivity|].
  exact (proj2 (clean_data_report str_float_sample str_lower_sample
                  parse_float_sample (load_table table_duplicates)
                  to_csv_header "" csv table_duplicates rep
                  eq_refl table_duplicates_NoDup E)).
Defined.

Lemma clean_data_numeric_name_witness :
  exists repaired mrep,
    load_table table_numeric_name "" = Returns table_numeric_name /\
    NoDup (columns table_numeric_name) /\
    rectangular table_numeric_name /\
    In ("name", [Num (float_of_int 1); Num (float_of_int 2)])
       table_numeric_name /\
    numeric_column [Num (float_of_int 1); Num (float_of_int 2)] /\
    In (Num (float_of_int 1)) [Num (float_of_int 1); Num (float_of_int 2)] /\
    handle_missing_values str_float_sample table_numeric_name
    = Ok (repaired, mrep) /\
    clean_data str_float_sample str_lower_sample parse_float_sample
      (load_table table_numeric_name) to_csv_header ""
    = Raises AttributeError.
Proof.
  assert (Hin : In ("name", [Num (float_of_int 1); Num (float_of_int 2)])
                   table_numeric_name)
    by (left; reflexivity).
  assert (Hx : In (Num (float_of_int 1))
                  [Num (float_of_int 1); Num (float_of_int 2)])
    by (left; reflexivity).
  do 2 eexists.
  split; [reflexivity|]. split; [exact table_numeric_name_NoDup|].
  split; [exact table_numeric_name_rectangular|].
  split; [exact Hin|]. split; [reflexivity|]. split; [exact Hx|].
  split; [vm_compute; reflexivity|].
  eapply (clean_data_numeric_name str_float_sample str_lower_sample
            parse_float_sample (load_table table_numeric_name) to_csv_header
            "" table_numeric_name _ _
            [Num (float_of_int 1); Num (float_of_int 2)] (float_of_int 1) eq_refl
            table_numeric_name_NoDup table_numeric_name_rectangular
            Hin eq_refl Hx).
  vm_compute. reflexivity.
Defined.

Lemma C5_degenerate_inputs_witness :
  NoDup (columns [("age", [NaN]); ("name", [NaN]); ("city", [Str "k"])]) /\
  (forall c s, In (c, s) [("age", [NaN]); ("name", [NaN]); ("city", [Str "k"])] ->
     List.length s <= 1) /\
  (exists out rep,
     handle_missing_values str_float_sample
       [("age", [NaN]); ("name", [NaN]); ("city", [Str "k"])] = Ok (out, rep)) /\
  NoDup (columns table_string_age) /\
  In ("x", repeat NaN 3) table_string_age /\
  (handle_missing_values str_float_sample table_string_age = Raise TypeError <->
   handle_missing_values str_float_sample (drop_column "x" table_string_age)
   = Raise TypeError).
Proof.
  assert (Hnd : NoDup (columns [("age", [NaN]); ("name", [NaN]); ("city", [Str "k"])])).
  { repeat constructor; simpl; intuition discriminate. }
  assert (Hlen : forall c s,
            In (c, s) [("age", [NaN]); ("name", [NaN]); ("city", [Str "k"])] ->
            List.length s <= 1).
  { intros c s [E|[E|[E|[]]]]; injection E as <- <-; simpl; lia. }
  assert (Hx : In ("x", repeat NaN 3) table_string_age)
    by (right; left; reflexivity).
  split; [exact Hnd|]. split; [exact Hlen|].
  split; [exact (proj1 (proj2 (C5_degenerate_inputs str_float_sample)) _ Hnd Hlen)|].
  split; [exact table_string_age_NoDup|]. split; [exact Hx|].
  exact (proj1 (proj2 (proj2 (proj2 (C5_degenerate_inputs str_float_sample))))
           table_string_age "x" 3 TypeError table_string_age_NoDup Hx).
Defined.
